(** * Function Secret Sharing (syft/frameworks/torch/mpc/fss.py)

    A shallow embedding of the FSS module of PySyft: the PRG expanders [G]
    and [H], [Convert], [bit_decomposition], the truth tables, the key
    generation and evaluation of the distributed point function (DPF) and
    of the distributed interval function (DIF), the primitive store access
    [get_keys] and the online protocol [fss_op].

    Conventions of the embedding.
    - A one-dimensional torch tensor is a [list Z]; a tensor of dtype uint8
      holds values in [0, 256) and every uint8 operation is followed by
      [wrap8]; int64 operations are followed by [wrap64].
    - A Python exception is a value of [exn]; a function that may raise
      returns a [result].
    - [hashlib.sha3_256] is a parameter of the embedding; [Keccak.sha3_256]
      implements it after FIPS 202 and is what the concrete evaluations use.
    - The random draws of [keygen] ([alpha] and the two rows of [s[0]]) are
      arguments of the embedded function.
    - The source constants are [λ = 110] and [n = 32]; they are the section
      variables [lam] and [n], instantiated by [lam0] and [n0]. *)

From Stdlib Require Import ZArith List Lia Bool String Ascii DecimalString.
From Stdlib Require Import Strings.Byte.
From Stdlib Require Uint63.
Import ListNotations.
Local Open Scope Z_scope.

(* ------------------------------------------------------------------ *)
(** ** SHA3-256 (FIPS 202), the function behind [hashlib.sha3_256] *)

Module Keccak.

(** A 64-bit lane, as its high and its low 32 bits. *)
Definition lane : Type := (PrimInt63.int * PrimInt63.int)%type.

Definition mask32 : PrimInt63.int := Eval vm_compute in Uint63.of_Z 0xFFFFFFFF.

Definition zero : lane := Eval vm_compute in (Uint63.of_Z 0, Uint63.of_Z 0).

Definition lane_of_Z (z : Z) : lane :=
  (Uint63.of_Z (Z.shiftr z 32), Uint63.of_Z (Z.land z 0xFFFFFFFF)).

Definition xorl (a b : lane) : lane :=
  (PrimInt63.lxor (fst a) (fst b), PrimInt63.lxor (snd a) (snd b)).

(** (not b) and c *)
Definition andnot (b c : lane) : lane :=
  (PrimInt63.land (PrimInt63.lxor (fst b) mask32) (fst c),
   PrimInt63.land (PrimInt63.lxor (snd b) mask32) (snd c)).

(** Rotation to the left: [s] bits within the halves, after exchanging them
    when [swap] is set; [r = 32 - s]. *)
Definition rotl (a : lane) (k : bool * PrimInt63.int * PrimInt63.int) : lane :=
  let '(swap, s, r) := k in
  let '(hi, lo) := if swap then (snd a, fst a) else a in
  (PrimInt63.land (PrimInt63.lor (PrimInt63.lsl hi s) (PrimInt63.lsr lo r)) mask32,
   PrimInt63.land (PrimInt63.lor (PrimInt63.lsl lo s) (PrimInt63.lsr hi r)) mask32).

(** A rotation by k < 64 bits. *)
Definition rotation (k : Z) : bool * PrimInt63.int * PrimInt63.int :=
  (32 <=? k, Uint63.of_Z (k mod 32), Uint63.of_Z (32 - k mod 32)).

Definition rotation_offsets : list Z :=
  [ 0;  1; 62; 28; 27;
   36; 44;  6; 55; 20;
    3; 10; 43; 25; 39;
   41; 45; 15; 21;  8;
   18;  2; 61; 56; 14].

Definition round_constants : list lane := Eval vm_compute in map lane_of_Z
  [0x0000000000000001; 0x0000000000008082; 0x800000000000808A; 0x8000000080008000;
   0x000000000000808B; 0x0000000080000001; 0x8000000080008081; 0x8000000000008009;
   0x000000000000008A; 0x0000000000000088; 0x0000000080008009; 0x000000008000000A;
   0x000000008000808B; 0x800000000000008B; 0x8000000000008089; 0x8000000000008003;
   0x8000000000008002; 0x8000000000000080; 0x000000000000800A; 0x800000008000000A;
   0x8000000080008081; 0x8000000000008080; 0x0000000080000001; 0x8000000080008008].

(** The state is 25 lanes, lane (x, y) at position x + 5 y. *)
Definition at_ (A : list lane) (i : nat) : lane := nth i A zero.

(** theta: C[x] = A[x,0] ^ ... ^ A[x,4], D[x] = C[x-1] ^ rotl(C[x+1], 1),
    A[x,y] ^= D[x]. *)
Definition theta_columns : list (list nat) := Eval vm_compute in
  map (fun x => map (fun y => x + 5 * y)%nat (seq 0 5)) (seq 0 5).

Definition theta_neighbours : list (nat * nat) := Eval vm_compute in
  map (fun x => ((x + 4) mod 5, (x + 1) mod 5)%nat) (seq 0 5).

Definition rot1 : bool * PrimInt63.int * PrimInt63.int := Eval vm_compute in rotation 1.

Definition theta (A : list lane) : list lane :=
  let C := map (fun col => fold_left (fun acc i => xorl acc (at_ A i)) col zero)
               theta_columns in
  let D := map (fun p => xorl (at_ C (fst p)) (rotl (at_ C (snd p)) rot1))
               theta_neighbours in
  map (fun p => xorl (fst p) (snd p)) (combine A (D ++ D ++ D ++ D ++ D)).

(** rho and pi: B[y, 2x + 3y] = rotl(A[x, y], r[x, y]); the table gives, for
    each position of B, the position in A and the rotation. *)
Definition rho_pi_table : list (nat * (bool * PrimInt63.int * PrimInt63.int)) := Eval vm_compute in
  map (fun j => let X := (j mod 5)%nat in
                let Y := (j / 5)%nat in
                let x := ((X + 3 * Y) mod 5)%nat in
                ((x + 5 * X)%nat, rotation (nth (x + 5 * X) rotation_offsets 0)))
      (seq 0 25).

Definition rho_pi (A : list lane) : list lane :=
  map (fun p => rotl (at_ A (fst p)) (snd p)) rho_pi_table.

(** chi: A[x, y] = B[x, y] ^ (~B[x+1, y] & B[x+2, y]). *)
Definition chi_table : list (nat * nat) := Eval vm_compute in
  map (fun j => let x := (j mod 5)%nat in
                let y := (j / 5)%nat in
                (((x + 1) mod 5 + 5 * y)%nat, ((x + 2) mod 5 + 5 * y)%nat))
      (seq 0 25).

Definition chi (B : list lane) : list lane :=
  map (fun p => xorl (fst p) (andnot (at_ B (fst (snd p))) (at_ B (snd (snd p)))))
      (combine B chi_table).

Definition iota (rc : lane) (A : list lane) : list lane :=
  match A with
  | a :: A' => xorl a rc :: A'
  | [] => []
  end.

Definition round (A : list lane) (rc : lane) : list lane :=
  iota rc (chi (rho_pi (theta A))).

Definition keccak_f (A : list lane) : list lane := fold_left round round_constants A.

(** SHA3-256: rate 1088 bits, domain suffix 01 and pad10*1. *)
Definition rate : nat := 136.

Definition pad (len : nat) : list Z :=
  let q := (rate - len mod rate)%nat in
  if (q =? 1)%nat then [0x86] else 0x06 :: repeat 0 (q - 2) ++ [0x80].

(** Little-endian bytes to an integer. *)
Definition le_int (bytes : list Z) : Z :=
  fold_right (fun b acc => b + 256 * acc) 0 bytes.

Fixpoint le_lanes (k : nat) (bytes : list Z) : list lane :=
  match k with
  | O => []
  | S k' => (Uint63.of_Z (le_int (firstn 4 (skipn 4 bytes))),
             Uint63.of_Z (le_int (firstn 4 bytes)))
            :: le_lanes k' (skipn 8 bytes)
  end.

Definition xor_block (A : list lane) (block : list Z) : list lane :=
  let L := le_lanes 17 block in
  map (fun i => xorl (nth i A zero) (nth i L zero)) (seq 0 25).

Fixpoint absorb (blocks : nat) (bytes : list Z) (A : list lane) : list lane :=
  match blocks with
  | O => A
  | S k => absorb k (skipn rate bytes) (keccak_f (xor_block A (firstn rate bytes)))
  end.

Definition half_bytes (h : PrimInt63.int) : list Z :=
  let z := Uint63.to_Z h in
  map (fun i => Z.land (Z.shiftr z (8 * Z.of_nat i)) 255) (seq 0 4).

Definition lane_bytes (l : lane) : list Z := half_bytes (snd l) ++ half_bytes (fst l).

Definition byte_of_Z (z : Z) : byte :=
  match Byte.of_N (Z.to_N z) with Some b => b | None => x00 end.

Definition sha3_256 (msg : list byte) : list byte :=
  let m := map (fun b => Z.of_N (Byte.to_N b)) msg in
  let p := m ++ pad (List.length m) in
  let A := absorb (List.length p / rate) p (repeat zero 25) in
  map byte_of_Z (flat_map lane_bytes (firstn 4 A)).

End Keccak.

(* ------------------------------------------------------------------ *)
(** ** Tensors, exceptions and the primitive store *)

Definition tensor := list Z.

(** dtype uint8: values modulo 2^8. *)
Definition wrap8 (z : Z) : Z := z mod 256.

(** dtype int64: two's complement on 64 bits. *)
Definition wrap64 (z : Z) : Z := (z + 2 ^ 63) mod 2 ^ 64 - 2 ^ 63.

(** One precomputed primitive, a Python tuple:
    [(alpha_share, s_0, CW, CW_n)] in the queue [fss_eq],
    [(alpha_share, s_0, CW)] in [fss_comp],
    [(xor_share, add_share)] in [xor_add_couple]. *)
Inductive primitive : Type :=
| EqKey (alpha : Z) (s_0 : tensor) (CW : list tensor) (CW_n : tensor)
| CompKey (alpha : Z) (s_0 : tensor) (CW : list tensor)
| XorAddCouple (xor_share add_share : Z).

(** The argument [b] of [DPF.eval], the party's index: [fss_op] passes the
    int32 tensor [th.IntTensor([i])]; a caller may pass a Python int. *)
Inductive party : Type :=
| IntTensor (i : Z)
| PyInt (i : Z).

Definition party_value (b : party) : Z :=
  match b with
  | IntTensor i => i
  | PyInt i => i
  end.

(** [worker.crypto_store]: three Python lists used as queues. *)
Record CryptoStore : Type := mkStore {
  fss_eq : list primitive;
  fss_comp : list primitive;
  xor_add_couple : list primitive
}.

Inductive exn : Type :=
| AssertionError
| RuntimeError
| IndexError
| KeyError
| ValueError
| EmptyCryptoPrimitiveStoreError (crypto_store : CryptoStore) (queue : string).

Inductive result (A : Type) : Type :=
| Ok (a : A)
| Raise (e : exn).
Arguments Ok {A} a.
Arguments Raise {A} e.

Definition bind {A B : Type} (c : result A) (k : A -> result B) : result B :=
  match c with
  | Ok a => k a
  | Raise e => Raise e
  end.

Notation "x <- c1 ;; c2" := (bind c1 (fun x => c2))
  (at level 61, c1 at next level, right associativity).

(** [for i in l: st = body(st, i)], stopping at the first exception. *)
Fixpoint for_range {S : Type} (l : list nat) (body : S -> nat -> result S)
    (st : S) : result S :=
  match l with
  | [] => Ok st
  | i :: l' => st' <- body st i ;; for_range l' body st'
  end.

(** Shape of an operand made to fit a row of [w] entries: equal length, or
    torch broadcasting of a one-element tensor. *)
Definition broadcast_to (w : nat) (x : tensor) : result tensor :=
  if (List.length x =? w)%nat then Ok x
  else match x with
       | [c] => Ok (repeat c w)
       | _ => Raise RuntimeError
       end.

(** Elementwise binary operation on two one-dimensional tensors. *)
Definition elementwise (f : Z -> Z -> Z) (a b : tensor) : result tensor :=
  if (List.length a =? List.length b)%nat then Ok (map (fun p => f (fst p) (snd p)) (combine a b))
  else match a, b with
       | [c], _ => Ok (map (fun y => f c y) b)
       | _, [c] => Ok (map (fun x => f x c) a)
       | _, _ => Raise RuntimeError
       end.

(** [a ^ b] on uint8 tensors. *)
Definition xor_t (a b : tensor) : result tensor := elementwise Z.lxor a b.

(** [a + b] on uint8 tensors. *)
Definition add_t (a b : tensor) : result tensor :=
  elementwise (fun x y => wrap8 (x + y)) a b.

(** [c * x] for a uint8 tensor [x] and a zero-dimensional or one-element [c];
    the result keeps dtype uint8. *)
Definition mul_scalar (c : Z) (x : tensor) : tensor :=
  map (fun y => wrap8 (c * y)) x.

(** [x[i]] on a list. *)
Definition getitem {A : Type} (x : list A) (i : nat) : result A :=
  match nth_error x i with
  | Some a => Ok a
  | None => Raise IndexError
  end.

Fixpoint chunks (x : tensor) (idx : list nat) : list tensor :=
  match idx with
  | [] => []
  | w :: idx' => firstn w x :: chunks (skipn w x) idx'
  end.

(** [th.split(x, idx)]: the sizes must add up to the length of [x]. *)
Definition split (x : tensor) (idx : list nat) : result (list tensor) :=
  if (list_sum idx =? List.length x)%nat then Ok (chunks x idx)
  else Raise RuntimeError.

Definition concat (a b : tensor) : tensor := a ++ b.

(** A table of two rows, as [th.zeros((2, w))] or [x.reshape(2, w)]. *)
Definition table := (tensor * tensor)%type.

Definition zeros2 (w : nat) : table := (repeat 0 w, repeat 0 w).

Definition reshape2 (x : tensor) (w : nat) : result table :=
  if (List.length x =? 2 * w)%nat then Ok (firstn w x, skipn w x)
  else Raise RuntimeError.

Definition flatten (T : table) : tensor := fst T ++ snd T.

(** Index of a row of a two-row table; Python accepts -2 .. 1. *)
Definition row_index (r : Z) : result nat :=
  if (r =? 0) || (r =? -2) then Ok 0%nat
  else if (r =? 1) || (r =? -1) then Ok 1%nat
  else Raise IndexError.

(** [T[r]] *)
Definition getrow (T : table) (r : Z) : result tensor :=
  k <- row_index r ;;
  Ok (match k with O => fst T | _ => snd T end).

(** [T[r] = v] *)
Definition setrow (T : table) (r : Z) (v : tensor) : result table :=
  k <- row_index r ;;
  v' <- broadcast_to (List.length (fst T)) v ;;
  Ok (match k with O => (v', snd T) | _ => (fst T, v') end).

(** [concat(A, B, axis=1)] on two-row tables. *)
Definition concat_axis1 (A B : table) : table :=
  (fst A ++ fst B, snd A ++ snd B).

(** [a.dot(b)] on uint8 tensors: same length, sum accumulated in uint8. *)
Definition dot (a b : tensor) : result Z :=
  if (List.length a =? List.length b)%nat
  then Ok (fold_left (fun acc p => wrap8 (acc + fst p * snd p)) (combine a b) 0)
  else Raise RuntimeError.

(* ------------------------------------------------------------------ *)
(** ** Python built-ins used by the PRG *)

(** [str(l)] for a list of ints: "[a, b, c]". *)
Definition str_list (l : list Z) : string :=
  ("[" ++ String.concat ", " (map (fun z => NilZero.string_of_int (Z.to_int z)) l) ++ "]")%string.

(** [s.encode()]: the strings here are ASCII. *)
Definition encode (s : string) : list byte := list_byte_of_string s.

(** [int.from_bytes(r, byteorder="big")] *)
Definition int_from_bytes_big (r : list byte) : Z :=
  fold_left (fun acc b => 256 * acc + Z.of_N (Byte.to_N b)) r 0.

Fixpoint bin_pos (p : positive) (acc : string) : string :=
  match p with
  | xH => String "1" acc
  | xO p' => bin_pos p' (String "0" acc)
  | xI p' => bin_pos p' (String "1" acc)
  end.

(** [bin(v)]: "0b" and the binary digits of [v], most significant first,
    without leading zeros. *)
Definition bin (v : Z) : string :=
  match v with
  | Z0 => "0b0"
  | Zpos p => ("0b" ++ bin_pos p "")%string
  | Zneg p => ("-0b" ++ bin_pos p "")%string
  end.

(** [s[a:b]] for 0 <= a <= b. *)
Definition slice (s : string) (a b : nat) : string := substring a (b - a) s.

(** [int(c)] for a digit character. *)
Definition int_of_char (c : ascii) : Z := Z.of_nat (nat_of_ascii c) - 48.

(** [list(map(int, s))] *)
Definition map_int (s : string) : list Z := map int_of_char (list_ascii_of_string s).

(* ------------------------------------------------------------------ *)
(** ** The FSS module, for a security parameter, a bit width and a hash *)

Section FSS.

Variable lam : nat.   (** λ, the security parameter, 110 in the source *)
Variable n : nat.     (** n, the bit precision, 32 in the source *)
Variable sha3_256 : list byte -> list byte.   (** hashlib.sha3_256(..).digest() *)

(** PRG *)
Definition G (seed : tensor) : result tensor :=
  if negb (List.length seed =? lam)%nat then Raise AssertionError else
  let enc_str := encode (str_list seed) in
  let r := sha3_256 enc_str in
  let binary_str := slice (bin (int_from_bytes_big r)) 2 (2 + 2 * (lam + 1)) in
  Ok (map_int binary_str).

Definition H (seed : tensor) : result tensor :=
  if negb (List.length seed =? lam)%nat then Raise AssertionError else
  let enc_str := encode (str_list seed) in
  let r := sha3_256 enc_str in
  let binary_str := slice (bin (int_from_bytes_big r)) 2 (2 + 2 + 2 * (lam + 1)) in
  Ok (map_int binary_str).

(** [th.flip(2 ** th.arange(λ), (0,)).to(th.uint8)]: the powers are int64,
    the cast keeps their low 8 bits. *)
Definition bit_pow_lambda : tensor :=
  map (fun k => wrap8 (wrap64 (2 ^ Z.of_nat k))) (rev (seq 0 lam)).

Definition Convert (bits : tensor) : result Z := dot bits bit_pow_lambda.

(** [th.flip(2 ** th.arange(n), (0,))], int64. *)
Definition bit_pow_n : tensor :=
  map (fun k => wrap64 (2 ^ Z.of_nat k)) (rev (seq 0 n)).

Definition bit_decomposition (x : Z) : tensor :=
  map (fun p => if 0 <? Z.land x p then 1 else 0) bit_pow_n.

Definition TruthTableDPF (s : tensor) (a_i : Z) : result tensor :=
  let one := [1] in
  let Table := zeros2 (lam + 1) in
  Table <- setrow Table a_i (concat s one) ;;
  Ok (flatten Table).

Definition TruthTableDIF (s : tensor) (a_i : Z) : result tensor :=
  let leafTable := zeros2 1 in
  let leaf_value := a_i in
  leafTable <- setrow leafTable (1 - a_i) [wrap8 leaf_value] ;;
  let nextTable := zeros2 (lam + 1) in
  let one := [1] in
  nextTable <- setrow nextTable a_i (concat s one) ;;
  Ok (flatten (concat_axis1 leafTable nextTable)).

(** *** DPF *)

(** The loop state of [DPF.keygen]: the rows [s[i, 0]], [s[i, 1]], the bits
    [t[i, 0]], [t[i, 1]] and the rows of [CW] written so far. *)
Definition keygen_state := (tensor * tensor * (Z * Z) * list tensor)%type.

Definition DPF_keygen_body (a : tensor) (st : keygen_state) (i : nat)
    : result keygen_state :=
  let '(s_i0, s_i1, (t_i0, t_i1), CW) := st in
  g0 <- G s_i0 ;;
  g1 <- G s_i1 ;;
  p0 <- split g0 [lam; 1%nat; lam; 1%nat] ;;
  p1 <- split g1 [lam; 1%nat; lam; 1%nat] ;;
  match p0, p1 with
  | [sL_0; _; sR_0; _], [sL_1; _; sR_1; _] =>
      a_i <- getitem a i ;;
      xL <- xor_t sL_0 sL_1 ;;
      xR <- xor_t sR_0 sR_1 ;;
      s_rand <- add_t (mul_scalar a_i xL) (mul_scalar (1 - a_i) xR) ;;
      cw_i <- TruthTableDPF s_rand a_i ;;
      c <- xor_t cw_i g0 ;;
      c <- xor_t c g1 ;;
      CW_i <- broadcast_to (2 * (lam + 1)) c ;;
      (* b = 0 *)
      tau <- xor_t g0 (mul_scalar t_i0 CW_i) ;;
      tau <- reshape2 tau (lam + 1) ;;
      row <- getrow tau a_i ;;
      q0 <- split row [lam; 1%nat] ;;
      (* b = 1 *)
      tau <- xor_t g1 (mul_scalar t_i1 CW_i) ;;
      tau <- reshape2 tau (lam + 1) ;;
      row <- getrow tau a_i ;;
      q1 <- split row [lam; 1%nat] ;;
      match q0, q1 with
      | [s0'; [t0']], [s1'; [t1']] => Ok (s0', s1', (t0', t1'), CW ++ [CW_i])
      | _, _ => Raise ValueError
      end
  | _, _ => Raise ValueError
  end.

(** [(-1) ** t] for a uint8 tensor [t]: computed in uint8. *)
Definition neg1_pow_uint8 (t : Z) : Z := wrap8 (255 ^ t).

(** [DPF.keygen()], given the draws [alpha] of [th.randint(0, 2 ** n, (1,))]
    and [(r0, r1)], the two rows of [randbit(size=(2, λ))].  Returns
    [(alpha, s[0, 0], s[0, 1], CW, CW_n)]. *)
Definition DPF_keygen (alpha : Z) (r0 r1 : tensor)
    : result (Z * tensor * tensor * list tensor * tensor) :=
  let a := bit_decomposition alpha in
  s00 <- broadcast_to lam (map wrap8 r0) ;;
  s01 <- broadcast_to lam (map wrap8 r1) ;;
  st <- for_range (seq 0 n) (DPF_keygen_body a) (s00, s01, (0, 1), []) ;;
  let '(s_n0, s_n1, (t_n0, t_n1), CW) := st in
  c0 <- Convert s_n0 ;;
  c1 <- Convert s_n1 ;;
  let CW_n := [wrap8 (neg1_pow_uint8 t_n1 * wrap8 (wrap8 (1 - c0) + c1))] in
  Ok (alpha, s00, s01, CW, CW_n).

Definition eval_state := (tensor * Z)%type.

Definition DPF_eval_body (x : tensor) (CW : list tensor) (st : eval_state)
    (i : nat) : result eval_state :=
  let '(s_i, t_i) := st in
  g <- G s_i ;;
  CW_i <- getitem CW i ;;
  tau <- xor_t g (mul_scalar t_i CW_i) ;;
  tau <- reshape2 tau (lam + 1) ;;
  x_i <- getitem x i ;;
  row <- getrow tau x_i ;;
  q <- split row [lam; 1%nat] ;;
  match q with
  | [s'; [t']] => Ok (s', t')
  | _ => Raise ValueError
  end.

(** [(-1) ** b * v] for the uint8 value [v].  For the tensor
    [th.IntTensor([i])], [(-1) ** b] is int32 and the product is promoted to
    int32: a signed integer of absolute value below 256.  For a Python int
    the product keeps dtype uint8. *)
Definition signed_share (b : party) (v : Z) : Z :=
  match b with
  | IntTensor i => (-1) ^ i * v
  | PyInt i => wrap8 ((-1) ^ i * v)
  end.

(** [DPF.eval(b, x, *k_b)] with [k_b = (s_0, CW, CW_n)]. *)
Definition DPF_eval (b : party) (x : Z) (k_b : tensor * list tensor * tensor)
    : result tensor :=
  let '(s_0, CW_rows, CW_n) := k_b in
  let x := bit_decomposition x in
  s0 <- broadcast_to lam s_0 ;;
  let CW := CW_rows ++ [CW_n] in
  let t0 := wrap8 (party_value b) in
  st <- for_range (seq 0 n) (DPF_eval_body x CW) (s0, t0) ;;
  let '(s_n, t_n) := st in
  c <- Convert s_n ;;
  CW_last <- getitem CW n ;;
  v <- add_t [c] (mul_scalar t_n CW_last) ;;
  Ok (map (signed_share b) v).

(** *** DIF *)

Definition DIF_keygen_body (a : tensor) (st : keygen_state) (i : nat)
    : result keygen_state :=
  let '(s_i0, s_i1, (t_i0, t_i1), CW) := st in
  h0 <- H s_i0 ;;
  h1 <- H s_i1 ;;
  p0 <- split h0 [1%nat; 1%nat; lam; 1%nat; lam; 1%nat] ;;
  p1 <- split h1 [1%nat; 1%nat; lam; 1%nat; lam; 1%nat] ;;
  match p0, p1 with
  | [_; _; sL_0; _; sR_0; _], [_; _; sL_1; _; sR_1; _] =>
      a_i <- getitem a i ;;
      xL <- xor_t sL_0 sL_1 ;;
      xR <- xor_t sR_0 sR_1 ;;
      s_rand <- add_t (mul_scalar a_i xL) (mul_scalar (1 - a_i) xR) ;;
      cw_i <- TruthTableDIF s_rand a_i ;;
      c <- xor_t cw_i h0 ;;
      c <- xor_t c h1 ;;
      CW_i <- broadcast_to (2 + 2 * (lam + 1)) c ;;
      (* b = 0 *)
      tau <- xor_t h0 (mul_scalar t_i0 CW_i) ;;
      tau <- reshape2 tau (lam + 2) ;;
      row <- getrow tau a_i ;;
      q0 <- split row [1%nat; lam; 1%nat] ;;
      (* b = 1 *)
      tau <- xor_t h1 (mul_scalar t_i1 CW_i) ;;
      tau <- reshape2 tau (lam + 2) ;;
      row <- getrow tau a_i ;;
      q1 <- split row [1%nat; lam; 1%nat] ;;
      match q0, q1 with
      | [_; s0'; [t0']], [_; s1'; [t1']] => Ok (s0', s1', (t0', t1'), CW ++ [CW_i])
      | _, _ => Raise ValueError
      end
  | _, _ => Raise ValueError
  end.

(** [DIF.keygen()], given the draws [alpha] and [(r0, r1)].  Returns
    [(alpha, s[0, 0], s[0, 1], CW)]. *)
Definition DIF_keygen (alpha : Z) (r0 r1 : tensor)
    : result (Z * tensor * tensor * list tensor) :=
  let a := bit_decomposition alpha in
  s00 <- broadcast_to lam (map wrap8 r0) ;;
  s01 <- broadcast_to lam (map wrap8 r1) ;;
  st <- for_range (seq 0 n) (DIF_keygen_body a) (s00, s01, (0, 1), []) ;;
  let '(_, _, _, CW) := st in
  Ok (alpha, s00, s01, CW).

(** The loop state of [DIF.eval]: [s[i]], [t[i]] and [FnOutput[0 .. i-1]]. *)
Definition DIF_eval_body (x : tensor) (CW : list tensor)
    (st : eval_state * list Z) (i : nat) : result (eval_state * list Z) :=
  let '(s_i, t_i, FnOutput) := st in
  h <- H s_i ;;
  CW_i <- getitem CW i ;;
  tau <- xor_t h (mul_scalar t_i CW_i) ;;
  tau <- reshape2 tau (lam + 2) ;;
  x_i <- getitem x i ;;
  row <- getrow tau x_i ;;
  q <- split row [1%nat; lam; 1%nat] ;;
  match q with
  | [[sigma_leaf]; s'; [t']] => Ok (s', t', FnOutput ++ [sigma_leaf])
  | _ => Raise ValueError
  end.

(** [DIF.eval(b, x, *k_b)] with [k_b = (s_0, CW)]; [FnOutput.sum()] is an
    int64 sum of [n + 1] uint8 entries. *)
Definition DIF_eval (b : Z) (x : Z) (k_b : tensor * list tensor) : result Z :=
  let '(s_0, CW) := k_b in
  let x := bit_decomposition x in
  s0 <- broadcast_to lam s_0 ;;
  let t0 := wrap8 b in
  st <- for_range (seq 0 n) (DIF_eval_body x CW) (s0, t0, []) ;;
  let '(_, t_n, FnOutput) := st in
  let FnOutput := FnOutput ++ [t_n] in
  Ok (fold_left Z.add FnOutput 0 mod 2).

(** *** The primitive store and the share-level plans *)

(** A computation on one worker: it reads and updates the worker's
    [crypto_store]; an exception leaves the store as it is at that point. *)
Definition St (A : Type) : Type := CryptoStore -> result A * CryptoStore.

Definition ret {A : Type} (a : A) : St A := fun st => (Ok a, st).

Definition raise {A : Type} (e : exn) : St A := fun st => (Raise e, st).

Definition lift {A : Type} (r : result A) : St A := fun st => (r, st).

Definition bindS {A B : Type} (c : St A) (k : A -> St B) : St B :=
  fun st => match c st with
            | (Ok a, st') => k a st'
            | (Raise e, st') => (Raise e, st')
            end.

(** The three queues of the store. *)
Inductive queue : Type := Q_fss_eq | Q_fss_comp | Q_xor_add_couple.

Definition read (q : queue) (st : CryptoStore) : list primitive :=
  match q with
  | Q_fss_eq => fss_eq st
  | Q_fss_comp => fss_comp st
  | Q_xor_add_couple => xor_add_couple st
  end.

Definition write (q : queue) (l : list primitive) (st : CryptoStore) : CryptoStore :=
  match q with
  | Q_fss_eq => mkStore l (fss_comp st) (xor_add_couple st)
  | Q_fss_comp => mkStore (fss_eq st) l (xor_add_couple st)
  | Q_xor_add_couple => mkStore (fss_eq st) (fss_comp st) l
  end.

(** The dictionary literal of [get_keys]. *)
Definition primitive_stack_of (type_op : string) : option queue :=
  if (type_op =? "eq")%string then Some Q_fss_eq
  else if (type_op =? "comp")%string then Some Q_fss_comp
  else if (type_op =? "xor_add")%string then Some Q_xor_add_couple
  else None.

Definition get_keys (type_op : string) (remove : bool) : St primitive :=
  fun crypto_store =>
  match primitive_stack_of type_op with
  | None => (Raise KeyError, crypto_store)
  | Some q =>
      match read q crypto_store with
      | p :: rest =>
          if remove then (Ok p, write q rest crypto_store)   (* pop(0) *)
          else (Ok p, crypto_store)                          (* [0] *)
      | [] =>
          (Raise (EmptyCryptoPrimitiveStoreError crypto_store ("fss_" ++ type_op)),
           crypto_store)
      end
  end.

(** First entry of a primitive tuple: [alpha, s_0, *CW = primitive]. *)
Definition first_entry (p : primitive) : Z :=
  match p with
  | EqKey alpha _ _ _ => alpha
  | CompKey alpha _ _ => alpha
  | XorAddCouple xor_share _ => xor_share
  end.

(** Shares are int64 tensors; the embedding follows one entry. *)
Definition mask_builder (x1 x2 : Z) (type_op : string) : St Z :=
  let x := wrap64 (x1 - x2) in
  bindS (get_keys type_op false) (fun p =>
  let alpha := first_entry p in
  ret (wrap64 (x + alpha))).

Definition eq_eval_plan (b : Z) (x_masked : Z) : St Z :=
  bindS (get_keys "eq" true) (fun p =>
  match p with
  | EqKey alpha s_0 CW CW_n =>
      lift (result_share <- DPF_eval (IntTensor b) x_masked (s_0, CW, CW_n) ;;
            match result_share with
            | [y] => Ok y
            | _ => Raise RuntimeError
            end)
  | _ => raise IndexError
  end).

Definition comp_eval_plan (b : Z) (x_masked : Z) : St Z :=
  bindS (get_keys "comp" true) (fun p =>
  match p with
  | CompKey alpha s_0 CW => lift (DIF_eval b x_masked (s_0, CW))
  | EqKey alpha s_0 CW _ => lift (DIF_eval b x_masked (s_0, CW))
  | XorAddCouple _ _ => raise IndexError
  end).

Definition xor_add_convert_1 (x : Z) : St Z :=
  bindS (get_keys "xor_add" false) (fun p =>
  match p with
  | XorAddCouple xor_share add_share => ret (Z.lxor x xor_share)
  | _ => raise ValueError
  end).

Definition xor_add_convert_2 (b : Z) (x : Z) : St Z :=
  bindS (get_keys "xor_add" true) (fun p =>
  match p with
  | XorAddCouple xor_share add_share =>
      ret (wrap64 (wrap64 (add_share * wrap64 (1 - wrap64 (2 * x))) + wrap64 (x * b)))
  | _ => raise ValueError
  end).

(** *** The orchestration *)

(** The workers: the store of the worker at each location, in the order of
    [x1.locations].  An additively shared tensor is the list of its shares
    in that order. *)
Definition workers := list CryptoStore.

Definition Orch (A : Type) : Type := workers -> result A * workers.

Definition bindO {A B : Type} (c : Orch A) (k : A -> Orch B) : Orch B :=
  fun w => match c w with
           | (Ok a, w') => k a w'
           | (Raise e, w') => (Raise e, w')
           end.

Fixpoint set_nth {A : Type} (i : nat) (a : A) (l : list A) : list A :=
  match l, i with
  | [], _ => []
  | _ :: l', O => a :: l'
  | x :: l', S i' => x :: set_nth i' a l'
  end.

(** [request_run_plan(me, tag, location, ..., args)]: the plan runs on the
    worker at [location]. *)
Definition request_run_plan {A : Type} (plan : St A) (location : nat) : Orch A :=
  fun w => match nth_error w location with
           | Some st => let (r, st') := plan st in (r, set_nth location st' w)
           | None => (Raise IndexError, w)
           end.

(** [for a in l: shares.append(f(a))] *)
Fixpoint for_each {A B : Type} (l : list A) (f : A -> Orch B) : Orch (list B) :=
  match l with
  | [] => fun w => (Ok [], w)
  | a :: l' => bindO (f a) (fun b => bindO (for_each l' f) (fun bs w => (Ok (b :: bs), w)))
  end.

(** The plans registered by [initialize_crypto_plans] under the tags
    [#fss_{type_op}_plan_1] and [#fss_{type_op}_plan_2]. *)
Definition plan_1 (type_op : string) (x y : Z) : St Z :=
  if (type_op =? "eq")%string then mask_builder x y "eq"
  else if (type_op =? "comp")%string then mask_builder x y "comp"
  else raise KeyError.

Definition plan_2 (type_op : string) (b x_masked : Z) : St Z :=
  if (type_op =? "eq")%string then eq_eval_plan b x_masked
  else if (type_op =? "comp")%string then comp_eval_plan b x_masked
  else raise KeyError.

(** [sum(shares)] on int64 tensors. *)
Definition sum_shares (shares : list Z) : Z :=
  fold_left (fun acc s => wrap64 (acc + s)) shares 0.

Definition liftO {A : Type} (r : result A) : Orch A := fun w => (r, w).

Definition fss_op (x1 x2 : list Z) (type_op : string) : Orch (list Z) :=
  let locations := seq 0 (List.length x1) in
  bindO (for_each locations (fun location =>
           bindO (liftO (getitem x1 location)) (fun a1 =>
           bindO (liftO (getitem x2 location)) (fun a2 =>
           request_run_plan (plan_1 type_op a1 a2) location)))) (fun shares =>
  let mask_value := sum_shares shares mod 2 ^ Z.of_nat n in
  bindO (for_each locations (fun i =>
           request_run_plan (plan_2 type_op (Z.of_nat i) mask_value) i)) (fun shares =>
  if (type_op =? "comp")%string then
    let prev_shares := shares in
    bindO (for_each (combine prev_shares locations) (fun pl =>
             request_run_plan (xor_add_convert_1 (fst pl)) (snd pl))) (fun shares =>
    bindO (liftO (getitem shares 0)) (fun sh0 =>
    bindO (liftO (getitem shares 1)) (fun sh1 =>
    let masked_value := Z.lxor sh0 sh1 in
    for_each (combine (seq 0 (List.length locations)) (combine prev_shares locations))
      (fun ipl => request_run_plan
                    (xor_add_convert_2 (Z.of_nat (fst ipl)) masked_value)
                    (snd (snd ipl))))))
  else
    liftO (Ok shares))).

Definition fss_eq_op (x1 x2 : list Z) : Orch (list Z) := fss_op x1 x2 "eq".

Definition fss_le_op (x1 x2 : list Z) : Orch (list Z) := fss_op x1 x2 "comp".

(** Modelled from the spec: the reconstruction of an additively shared
    value ([AdditiveSharingTensor], whose class is not in this file): the
    shares summed modulo M = 2^n. *)
Definition reconstruct (shares : list Z) : Z :=
  fold_left Z.add shares 0 mod 2 ^ Z.of_nat n.

End FSS.

(** The constants of the source. *)
Definition lam0 : nat := 110.
Definition n0 : nat := 32.


(** The entry points [eq] and [le] of the source, under their names. *)
Module Fss.
Definition eq := fss_eq_op.
Definition le := fss_le_op.
End Fss.

(* ------------------------------------------------------------------ *)
(** ** Reference notions used to state the properties *)

Definition is_bit (z : Z) : Prop := z = 0 \/ z = 1.

(** The integer a list of digits denotes in base 2, first digit most
    significant. *)
Definition msb_value (bits : list Z) : Z :=
  fold_left (fun acc b => 2 * acc + b) bits 0.

(** The binary digits of a non-negative integer, most significant first,
    without leading zeros ("0" for zero). *)
Fixpoint pos_bits (p : positive) (acc : list Z) : list Z :=
  match p with
  | xH => 1 :: acc
  | xO p' => pos_bits p' (0 :: acc)
  | xI p' => pos_bits p' (1 :: acc)
  end.

Definition sig_bits (v : Z) : list Z :=
  match v with
  | Zpos p => pos_bits p []
  | _ => [0]
  end.

(** The bits of a digest: eight per byte, most significant first. *)
Definition byte_bits (b : byte) : list Z :=
  map (fun k => Z.b2z (Z.testbit (Z.of_N (Byte.to_N b)) (Z.of_nat k))) (rev (seq 0 8)).

Definition digest_bits (r : list byte) : list Z := flat_map byte_bits r.

(** The digest [G] and [H] hash a seed to. *)
Definition digest_of (sha3_256 : list byte -> list byte) (seed : tensor) : list byte :=
  sha3_256 (encode (str_list seed)).

(** The test of [is_bit]. *)
Definition bitb (z : Z) : bool := (z =? 0) || (z =? 1).

(** [msb_value] from an accumulator. *)
Definition msb_value_from (bits : list Z) (acc : Z) : Z :=
  fold_left (fun acc b => 2 * acc + b) bits acc.

(** Elementwise xor of two tensors of one length. *)
Definition zipx (a b : tensor) : tensor :=
  map (fun p => Z.lxor (fst p) (snd p)) (combine a b).

(** The sum of a list of integers. *)
Definition sumZ (l : list Z) : Z := fold_left Z.add l 0.

(** Bitwise [<=], most significant bit first: decided at the first position
    where the two lists differ. *)
Fixpoint lex_le (xs ys : list Z) : bool :=
  match xs, ys with
  | x :: xs', y :: ys' => if x =? y then lex_le xs' ys' else y =? 1
  | _, _ => true
  end.

(** The three operation types and the queue each one names. *)
Definition queue_types : list (string * queue) :=
  [("eq"%string, Q_fss_eq); ("comp"%string, Q_fss_comp);
   ("xor_add"%string, Q_xor_add_couple)].

(** The store of a party at the start of a comparison: a comparison key and
    a couple at the heads of their queues. *)
Definition party_store (eqs : list primitive) (alpha_share : Z) (s_0 : tensor)
    (CW : list tensor) (comps : list primitive) (xor_share add_share : Z)
    (couples : list primitive) : CryptoStore :=
  mkStore eqs (CompKey alpha_share s_0 CW :: comps)
          (XorAddCouple xor_share add_share :: couples).

(** The store of a party that holds one comparison key and one couple. *)
Definition comp_store (alpha_share : Z) (s_0 : tensor) (CW : list tensor)
    (xor_share add_share : Z) : CryptoStore :=
  mkStore [] [CompKey alpha_share s_0 CW] [XorAddCouple xor_share add_share].

(** The correction words [DIF.keygen] computes for alpha = 5 from the seeds
    0...0 and 1...1. *)
Definition dif_correction_words (alpha : Z) (r0 r1 : tensor) : list tensor :=
  match DIF_keygen lam0 n0 Keccak.sha3_256 alpha r0 r1 with
  | Ok (_, _, _, CW) => CW
  | Raise _ => []
  end.

Definition dif_CW_5 : list tensor :=
  Eval vm_compute in dif_correction_words 5 (repeat 0 lam0) (repeat 1 lam0).

(** The two parties' evaluations of the keys [DPF.keygen] draws for [alpha]
    from the seeds 0...0 and 1...1, at the input [x], and their sum modulo
    M = 2^32.  [b0] and [b1] are the party arguments 0 and 1 in one of their
    two forms. *)
Definition dpf_run (alpha x : Z) (b0 b1 : party)
    : result (Z * tensor * tensor * list Z) :=
  k <- DPF_keygen lam0 n0 Keccak.sha3_256 alpha (repeat 0 lam0) (repeat 1 lam0) ;;
  let '(alpha', s00, s01, CW, CW_n) := k in
  e0 <- DPF_eval lam0 n0 Keccak.sha3_256 b0 x (s00, CW, CW_n) ;;
  e1 <- DPF_eval lam0 n0 Keccak.sha3_256 b1 x (s01, CW, CW_n) ;;
  Ok (alpha', e0, e1,
      map (fun p => (fst p + snd p) mod 2 ^ Z.of_nat n0) (combine e0 e1)).

(** The reconstruction of what [le] returns on the shares [x] and [y], with
    comparison keys that [DIF.keygen] draws for alpha = 5 from the seeds
    0...0 and 1...1, alpha shared as 2 + 3, and a couple for the bit 1
    shared as 1 xor 0 and as -7 + 8. *)
Definition le_run (x y : list Z) : result (Z * list Z * Z) :=
  k <- DIF_keygen lam0 n0 Keccak.sha3_256 5 (repeat 0 lam0) (repeat 1 lam0) ;;
  let '(alpha, s00, s01, CW) := k in
  let w := [comp_store 2 s00 CW 1 (-7); comp_store 3 s01 CW 0 8] in
  shares <- fst (Fss.le lam0 n0 Keccak.sha3_256 x y w) ;;
  Ok (alpha, shares, reconstruct n0 shares).

(** The seed party [b] holds after [k] levels of [DIF.eval] at [x], for the
    key [DIF.keygen] draws for [alpha] from the rows [r0] and [r1]. *)
Definition level_seed (alpha : Z) (r0 r1 : tensor) (b x : Z) (k : nat) : tensor :=
  match DIF_keygen lam0 n0 Keccak.sha3_256 alpha r0 r1 with
  | Ok (_, s00, s01, CW) =>
      match for_range (seq 0 k)
              (DIF_eval_body lam0 Keccak.sha3_256 (bit_decomposition n0 x) CW)
              (if b =? 0 then s00 else s01, b, []) with
      | Ok (s, _, _) => s
      | Raise _ => []
      end
  | Raise _ => []
  end.

(** The seed both parties reach after 31 levels at x = 1971438730 with the
    key for alpha = 5 drawn from the rows 1, 0, ..., 0 and 1, ..., 1. *)
Definition short_seed : tensor :=
  Eval vm_compute in level_seed 5 (1 :: repeat 0 109) (repeat 1 lam0) 0 1971438730 31.

(** The outcome of [DIF.keygen] for [alpha] on the rows [r0] and [r1] and of
    the two parties' evaluations of its keys at [x]. *)
Definition dif_run (alpha : Z) (r0 r1 : tensor) (x : Z)
    : result (Z * nat * result Z * result Z) :=
  k <- DIF_keygen lam0 n0 Keccak.sha3_256 alpha r0 r1 ;;
  let '(alpha', s00, s01, CW) := k in
  Ok (alpha', List.length CW,
      DIF_eval lam0 n0 Keccak.sha3_256 0 x (s00, CW),
      DIF_eval lam0 n0 Keccak.sha3_256 1 x (s01, CW)).

(** [k] successive calls [get_keys(worker, type_op, remove=True)], the
    primitives returned collected in order. *)
Fixpoint get_keys_times (type_op : string) (k : nat) : St (list primitive) :=
  match k with
  | O => ret []
  | S k' => bindS (get_keys type_op true) (fun p =>
            bindS (get_keys_times type_op k') (fun ps => ret (p :: ps)))
  end.

(** The operation types of [fss_op] and the queue each one draws its keys
    from. *)
Definition op_types : list (string * queue) :=
  [("eq"%string, Q_fss_eq); ("comp"%string, Q_fss_comp)].

(** The entries 0 and 1 read back from the byte form of a seed: the bytes
    that are the digits "0" and "1", in order. *)
Definition bit_of_byte (b : byte) : list Z :=
  match b with
  | x30 => [0]
  | x31 => [1]
  | _ => []
  end.

Definition seed_of_bytes (bs : list byte) : tensor := flat_map bit_of_byte bs.

(** Round 3 of [fss_op], the branch [type_op == "comp"], on the shares
    [prev_shares] of round 2 and the locations [locations]. *)
Definition round_3 (prev_shares : list Z) (locations : list nat) : Orch (list Z) :=
  bindO (for_each (combine prev_shares locations) (fun pl =>
           request_run_plan (xor_add_convert_1 (fst pl)) (snd pl))) (fun shares =>
  bindO (liftO (getitem shares 0)) (fun sh0 =>
  bindO (liftO (getitem shares 1)) (fun sh1 =>
  let masked_value := Z.lxor sh0 sh1 in
  for_each (combine (seq 0 (List.length locations)) (combine prev_shares locations))
    (fun ipl => request_run_plan
                  (xor_add_convert_2 (Z.of_nat (fst ipl)) masked_value)
                  (snd (snd ipl)))))).

(** The value [fss_op] opens in round 1 between two parties: the sum of the
    two masks modulo 2^n. *)
Definition mask_value (x10 x11 x20 x21 a0 a1 : Z) : Z :=
  sum_shares [wrap64 (wrap64 (x10 - x20) + a0); wrap64 (wrap64 (x11 - x21) + a1)]
    mod 2 ^ Z.of_nat n0.

(** A correction word of width [w]: [w] entries, each 0 or 1. *)
Definition word_of (w : nat) (c : tensor) : Prop :=
  List.length c = w /\ Forall is_bit c.

(** The correction words and the leaf correction [DPF.keygen] computes for
    alpha = 81 from the seeds 0...0 and 1...1. *)
Definition dpf_correction_words (alpha : Z) (r0 r1 : tensor) : list tensor :=
  match DPF_keygen lam0 n0 Keccak.sha3_256 alpha r0 r1 with
  | Ok (_, _, _, CW, _) => CW
  | Raise _ => []
  end.

Definition dpf_CW_81 : list tensor :=
  Eval vm_compute in dpf_correction_words 81 (repeat 0 lam0) (repeat 1 lam0).
(* ------------------------------------------------------------------ *)
(** ** Lemmas on the Python built-ins *)

Lemma substring_as_list (s : string) : forall a m,
  list_ascii_of_string (substring a m s) = firstn m (skipn a (list_ascii_of_string s)).
Proof.
  induction s as [|c s IH]; intros a m.
  - destruct a, m; reflexivity.
  - destruct a as [|a].
    + destruct m as [|m]; [reflexivity|].
      simpl. f_equal. apply (IH 0%nat m).
    + simpl. apply IH.
Qed.

Lemma list_ascii_of_string_app (s1 s2 : string) :
  list_ascii_of_string (s1 ++ s2) = list_ascii_of_string s1 ++ list_ascii_of_string s2.
Proof.
  induction s1 as [|c s1 IH]; simpl; [reflexivity|]. now rewrite IH.
Qed.

Lemma bin_pos_digits (p : positive) : forall acc,
  map int_of_char (list_ascii_of_string (bin_pos p acc))
  = pos_bits p (map int_of_char (list_ascii_of_string acc)).
Proof.
  induction p as [p IH|p IH|]; intros acc; simpl.
  - rewrite IH. reflexivity.
  - rewrite IH. reflexivity.
  - reflexivity.
Qed.

Lemma map_int_slice_bin (v : Z) (k : nat) :
  0 <= v -> map_int (slice (bin v) 2 (2 + k)) = firstn k (sig_bits v).
Proof.
  intros Hv. unfold map_int, slice.
  rewrite substring_as_list, <- firstn_map.
  replace (2 + k - 2)%nat with k by lia.
  f_equal.
  destruct v as [|p|p]; [reflexivity| |lia].
  unfold bin, sig_bits. rewrite list_ascii_of_string_app. simpl.
  apply (bin_pos_digits p EmptyString).
Qed.

Lemma int_from_bytes_big_nonneg (r : list byte) : 0 <= int_from_bytes_big r.
Proof.
  unfold int_from_bytes_big.
  assert (Hg : forall l acc, 0 <= acc ->
            0 <= fold_left (fun acc b => 256 * acc + Z.of_N (Byte.to_N b)) l acc).
  { induction l as [|b l IH]; intros acc Hacc; cbn [fold_left]; [assumption|].
    apply IH. pose proof (N2Z.is_nonneg (Byte.to_N b)). lia. }
  apply Hg. lia.
Qed.

Section PRG.

Variable lam : nat.
Variable sha3_256 : list byte -> list byte.

(** [G] and [H] read the significant binary digits of the digest. *)
Lemma G_sig_bits (seed : tensor) :
  List.length seed = lam ->
  G lam sha3_256 seed
  = Ok (firstn (2 * (lam + 1)) (sig_bits (int_from_bytes_big (digest_of sha3_256 seed)))).
Proof.
  intros Hlen. unfold G. rewrite Hlen, Nat.eqb_refl. simpl negb. cbv iota.
  f_equal. apply map_int_slice_bin, int_from_bytes_big_nonneg.
Qed.

Lemma H_sig_bits (seed : tensor) :
  List.length seed = lam ->
  H lam sha3_256 seed
  = Ok (firstn (2 + 2 * (lam + 1)) (sig_bits (int_from_bytes_big (digest_of sha3_256 seed)))).
Proof.
  intros Hlen. unfold H. rewrite Hlen, Nat.eqb_refl. simpl negb. cbv iota.
  f_equal.
  replace (2 + 2 + 2 * (lam + 1))%nat with (2 + (2 + 2 * (lam + 1)))%nat by lia.
  apply map_int_slice_bin, int_from_bytes_big_nonneg.
Qed.

Lemma G_wrong_length (seed : tensor) :
  List.length seed <> lam -> G lam sha3_256 seed = Raise AssertionError.
Proof.
  intros Hlen. unfold G. apply Nat.eqb_neq in Hlen. now rewrite Hlen.
Qed.

Lemma H_wrong_length (seed : tensor) :
  List.length seed <> lam -> H lam sha3_256 seed = Raise AssertionError.
Proof.
  intros Hlen. unfold H. apply Nat.eqb_neq in Hlen. now rewrite Hlen.
Qed.

End PRG.

(* ------------------------------------------------------------------ *)
(** ** Arithmetic of the dtypes *)

Lemma wrap64_small (z : Z) : - 2 ^ 63 <= z < 2 ^ 63 -> wrap64 z = z.
Proof.
  intros Hz. unfold wrap64. rewrite Z.mod_small; lia.
Qed.

Lemma wrap64_unfold (z : Z) : wrap64 z = z - 2 ^ 64 * ((z + 2 ^ 63) / 2 ^ 64).
Proof.
  unfold wrap64. rewrite Z.mod_eq by lia. lia.
Qed.

(** An int64 result agrees with the exact one modulo 2^j, j <= 64. *)
Lemma wrap64_mod_pow2 (z : Z) (j : Z) :
  0 <= j <= 64 -> wrap64 z mod 2 ^ j = z mod 2 ^ j.
Proof.
  intros Hj. rewrite wrap64_unfold.
  replace (2 ^ 64) with (2 ^ (64 - j) * 2 ^ j)
    by (rewrite <- Z.pow_add_r by lia; f_equal; lia).
  replace (z - 2 ^ (64 - j) * 2 ^ j * ((z + 2 ^ 63) / (2 ^ (64 - j) * 2 ^ j)))
    with (z + (- (2 ^ (64 - j) * ((z + 2 ^ 63) / (2 ^ (64 - j) * 2 ^ j)))) * 2 ^ j) by ring.
  apply Z_mod_plus_full.
Qed.

Lemma wrap8_range (z : Z) : 0 <= wrap8 z < 256.
Proof. unfold wrap8. apply Z.mod_pos_bound. lia. Qed.

Lemma wrap8_small (z : Z) : 0 <= z < 256 -> wrap8 z = z.
Proof. intros Hz. unfold wrap8. apply Z.mod_small. assumption. Qed.

Lemma wrap8_wrap64 (z : Z) : wrap8 (wrap64 z) = z mod 256.
Proof. unfold wrap8. apply (wrap64_mod_pow2 z 8). lia. Qed.

Lemma bitb_is_bit (z : Z) : bitb z = true <-> is_bit z.
Proof. unfold bitb, is_bit. lia. Qed.

Lemma forallb_bits (l : list Z) : forallb bitb l = true -> Forall is_bit l.
Proof.
  intros Hl. apply Forall_forall. intros z Hz.
  apply bitb_is_bit. rewrite forallb_forall in Hl. now apply Hl.
Qed.

(* ------------------------------------------------------------------ *)
(** ** The PRG expanders *)

Lemma pos_bits_length (p : positive) : forall acc,
  List.length (pos_bits p acc) = (Pos.size_nat p + List.length acc)%nat.
Proof.
  induction p as [p IH|p IH|]; intros acc; cbn [pos_bits Pos.size_nat].
  - rewrite IH. cbn [List.length]. lia.
  - rewrite IH. cbn [List.length]. lia.
  - reflexivity.
Qed.

Lemma size_nat_bound (p : positive) : forall k : nat,
  Z.pos p < 2 ^ Z.of_nat k -> (Pos.size_nat p <= k)%nat.
Proof.
  induction p as [p IH|p IH|]; intros k Hk; cbn [Pos.size_nat].
  - destruct k as [|k]; [cbn in Hk; lia|].
    rewrite Nat2Z.inj_succ, Z.pow_succ_r in Hk by lia.
    specialize (IH k). lia.
  - destruct k as [|k]; [cbn in Hk; lia|].
    rewrite Nat2Z.inj_succ, Z.pow_succ_r in Hk by lia.
    specialize (IH k). lia.
  - destruct k as [|k]; [cbn in Hk; lia|]. lia.
Qed.

Lemma int_from_bytes_big_bound (r : list byte) :
  int_from_bytes_big r < 2 ^ Z.of_nat (8 * List.length r).
Proof.
  unfold int_from_bytes_big.
  assert (Hg : forall l acc k, 0 <= acc < 2 ^ Z.of_nat k ->
            fold_left (fun acc b => 256 * acc + Z.of_N (Byte.to_N b)) l acc
            < 2 ^ Z.of_nat (8 * List.length l + k)).
  { induction l as [|b l IH]; intros acc k Hacc; cbn [fold_left List.length].
    - replace (8 * 0 + k)%nat with k by lia. lia.
    - replace (8 * S (List.length l) + k)%nat with (8 * List.length l + (8 + k))%nat by lia.
      apply IH.
      pose proof (N2Z.is_nonneg (Byte.to_N b)) as H0.
      pose proof (Byte.to_N_bounded b) as H1.
      replace (Z.of_nat (8 + k)) with (8 + Z.of_nat k) by lia.
      rewrite Z.pow_add_r by lia. change (2 ^ 8) with 256. lia. }
  specialize (Hg r 0 0%nat).
  replace (8 * List.length r + 0)%nat with (8 * List.length r)%nat in Hg by lia.
  apply Hg. cbn. lia.
Qed.

Lemma sig_bits_length (r : list byte) :
  List.length r = 32%nat ->
  (List.length (sig_bits (int_from_bytes_big r)) <= 256)%nat.
Proof.
  intros Hr. pose proof (int_from_bytes_big_bound r) as Hb.
  rewrite Hr in Hb.
  destruct (int_from_bytes_big r) as [|p|p]; cbn [sig_bits List.length]; try lia.
  rewrite pos_bits_length. cbn [List.length].
  pose proof (size_nat_bound p (8 * 32) Hb). lia.
Qed.

(** C10.  G is a prefix of H: on a seed of λ entries both expanders return,
    and the output of [G] is the first 2(λ+1) entries of the output of [H];
    the two hash the same encoding of the seed. *)
Theorem G_is_prefix_of_H :
  forall (lam : nat) (sha3_256 : list byte -> list byte) (seed : tensor),
    List.length seed = lam ->
    exists g h,
      G lam sha3_256 seed = Ok g /\
      H lam sha3_256 seed = Ok h /\
      g = firstn (2 * (lam + 1)) h.
Proof.
  intros lam sha3_256 seed Hlen.
  eexists. eexists. split; [|split].
  - apply G_sig_bits, Hlen.
  - apply H_sig_bits, Hlen.
  - rewrite firstn_firstn. f_equal. lia.
Qed.

(** C7, as amended.  Neither expander checks the requested width: on a seed
    of λ entries, whatever λ, [G] and [H] return without an error the first
    2(λ+1), respectively 2(λ+2), significant binary digits of the 256-bit
    digest, hence at most 256 entries. *)
Theorem G_H_have_no_width_guard :
  forall (lam : nat) (sha3_256 : list byte -> list byte) (seed : tensor),
    List.length seed = lam ->
    List.length (digest_of sha3_256 seed) = 32%nat ->
    exists g h,
      G lam sha3_256 seed = Ok g /\
      H lam sha3_256 seed = Ok h /\
      (List.length g <= 256)%nat /\ (List.length h <= 256)%nat.
Proof.
  intros lam sha3_256 seed Hlen Hdig.
  pose proof (sig_bits_length _ Hdig) as Hb.
  eexists. eexists. split; [|split; [|split]].
  - apply G_sig_bits, Hlen.
  - apply H_sig_bits, Hlen.
  - rewrite length_firstn. lia.
  - rewrite length_firstn. lia.
Qed.

(* ------------------------------------------------------------------ *)
(** ** Convert *)

Lemma msb_value_from_shift (bits : list Z) : forall acc,
  msb_value_from bits acc
  = acc * 2 ^ Z.of_nat (List.length bits) + msb_value_from bits 0.
Proof.
  unfold msb_value_from.
  induction bits as [|b bits IH]; intros acc; cbn [fold_left List.length].
  - cbn. lia.
  - rewrite (IH (2 * acc + b)), (IH (2 * 0 + b)).
    rewrite Nat2Z.inj_succ, Z.pow_succ_r by lia. ring.
Qed.

Lemma bit_pow_lambda_succ (m : nat) :
  bit_pow_lambda (S m) = wrap8 (wrap64 (2 ^ Z.of_nat m)) :: bit_pow_lambda m.
Proof.
  unfold bit_pow_lambda. rewrite seq_S, rev_app_distr. reflexivity.
Qed.

Lemma dot_bit_pow_lambda (bits : list Z) : forall acc,
  fold_left (fun acc p => wrap8 (acc + fst p * snd p))
            (combine bits (bit_pow_lambda (List.length bits))) acc mod 256
  = (acc + msb_value_from bits 0) mod 256.
Proof.
  induction bits as [|b bits IH]; intros acc.
  - cbn. f_equal. lia.
  - cbn [List.length]. rewrite bit_pow_lambda_succ. cbn [combine fold_left fst snd].
    rewrite IH. unfold msb_value_from at 2. cbn [fold_left].
    fold (msb_value_from bits (2 * 0 + b)).
    rewrite (msb_value_from_shift bits (2 * 0 + b)).
    rewrite wrap8_wrap64. unfold wrap8.
    rewrite Zplus_mod_idemp_l.
    replace (acc + b * (2 ^ Z.of_nat (List.length bits) mod 256) + msb_value_from bits 0)
      with (b * (2 ^ Z.of_nat (List.length bits) mod 256) + (acc + msb_value_from bits 0)) by ring.
    rewrite <- Zplus_mod_idemp_l, Zmult_mod_idemp_r, Zplus_mod_idemp_l.
    f_equal. ring.
Qed.

Lemma dot_fold_range (l : list (Z * Z)) : forall acc,
  0 <= acc < 256 ->
  0 <= fold_left (fun acc p => wrap8 (acc + fst p * snd p)) l acc < 256.
Proof.
  induction l as [|p l IH]; intros acc Hacc; cbn [fold_left]; [assumption|].
  apply IH, wrap8_range.
Qed.

(** C5, as amended.  [Convert] reads its λ entries as a base-2 number, most
    significant first, and reduces it modulo 2^8: the weights and the dot
    product are uint8, whatever the bit precision n. *)
Theorem Convert_is_value_mod_256 :
  forall (lam : nat) (bits : tensor),
    List.length bits = lam ->
    Convert lam bits = Ok (msb_value bits mod 2 ^ 8).
Proof.
  intros lam bits Hlen. unfold Convert, dot.
  assert (Hw : List.length (bit_pow_lambda lam) = lam).
  { unfold bit_pow_lambda. now rewrite length_map, length_rev, length_seq. }
  rewrite Hw, Hlen, Nat.eqb_refl. f_equal.
  pose proof (dot_bit_pow_lambda bits 0) as Hd. rewrite Hlen in Hd.
  change (2 ^ 8) with 256. change (msb_value bits) with (msb_value_from bits 0).
  rewrite <- (Z.add_0_l (msb_value_from bits 0)), <- Hd.
  symmetry. apply Z.mod_small, dot_fold_range. lia.
Qed.

(* ------------------------------------------------------------------ *)
(** ** The primitive store *)

Lemma primitive_stack_of_queue_types (type_op : string) (q : queue) :
  In (type_op, q) queue_types -> primitive_stack_of type_op = Some q.
Proof.
  intros [H|[H|[H|[]]]]; inversion H; reflexivity.
Qed.

(** C8.  On an empty queue [get_keys] raises the out-of-primitives error,
    in read mode and in pop mode alike and for each of the three queue
    types, and the store it leaves is the store it found. *)
Theorem get_keys_empty_queue :
  forall (type_op : string) (q : queue) (remove : bool) (st : CryptoStore),
    In (type_op, q) queue_types ->
    read q st = [] ->
    get_keys type_op remove st
    = (Raise (EmptyCryptoPrimitiveStoreError st ("fss_" ++ type_op)), st).
Proof.
  intros type_op q remove st Hin Hempty.
  unfold get_keys. rewrite (primitive_stack_of_queue_types _ _ Hin), Hempty.
  reflexivity.
Qed.

Lemma get_keys_read_only (type_op : string) (st : CryptoStore) :
  snd (get_keys type_op false st) = st.
Proof.
  unfold get_keys.
  destruct (primitive_stack_of type_op) as [q|]; [|reflexivity].
  destruct (read q st); reflexivity.
Qed.

(** C9.  [mask_builder] only reads the head primitive: whatever the shares
    and the operation type, and whether it returns or raises, the store
    after the call is the store before it. *)
Theorem mask_builder_leaves_store :
  forall (x1 x2 : Z) (type_op : string) (st : CryptoStore),
    snd (mask_builder x1 x2 type_op st) = st.
Proof.
  intros x1 x2 type_op st. unfold mask_builder, bindS.
  pose proof (get_keys_read_only type_op st) as Hro.
  destruct (get_keys type_op false st) as [[p|e] st']; cbn in Hro |- *; exact Hro.
Qed.

Lemma set_nth_same {A : Type} (w : list A) : forall (i : nat) (a : A),
  nth_error w i = Some a -> set_nth i a w = w.
Proof.
  induction w as [|x w IH]; intros [|i] a Hnth; cbn in *; try discriminate.
  - now inversion Hnth.
  - f_equal. now apply IH.
Qed.

(** Round 1 of the protocol run at a location changes no worker. *)
Lemma plan_1_leaves_workers (type_op : string) (x y : Z) (location : nat) (w : workers) :
  snd (request_run_plan (plan_1 type_op x y) location w) = w.
Proof.
  unfold request_run_plan.
  destruct (nth_error w location) as [st|] eqn:Hnth; [|reflexivity].
  assert (Hst : snd (plan_1 type_op x y st) = st).
  { unfold plan_1.
    destruct (type_op =? "eq")%string; [apply mask_builder_leaves_store|].
    destruct (type_op =? "comp")%string; [apply mask_builder_leaves_store|].
    reflexivity. }
  destruct (plan_1 type_op x y st) as [r st']. cbn in Hst |- *. subst st'.
  now apply set_nth_same.
Qed.

(* ------------------------------------------------------------------ *)
(** ** Boolean to arithmetic conversion *)

Lemma lxor_interchange (a b c d : Z) :
  Z.lxor (Z.lxor a c) (Z.lxor b d) = Z.lxor (Z.lxor a b) (Z.lxor c d).
Proof.
  apply Z.bits_inj'. intros k Hk. rewrite !Z.lxor_spec.
  destruct (Z.testbit a k), (Z.testbit b k), (Z.testbit c k), (Z.testbit d k);
    reflexivity.
Qed.

Lemma convert_2_mod (add_share x b : Z) :
  is_bit x -> is_bit b ->
  wrap64 (wrap64 (add_share * wrap64 (1 - wrap64 (2 * x))) + wrap64 (x * b)) mod 2 ^ 32
  = (add_share * (1 - 2 * x) + x * b) mod 2 ^ 32.
Proof.
  intros Hx Hb.
  rewrite (wrap64_small (2 * x)) by (destruct Hx; subst; lia).
  rewrite (wrap64_small (1 - 2 * x)) by (destruct Hx; subst; lia).
  rewrite (wrap64_small (x * b)) by (destruct Hx, Hb; subst; lia).
  rewrite (wrap64_mod_pow2 _ 32) by lia.
  rewrite <- Zplus_mod_idemp_l, (wrap64_mod_pow2 _ 32) by lia.
  now rewrite Zplus_mod_idemp_l.
Qed.

(** The arithmetic of round 3: the two outputs for the masked bit
    [mu = v ^ r], [r] the bit the couple hides. *)
Lemma b2a_sum (add0 add1 v r mu : Z) :
  is_bit v -> is_bit r ->
  r = (add0 + add1) mod 2 ^ 32 ->
  mu = Z.lxor v r ->
  (wrap64 (wrap64 (add0 * wrap64 (1 - wrap64 (2 * mu))) + wrap64 (mu * 0))
   + wrap64 (wrap64 (add1 * wrap64 (1 - wrap64 (2 * mu))) + wrap64 (mu * 1)))
  mod 2 ^ 32 = v.
Proof.
  intros Hv Hr Hcouple Hmu.
  assert (Hmubit : is_bit mu).
  { rewrite Hmu. destruct Hv as [-> | ->], Hr as [-> | ->]; cbv; auto. }
  rewrite Zplus_mod, !convert_2_mod by (cbv; auto).
  rewrite <- Zplus_mod.
  replace (add0 * (1 - 2 * mu) + mu * 0 + (add1 * (1 - 2 * mu) + mu * 1))
    with ((add0 + add1) * (1 - 2 * mu) + mu) by ring.
  rewrite <- Zplus_mod_idemp_l, <- Zmult_mod_idemp_l, <- Hcouple.
  rewrite Hmu.
  destruct Hv as [-> | ->], Hr as [-> | ->]; reflexivity.
Qed.

(** C4, as amended.  Boolean to arithmetic conversion.  For a bit [v] held
    as xor shares [b0], [b1] and a couple at the head of each party's queue
    whose xor shares hide a bit, the bit that its additive shares add up to
    modulo M = 2^32, round 3 opens the masked bit
    [mu = (b0 ^ xor0) ^ (b1 ^ xor1)], pops the couple of each party, and
    the two outputs [add_share * (1 - 2 mu) + b * mu] add up to [v]
    modulo M. *)
Theorem xor_add_convert_sound :
  forall (st0 st1 : CryptoStore) (q0 q1 : list primitive)
         (xor0 add0 xor1 add1 b0 b1 v : Z),
    xor_add_couple st0 = XorAddCouple xor0 add0 :: q0 ->
    xor_add_couple st1 = XorAddCouple xor1 add1 :: q1 ->
    is_bit v ->
    Z.lxor b0 b1 = v ->
    is_bit (Z.lxor xor0 xor1) ->
    Z.lxor xor0 xor1 = (add0 + add1) mod 2 ^ Z.of_nat n0 ->
    exists m0 m1 o0 o1 st0' st1',
      xor_add_convert_1 b0 st0 = (Ok m0, st0) /\
      xor_add_convert_1 b1 st1 = (Ok m1, st1) /\
      xor_add_convert_2 0 (Z.lxor m0 m1) st0 = (Ok o0, st0') /\
      xor_add_convert_2 1 (Z.lxor m0 m1) st1 = (Ok o1, st1') /\
      xor_add_couple st0' = q0 /\ xor_add_couple st1' = q1 /\
      (o0 + o1) mod 2 ^ Z.of_nat n0 = v.
Proof.
  intros st0 st1 q0 q1 xor0 add0 xor1 add1 b0 b1 v H0 H1 Hv Hb Hr Hcouple.
  unfold xor_add_convert_1, xor_add_convert_2, bindS, get_keys.
  cbn [primitive_stack_of String.eqb Ascii.eqb Bool.eqb read]. rewrite H0, H1.
  do 6 eexists. repeat split; cbn [write xor_add_couple].
  change (2 ^ Z.of_nat n0) with (2 ^ 32) in *.
  apply (b2a_sum add0 add1 v (Z.lxor xor0 xor1)); try assumption.
  rewrite lxor_interchange, Hb. reflexivity.
Qed.


(* ------------------------------------------------------------------ *)
(** ** Bit vectors and the elementwise operations *)

Lemma is_bit_lxor (a b : Z) : is_bit a -> is_bit b -> is_bit (Z.lxor a b).
Proof. intros [-> | ->] [-> | ->]; cbv; auto. Qed.

Lemma is_bit_range (a : Z) : is_bit a -> 0 <= a < 256.
Proof. intros [-> | ->]; lia. Qed.

Lemma zipx_length (a b : tensor) :
  List.length a = List.length b -> List.length (zipx a b) = List.length a.
Proof.
  intros Hlen. unfold zipx. rewrite length_map, length_combine. lia.
Qed.

Lemma zipx_app (a1 a2 b1 b2 : tensor) :
  List.length a1 = List.length b1 ->
  zipx (a1 ++ a2) (b1 ++ b2) = zipx a1 b1 ++ zipx a2 b2.
Proof.
  revert b1. induction a1 as [|x a1 IH]; intros [|y b1] Hlen; try discriminate.
  - reflexivity.
  - cbn. f_equal. apply IH. now inversion Hlen.
Qed.

Lemma zipx_firstn (k : nat) (a b : tensor) :
  firstn k (zipx a b) = zipx (firstn k a) (firstn k b).
Proof.
  unfold zipx. now rewrite firstn_map, combine_firstn.
Qed.

Lemma zipx_skipn (k : nat) : forall a b : tensor,
  skipn k (zipx a b) = zipx (skipn k a) (skipn k b).
Proof.
  induction k as [|k IH]; intros a b; [reflexivity|].
  destruct a as [|x a]; [reflexivity|].
  destruct b as [|y b]; [cbn; now destruct (skipn k a)|].
  cbn. apply IH.
Qed.

Lemma zipx_zeros (k : nat) : forall s : tensor,
  List.length s = k -> zipx (repeat 0 k) s = s.
Proof.
  induction k as [|k IH]; intros [|x s] Hlen; try discriminate; [reflexivity|].
  cbn. f_equal. apply IH. now inversion Hlen.
Qed.

Lemma zipx_bits (a b : tensor) :
  Forall is_bit a -> Forall is_bit b -> Forall is_bit (zipx a b).
Proof.
  intros Ha. revert b. induction Ha as [|x a Hx Ha IH]; intros b Hb; [constructor|].
  destruct Hb as [|y b Hy Hb]; [constructor|].
  cbn. constructor; [now apply is_bit_lxor | now apply IH].
Qed.

Lemma xor_t_same_length (a b : tensor) :
  List.length a = List.length b -> xor_t a b = Ok (zipx a b).
Proof.
  intros Hlen. unfold xor_t, elementwise. now rewrite Hlen, Nat.eqb_refl.
Qed.

Lemma mul_scalar_length (c : Z) (x : tensor) :
  List.length (mul_scalar c x) = List.length x.
Proof. apply length_map. Qed.

Lemma mul_scalar_one (x : tensor) : Forall is_bit x -> mul_scalar 1 x = x.
Proof.
  intros Hx. unfold mul_scalar. induction Hx as [|y x Hy Hx IH]; [reflexivity|].
  cbn [map]. rewrite IH. f_equal.
  rewrite Z.mul_1_l. now apply wrap8_small, is_bit_range.
Qed.

Lemma mul_scalar_zero (x : tensor) : mul_scalar 0 x = repeat 0 (List.length x).
Proof.
  unfold mul_scalar. induction x as [|y x IH]; [reflexivity|].
  cbn [map List.length repeat]. now rewrite IH.
Qed.

Lemma mul_scalar_bits (c : Z) (x : tensor) :
  is_bit c -> Forall is_bit x -> Forall is_bit (mul_scalar c x).
Proof.
  intros [-> | ->] Hx.
  - rewrite mul_scalar_zero. apply Forall_forall. intros z Hz.
    apply repeat_spec in Hz. now left.
  - now rewrite mul_scalar_one.
Qed.

Lemma sumZ_app (l l' : list Z) : sumZ (l ++ l') = sumZ l + sumZ l'.
Proof.
  unfold sumZ. rewrite fold_left_app.
  generalize (fold_left Z.add l 0). revert l'.
  assert (Hg : forall l' a b, fold_left Z.add l' (a + b) = a + fold_left Z.add l' b).
  { induction l' as [|y l' IH]; intros a b; cbn [fold_left]; [reflexivity|].
    rewrite <- IH. f_equal. ring. }
  intros l' z. rewrite <- (Z.add_0_r z) at 1. apply Hg.
Qed.

Lemma sumZ_one (z : Z) : sumZ [z] = z.
Proof. reflexivity. Qed.

Lemma lxor_mod2 (a b : Z) : Z.lxor (a mod 2) (b mod 2) = (a + b) mod 2.
Proof.
  rewrite (Zplus_mod a b).
  pose proof (Z.mod_pos_bound a 2 ltac:(lia)) as Ha.
  pose proof (Z.mod_pos_bound b 2 ltac:(lia)) as Hb.
  assert (Ha' : a mod 2 = 0 \/ a mod 2 = 1) by lia.
  assert (Hb' : b mod 2 = 0 \/ b mod 2 = 1) by lia.
  destruct Ha' as [-> | ->], Hb' as [-> | ->]; reflexivity.
Qed.

(** The bits of the significant digits. *)
Lemma pos_bits_bits (p : positive) : forall acc,
  Forall is_bit acc -> Forall is_bit (pos_bits p acc).
Proof.
  induction p as [p IH|p IH|]; intros acc Hacc; cbn [pos_bits].
  - apply IH. constructor; [now right | assumption].
  - apply IH. constructor; [now left | assumption].
  - constructor; [now right | assumption].
Qed.

Lemma sig_bits_bits (v : Z) : Forall is_bit (sig_bits v).
Proof.
  destruct v as [|p|p]; cbn [sig_bits];
    try (constructor; [now left | constructor]).
  apply pos_bits_bits. constructor.
Qed.

Lemma Forall_firstn {A : Type} (P : A -> Prop) (k : nat) (l : list A) :
  Forall P l -> Forall P (firstn k l).
Proof.
  intros Hl. apply Forall_forall. intros z Hz.
  rewrite Forall_forall in Hl. apply Hl.
  rewrite <- (firstn_skipn k l). apply in_or_app. now left.
Qed.

Lemma Forall_skipn {A : Type} (P : A -> Prop) (k : nat) (l : list A) :
  Forall P l -> Forall P (skipn k l).
Proof.
  intros Hl. apply Forall_forall. intros z Hz.
  rewrite Forall_forall in Hl. apply Hl.
  rewrite <- (firstn_skipn k l). apply in_or_app. now right.
Qed.

(** *** The comparison of two numbers on their bits *)

Lemma msb_value_cons (b : Z) (bits : list Z) :
  msb_value (b :: bits) = b * 2 ^ Z.of_nat (List.length bits) + msb_value bits.
Proof.
  change (msb_value (b :: bits)) with (msb_value_from bits (2 * 0 + b)).
  rewrite msb_value_from_shift.
  change (msb_value bits) with (msb_value_from bits 0). ring.
Qed.

Lemma msb_value_range (bits : list Z) :
  Forall is_bit bits -> 0 <= msb_value bits < 2 ^ Z.of_nat (List.length bits).
Proof.
  intros Hb. induction Hb as [|b bits Hb Hbits IH].
  - cbn. lia.
  - rewrite msb_value_cons. cbn [List.length].
    rewrite Nat2Z.inj_succ, Z.pow_succ_r by lia.
    destruct Hb as [-> | ->]; lia.
Qed.

Lemma lex_le_spec (xs : list Z) : forall ys,
  List.length xs = List.length ys ->
  Forall is_bit xs -> Forall is_bit ys ->
  lex_le xs ys = (msb_value xs <=? msb_value ys).
Proof.
  induction xs as [|x xs IH]; intros [|y ys] Hlen Hx Hy; try discriminate.
  - reflexivity.
  - inversion Hx as [|? ? Hx0 Hxs]; inversion Hy as [|? ? Hy0 Hys]; subst.
    cbn [lex_le]. rewrite !msb_value_cons.
    injection Hlen as Hlen. rewrite <- Hlen.
    pose proof (msb_value_range xs Hxs) as Rx.
    pose proof (msb_value_range ys Hys) as Ry. rewrite <- Hlen in Ry.
    specialize (IH ys Hlen Hxs Hys).
    destruct Hx0 as [-> | ->], Hy0 as [-> | ->]; cbn [Z.eqb Pos.eqb]; try rewrite IH;
      rewrite ?Z.mul_0_l, ?Z.mul_1_l, ?Z.add_0_l;
      try reflexivity.
    + symmetry. apply Z.leb_le. lia.
    + symmetry. apply Z.leb_gt. lia.
    + apply eq_true_iff_eq. rewrite !Z.leb_le. lia.
Qed.

(** *** bit_decomposition *)

Lemma land_pow2 (x k : Z) :
  0 <= k -> Z.land x (2 ^ k) = if Z.testbit x k then 2 ^ k else 0.
Proof.
  intros Hk. apply Z.bits_inj'. intros j Hj.
  rewrite Z.land_spec, Z.pow2_bits_eqb by assumption.
  destruct (Z.eqb_spec k j) as [->|Hne].
  - destruct (Z.testbit x j) eqn:Hx.
    + rewrite Z.pow2_bits_eqb, Z.eqb_refl by assumption. reflexivity.
    + now rewrite Z.bits_0.
  - rewrite andb_false_r.
    destruct (Z.testbit x k).
    + rewrite Z.pow2_bits_eqb by assumption. symmetry. now apply Z.eqb_neq.
    + now rewrite Z.bits_0.
Qed.

Lemma bit_decomposition_testbit (n : nat) (x : Z) :
  (n <= 63)%nat ->
  bit_decomposition n x
  = map (fun k => Z.b2z (Z.testbit x (Z.of_nat k))) (rev (seq 0 n)).
Proof.
  intros Hn. unfold bit_decomposition, bit_pow_n. rewrite map_map.
  apply map_ext_in. intros k Hk.
  apply in_rev, in_seq in Hk.
  assert (Hpow : 0 < 2 ^ Z.of_nat k < 2 ^ 63).
  { split; [apply Z.pow_pos_nonneg; lia|]. apply Z.pow_lt_mono_r; lia. }
  rewrite wrap64_small by lia.
  rewrite land_pow2 by lia.
  destruct (Z.testbit x (Z.of_nat k)); cbn [Z.b2z].
  - destruct (Z.ltb_spec 0 (2 ^ Z.of_nat k)); [reflexivity | lia].
  - reflexivity.
Qed.

Lemma bit_decomposition_length (n : nat) (x : Z) :
  List.length (bit_decomposition n x) = n.
Proof.
  unfold bit_decomposition, bit_pow_n.
  now rewrite !length_map, length_rev, length_seq.
Qed.

Lemma bit_decomposition_bits (n : nat) (x : Z) :
  Forall is_bit (bit_decomposition n x).
Proof.
  unfold bit_decomposition. apply Forall_forall. intros z Hz.
  apply in_map_iff in Hz. destruct Hz as [p [<- _]].
  destruct (0 <? Z.land x p); [now right | now left].
Qed.

Lemma msb_value_bit_decomposition (n : nat) (x : Z) :
  (n <= 63)%nat -> msb_value (bit_decomposition n x) = x mod 2 ^ Z.of_nat n.
Proof.
  intros Hn. rewrite bit_decomposition_testbit by assumption. clear Hn.
  induction n as [|n IH].
  - cbn. now rewrite Z.mod_1_r.
  - rewrite seq_S, rev_app_distr. cbn [rev app map Nat.add].
    rewrite msb_value_cons, IH.
    rewrite length_map, length_rev, length_seq.
    rewrite Nat2Z.inj_succ, Z.pow_succ_r by lia.
    rewrite Z.testbit_spec' by lia.
    rewrite (Z.mul_comm 2), Z.rem_mul_r by (try apply Z.pow_nonzero; lia).
    ring.
Qed.

Lemma bit_decomposition_le (n : nat) (x alpha : Z) :
  (n <= 63)%nat ->
  0 <= x < 2 ^ Z.of_nat n -> 0 <= alpha < 2 ^ Z.of_nat n ->
  lex_le (bit_decomposition n x) (bit_decomposition n alpha) = (x <=? alpha).
Proof.
  intros Hn Hx Ha.
  rewrite lex_le_spec.
  - rewrite !msb_value_bit_decomposition by assumption.
    now rewrite !Z.mod_small by assumption.
  - now rewrite !bit_decomposition_length.
  - apply bit_decomposition_bits.
  - apply bit_decomposition_bits.
Qed.

Lemma bit_decomposition_inj (n : nat) (x alpha : Z) :
  (n <= 63)%nat ->
  0 <= x < 2 ^ Z.of_nat n -> 0 <= alpha < 2 ^ Z.of_nat n ->
  bit_decomposition n x = bit_decomposition n alpha -> x = alpha.
Proof.
  intros Hn Hx Ha Heq.
  rewrite <- (Z.mod_small x (2 ^ Z.of_nat n)), <- (Z.mod_small alpha (2 ^ Z.of_nat n))
    by assumption.
  rewrite <- !msb_value_bit_decomposition by assumption. now rewrite Heq.
Qed.

Lemma add_t_zeros_l (x : tensor) :
  Forall is_bit x -> add_t (repeat 0 (List.length x)) x = Ok x.
Proof.
  intros Hx. unfold add_t, elementwise. rewrite repeat_length, Nat.eqb_refl.
  f_equal. induction Hx as [|y x Hy Hx IH]; [reflexivity|].
  cbn [List.length repeat combine map fst snd]. rewrite IH. f_equal.
  rewrite Z.add_0_l. now apply wrap8_small, is_bit_range.
Qed.

Lemma add_t_zeros_r (x : tensor) :
  Forall is_bit x -> add_t x (repeat 0 (List.length x)) = Ok x.
Proof.
  intros Hx. unfold add_t, elementwise. rewrite repeat_length, Nat.eqb_refl.
  f_equal. induction Hx as [|y x Hy Hx IH]; [reflexivity|].
  cbn [List.length repeat combine map fst snd]. rewrite IH. f_equal.
  rewrite Z.add_0_r. now apply wrap8_small, is_bit_range.
Qed.

(** [s_rand = xL * a_i + xR * (1 - a_i)] selects one of the two. *)
Lemma s_rand_select (a_i : Z) (xL xR s_rand : tensor) :
  is_bit a_i -> List.length xL = List.length xR ->
  Forall is_bit xL -> Forall is_bit xR ->
  add_t (mul_scalar a_i xL) (mul_scalar (1 - a_i) xR) = Ok s_rand ->
  s_rand = if a_i =? 1 then xL else xR.
Proof.
  intros [-> | ->] Hlen BL BR Hs.
  - change (1 - 0) with 1 in Hs.
    rewrite mul_scalar_zero, (mul_scalar_one _ BR), Hlen, (add_t_zeros_l _ BR) in Hs.
    cbn [Z.eqb]. congruence.
  - change (1 - 1) with 0 in Hs.
    rewrite mul_scalar_zero, (mul_scalar_one _ BL), <- Hlen, (add_t_zeros_r _ BL) in Hs.
    cbn [Z.eqb Pos.eqb]. congruence.
Qed.

(* ------------------------------------------------------------------ *)
(** ** Correctness of the distributed interval function *)

Section DIF_correctness.

Variable lam : nat.
Variable n : nat.
Variable sha3_256 : list byte -> list byte.

(** One party's step at one level: the row [r] of
    [H(s) ^ (t * CW_i)], split into leaf bit, next seed and next bit. *)
Definition dif_step (h : tensor) (t : Z) (CW_i : tensor) (r : Z)
    : result (Z * tensor * Z) :=
  tau <- xor_t h (mul_scalar t CW_i) ;;
  tau <- reshape2 tau (lam + 2) ;;
  row <- getrow tau r ;;
  q <- split row [1%nat; lam; 1%nat] ;;
  match q with
  | [[sigma_leaf]; s'; [t']] => Ok (sigma_leaf, s', t')
  | _ => Raise ValueError
  end.

(** The two rows of the truth table of [TruthTableDIF s a_i]. *)
Definition dif_table_row (s : tensor) (a_i : Z) (r : Z) : tensor :=
  if r =? a_i then 0 :: s ++ [1] else a_i :: repeat 0 (lam + 1).

Lemma H_Ok_inv (s h : tensor) :
  H lam sha3_256 s = Ok h -> List.length s = lam /\ Forall is_bit h.
Proof.
  intros Hh.
  destruct (Nat.eq_dec (List.length s) lam) as [Hlen|Hlen].
  - split; [assumption|].
    rewrite H_sig_bits in Hh by assumption.
    assert (Heq : firstn (2 + 2 * (lam + 1))
                    (sig_bits (int_from_bytes_big (digest_of sha3_256 s))) = h)
      by congruence.
    rewrite <- Heq. apply Forall_firstn, sig_bits_bits.
  - rewrite H_wrong_length in Hh by assumption. discriminate Hh.
Qed.

Lemma split_Ok_inv (x : tensor) (idx : list nat) (q : list tensor) :
  split x idx = Ok q -> List.length x = list_sum idx /\ q = chunks x idx.
Proof.
  unfold split. destruct (list_sum idx =? List.length x)%nat eqn:E; [|discriminate].
  apply Nat.eqb_eq in E. intros Hq. injection Hq as <-. now split.
Qed.

Lemma split_same_length (x : tensor) (idx : list nat) :
  List.length x = list_sum idx -> split x idx = Ok (chunks x idx).
Proof.
  intros Hlen. unfold split. now rewrite Hlen, Nat.eqb_refl.
Qed.

(** A row of λ + 2 entries is a leaf bit, a seed of λ entries and a bit. *)
Lemma row_shape (row : tensor) :
  List.length row = (lam + 2)%nat ->
  exists sigma s t,
    row = sigma :: s ++ [t] /\ List.length s = lam /\
    chunks row [1%nat; lam; 1%nat] = [[sigma]; s; [t]].
Proof.
  intros Hlen. destruct row as [|sigma rest]; [cbn in Hlen; lia|].
  cbn [List.length] in Hlen.
  assert (Hrest : List.length rest = (lam + 1)%nat) by lia.
  pose proof (firstn_skipn lam rest) as Hsplit.
  assert (Hlast : List.length (skipn lam rest) = 1%nat) by (rewrite length_skipn; lia).
  destruct (skipn lam rest) as [|t [|t' l]] eqn:Hsk; try discriminate Hlast.
  exists sigma, (firstn lam rest), t.
  split; [now rewrite Hsplit|]. split; [rewrite length_firstn; lia|].
  cbn [chunks firstn skipn]. rewrite Hsk. reflexivity.
Qed.

Lemma chunks_row (sigma : Z) (s : tensor) (t : Z) :
  List.length s = lam ->
  chunks (sigma :: s ++ [t]) [1%nat; lam; 1%nat] = [[sigma]; s; [t]].
Proof.
  intros Hlen. cbn [chunks firstn skipn].
  rewrite firstn_app, skipn_app, Hlen, Nat.sub_diag.
  rewrite firstn_all2, skipn_all2 by lia. cbn. now rewrite app_nil_r.
Qed.

Definition row_of (tau : tensor) (r : Z) : tensor :=
  if r =? 0 then firstn (lam + 2) tau else skipn (lam + 2) tau.

Lemma row_of_length (tau : tensor) (r : Z) :
  List.length tau = (2 * (lam + 2))%nat -> List.length (row_of tau r) = (lam + 2)%nat.
Proof.
  intros Hlen. unfold row_of. destruct (r =? 0).
  - rewrite length_firstn. lia.
  - rewrite length_skipn. lia.
Qed.

Lemma row_of_zipx (a b : tensor) (r : Z) :
  row_of (zipx a b) r = zipx (row_of a r) (row_of b r).
Proof.
  unfold row_of. destruct (r =? 0); [apply zipx_firstn | apply zipx_skipn].
Qed.

Lemma row_of_app (r0 r1 : tensor) (r : Z) :
  List.length r0 = (lam + 2)%nat ->
  row_of (r0 ++ r1) r = if r =? 0 then r0 else r1.
Proof.
  intros Hlen. unfold row_of. destruct (r =? 0).
  - rewrite firstn_app, firstn_all2 by lia.
    replace (lam + 2 - List.length r0)%nat with 0%nat by lia.
    cbn. apply app_nil_r.
  - rewrite skipn_app, skipn_all2 by lia.
    replace (lam + 2 - List.length r0)%nat with 0%nat by lia. reflexivity.
Qed.

(** [dif_step] in closed form. *)
Lemma dif_step_spec (h : tensor) (t : Z) (CW_i : tensor) (r : Z)
    (sigma : Z) (s : tensor) (t' : Z) :
  List.length h = (2 * (lam + 2))%nat ->
  List.length CW_i = (2 * (lam + 2))%nat ->
  is_bit r ->
  row_of (zipx h (mul_scalar t CW_i)) r = sigma :: s ++ [t'] ->
  List.length s = lam ->
  dif_step h t CW_i r = Ok (sigma, s, t').
Proof.
  intros Hh Hcw Hr Hrow Hs. unfold dif_step.
  rewrite xor_t_same_length by (rewrite mul_scalar_length; lia).
  cbn beta iota delta [bind].
  unfold reshape2.
  rewrite zipx_length by (rewrite mul_scalar_length; lia).
  rewrite Hh, Nat.eqb_refl. cbn beta iota delta [bind].
  assert (Hget : getrow (firstn (lam + 2) (zipx h (mul_scalar t CW_i)),
                         skipn (lam + 2) (zipx h (mul_scalar t CW_i))) r
                 = Ok (sigma :: s ++ [t'])).
  { rewrite <- Hrow. unfold row_of. destruct Hr as [-> | ->]; reflexivity. }
  rewrite Hget. cbn beta iota delta [bind].
  rewrite split_same_length
    by (unfold list_sum; cbn [List.length fold_right]; rewrite length_app;
        cbn [List.length]; lia).
  cbn beta iota delta [bind]. now rewrite chunks_row.
Qed.

Lemma TruthTableDIF_spec (s : tensor) (a_i : Z) :
  is_bit a_i -> List.length s = lam ->
  TruthTableDIF lam s a_i = Ok (dif_table_row s a_i 0 ++ dif_table_row s a_i 1).
Proof.
  intros Ha Hs. unfold TruthTableDIF, setrow, zeros2, concat, dif_table_row.
  assert (Hb : broadcast_to (lam + 1) (s ++ [1]) = Ok (s ++ [1])).
  { unfold broadcast_to. rewrite length_app, Hs. cbn [List.length].
    now rewrite Nat.eqb_refl. }
  destruct Ha as [-> | ->]; cbn [Z.sub Z.opp Z.add Z.pos_sub row_index Z.eqb orb bind fst snd
                                 repeat List.length broadcast_to Nat.eqb wrap8];
    rewrite repeat_length, Hb; reflexivity.
Qed.

Lemma dif_table_row_length (s : tensor) (a_i r : Z) :
  List.length s = lam -> List.length (dif_table_row s a_i r) = (lam + 2)%nat.
Proof.
  intros Hs. unfold dif_table_row. destruct (r =? a_i); cbn [List.length].
  - rewrite length_app, Hs. cbn [List.length]. lia.
  - rewrite repeat_length. lia.
Qed.

Lemma dif_table_row_bits (s : tensor) (a_i r : Z) :
  is_bit a_i -> Forall is_bit s -> Forall is_bit (dif_table_row s a_i r).
Proof.
  intros Ha Hs. unfold dif_table_row. destruct (r =? a_i).
  - constructor; [now left|]. apply Forall_app. split; [assumption|].
    constructor; [now right | constructor].
  - constructor; [assumption|]. apply Forall_forall. intros z Hz.
    apply repeat_spec in Hz. now left.
Qed.

(** The two parties' rows differ by the truth table: with
    [CW_i = table ^ h0 ^ h1] and [t0 <> t1],
    [h1 ^ t1 CW_i = table ^ (h0 ^ t0 CW_i)]. *)
Lemma tau_pair (cwt : tensor) : forall (h0 h1 : tensor) (t0 t1 : Z),
  List.length h0 = List.length cwt -> List.length h1 = List.length cwt ->
  Forall is_bit cwt -> Forall is_bit h0 -> Forall is_bit h1 ->
  is_bit t0 -> is_bit t1 -> t0 + t1 = 1 ->
  zipx h1 (mul_scalar t1 (zipx (zipx cwt h0) h1))
  = zipx cwt (zipx h0 (mul_scalar t0 (zipx (zipx cwt h0) h1))).
Proof.
  induction cwt as [|c cwt IH]; intros [|x0 h0] [|x1 h1] t0 t1 L0 L1 Hc H0 H1 Ht0 Ht1 Hsum;
    try discriminate; [reflexivity|].
  inversion Hc as [|? ? Hc0 Hc']; inversion H0 as [|? ? Hx0 H0'];
    inversion H1 as [|? ? Hx1 H1']; subst.
  cbn [zipx mul_scalar map combine fst snd]. f_equal.
  - destruct Ht0 as [-> | ->], Ht1 as [-> | ->]; try lia;
      destruct Hc0 as [-> | ->], Hx0 as [-> | ->], Hx1 as [-> | ->]; reflexivity.
  - apply (IH h0 h1 t0 t1); auto.
Qed.

Lemma tau_bits (h CW_i : tensor) (t : Z) :
  Forall is_bit h -> Forall is_bit CW_i -> is_bit t ->
  Forall is_bit (zipx h (mul_scalar t CW_i)).
Proof.
  intros Hh Hc Ht. apply zipx_bits; [assumption|]. now apply mul_scalar_bits.
Qed.

Lemma row_of_bits (tau : tensor) (r : Z) :
  Forall is_bit tau -> Forall is_bit (row_of tau r).
Proof.
  intros Ht. unfold row_of. destruct (r =? 0);
    [now apply Forall_firstn | now apply Forall_skipn].
Qed.

Lemma dif_step_inv (h : tensor) (t : Z) (CW_i : tensor) (r : Z)
    (sigma : Z) (s : tensor) (t' : Z) :
  List.length h = (2 * (lam + 2))%nat ->
  List.length CW_i = (2 * (lam + 2))%nat ->
  is_bit r ->
  dif_step h t CW_i r = Ok (sigma, s, t') ->
  row_of (zipx h (mul_scalar t CW_i)) r = sigma :: s ++ [t'] /\ List.length s = lam.
Proof.
  intros Hh Hcw Hr Hstep.
  assert (Hlen : List.length (zipx h (mul_scalar t CW_i)) = (2 * (lam + 2))%nat)
    by (rewrite zipx_length; rewrite ?mul_scalar_length; lia).
  destruct (row_shape _ (row_of_length _ r Hlen)) as (sg & s2 & t2 & Hrow & Hs2 & _).
  rewrite (dif_step_spec h t CW_i r sg s2 t2 Hh Hcw Hr Hrow Hs2) in Hstep.
  injection Hstep as <- <- <-. now split.
Qed.

(** What one level does to the two parties, [CW_i] being the correction
    word of [keygen]: party 1's row is party 0's row xored with the row of
    the truth table. *)
Lemma dif_level (a_i : Z) (h0 h1 s_rand : tensor) (t0 t1 : Z) (r : Z)
    (sg0 : Z) (s0' : tensor) (t0' : Z) :
  let CW_i := zipx (zipx (dif_table_row s_rand a_i 0 ++ dif_table_row s_rand a_i 1) h0) h1 in
  is_bit a_i -> is_bit r ->
  List.length h0 = (2 * (lam + 2))%nat -> List.length h1 = (2 * (lam + 2))%nat ->
  Forall is_bit h0 -> Forall is_bit h1 ->
  List.length s_rand = lam -> Forall is_bit s_rand ->
  is_bit t0 -> is_bit t1 -> t0 + t1 = 1 ->
  dif_step h0 t0 CW_i r = Ok (sg0, s0', t0') ->
  is_bit sg0 /\ is_bit t0' /\
  if r =? a_i
  then dif_step h1 t1 CW_i r = Ok (sg0, zipx s_rand s0', Z.lxor 1 t0')
  else dif_step h1 t1 CW_i r = Ok (Z.lxor a_i sg0, s0', t0').
Proof.
  intros CW_i Ha Hr L0 L1 B0 B1 Ls Bs Ht0 Ht1 Hsum Hstep.
  set (cwt := dif_table_row s_rand a_i 0 ++ dif_table_row s_rand a_i 1) in *.
  assert (Lc : List.length cwt = (2 * (lam + 2))%nat).
  { unfold cwt. rewrite length_app, !dif_table_row_length by assumption. lia. }
  assert (Bc : Forall is_bit cwt).
  { unfold cwt. apply Forall_app. split; now apply dif_table_row_bits. }
  assert (LCW : List.length CW_i = (2 * (lam + 2))%nat).
  { unfold CW_i. rewrite !zipx_length; rewrite ?zipx_length; lia. }
  assert (BCW : Forall is_bit CW_i).
  { unfold CW_i. apply zipx_bits; [apply zipx_bits|]; assumption. }
  destruct (dif_step_inv _ _ _ _ _ _ _ L0 LCW Hr Hstep) as [Hrow0 Hs0'].
  pose proof (row_of_bits _ r (tau_bits h0 CW_i t0 B0 BCW Ht0)) as Brow0.
  rewrite Hrow0 in Brow0.
  inversion Brow0 as [|? ? Bsg0 Brest]; subst.
  apply Forall_app in Brest. destruct Brest as [_ Bt0'].
  inversion Bt0' as [|? ? Bt0'' _]; subst.
  split; [assumption|]. split; [assumption|].
  assert (Hrow1 : row_of (zipx h1 (mul_scalar t1 CW_i)) r
                  = zipx (dif_table_row s_rand a_i r) (sg0 :: s0' ++ [t0'])).
  { unfold CW_i. rewrite (tau_pair cwt h0 h1 t0 t1) by (auto; lia).
    fold CW_i. rewrite row_of_zipx, Hrow0. f_equal.
    unfold cwt. rewrite row_of_app by now apply dif_table_row_length.
    destruct Hr as [-> | ->]; reflexivity. }
  unfold dif_table_row in Hrow1.
  destruct (r =? a_i).
  - apply dif_step_spec; try assumption.
    + rewrite Hrow1.
      change (0 :: s_rand ++ [1]) with ([0] ++ s_rand ++ [1]).
      change (sg0 :: s0' ++ [t0']) with ([sg0] ++ s0' ++ [t0']).
      rewrite zipx_app by reflexivity. rewrite zipx_app by lia.
      cbn [zipx map combine fst snd app]. now rewrite Z.lxor_0_l.
    + rewrite zipx_length; lia.
  - apply dif_step_spec; try assumption.
    rewrite Hrow1.
    replace (lam + 1)%nat with (lam + 1)%nat by reflexivity.
    rewrite repeat_app.
    change (a_i :: repeat 0 lam ++ repeat 0 1) with ([a_i] ++ repeat 0 lam ++ [0]).
    change (sg0 :: s0' ++ [t0']) with ([sg0] ++ s0' ++ [t0']).
    rewrite zipx_app by reflexivity. rewrite zipx_app by (rewrite repeat_length; lia).
    rewrite zipx_zeros by assumption.
    cbn [zipx map combine fst snd app]. now rewrite Z.lxor_0_l.
Qed.

(** The body of the loop of [DIF.eval], from the step of one party. *)
Lemma DIF_eval_body_step (x : tensor) (CW : list tensor) (s : tensor) (t : Z)
    (out : list Z) (i : nat) (h CW_i : tensor) (x_i : Z)
    (sigma : Z) (s' : tensor) (t' : Z) :
  H lam sha3_256 s = Ok h ->
  getitem CW i = Ok CW_i ->
  getitem x i = Ok x_i ->
  dif_step h t CW_i x_i = Ok (sigma, s', t') ->
  DIF_eval_body lam sha3_256 x CW (s, t, out) i = Ok (s', t', out ++ [sigma]).
Proof.
  intros Hh Hcw Hx Hstep. unfold DIF_eval_body. rewrite Hh, Hcw.
  cbn beta iota delta [bind]. unfold dif_step in Hstep.
  destruct (xor_t h (mul_scalar t CW_i)) as [tau|e]; [|discriminate Hstep].
  cbn beta iota delta [bind] in Hstep |- *.
  destruct (reshape2 tau (lam + 2)) as [tau2|e]; [|discriminate Hstep].
  cbn beta iota delta [bind] in Hstep |- *. rewrite Hx.
  cbn beta iota delta [bind].
  destruct (getrow tau2 x_i) as [row|e]; [|discriminate Hstep].
  cbn beta iota delta [bind] in Hstep |- *.
  destruct (split row [1%nat; lam; 1%nat]) as [q|e]; [|discriminate Hstep].
  cbn beta iota delta [bind] in Hstep |- *.
  destruct q as [|[|sg [|? ?]] [|s2 [|[|t2 [|? ?]] [|? ?]]]]; try discriminate Hstep.
  now injection Hstep as -> -> ->.
Qed.

(** The accumulated [FnOutput] does not influence the walk: the body
    appends to it. *)
Lemma DIF_eval_body_out (x : tensor) (CW : list tensor) (s : tensor) (t : Z)
    (out : list Z) (i : nat) :
  DIF_eval_body lam sha3_256 x CW (s, t, out) i
  = match DIF_eval_body lam sha3_256 x CW (s, t, []) i with
    | Ok (s', t', d) => Ok (s', t', out ++ d)
    | Raise e => Raise e
    end.
Proof.
  unfold DIF_eval_body.
  destruct (H lam sha3_256 s) as [h|e]; [|reflexivity]. cbn beta iota delta [bind].
  destruct (getitem CW i) as [CW_i|e]; [|reflexivity]. cbn beta iota delta [bind].
  destruct (xor_t h (mul_scalar t CW_i)) as [tau|e]; [|reflexivity].
  cbn beta iota delta [bind].
  destruct (reshape2 tau (lam + 2)) as [tau2|e]; [|reflexivity].
  cbn beta iota delta [bind].
  destruct (getitem x i) as [x_i|e]; [|reflexivity]. cbn beta iota delta [bind].
  destruct (getrow tau2 x_i) as [row|e]; [|reflexivity]. cbn beta iota delta [bind].
  destruct (split row [1%nat; lam; 1%nat]) as [q|e]; [|reflexivity].
  cbn beta iota delta [bind].
  destruct q as [|[|sg [|? ?]] [|s2 [|[|t2 [|? ?]] [|? ?]]]]; reflexivity.
Qed.

Lemma DIF_eval_loop_out (x : tensor) (CW : list tensor) (l : list nat) :
  forall (s : tensor) (t : Z) (out : list Z),
  for_range l (DIF_eval_body lam sha3_256 x CW) (s, t, out)
  = match for_range l (DIF_eval_body lam sha3_256 x CW) (s, t, []) with
    | Ok (s', t', d) => Ok (s', t', out ++ d)
    | Raise e => Raise e
    end.
Proof.
  induction l as [|i l IH]; intros s t out; cbn [for_range].
  - now rewrite app_nil_r.
  - rewrite (DIF_eval_body_out x CW s t out).
    destruct (DIF_eval_body lam sha3_256 x CW (s, t, []) i) as [[[s' t'] d]|e];
      [|reflexivity].
    cbn beta iota delta [bind]. unfold eval_state in *.
    rewrite (IH s' t' (out ++ d)), (IH s' t' d).
    match goal with
    | |- context [@for_range ?S ?l ?b ?st] =>
        destruct (@for_range S l b st) as [[[s'' t''] d']|e]; [|reflexivity]
    end.
    now rewrite app_assoc.
Qed.

(** What the body of the loop of [DIF.keygen] computes at a level. *)
Lemma DIF_keygen_body_inv (a : tensor) (s0 s1 : tensor) (t0 t1 : Z)
    (CW : list tensor) (i : nat) (st' : keygen_state) :
  Forall is_bit a -> is_bit t0 -> is_bit t1 ->
  DIF_keygen_body lam sha3_256 a (s0, s1, (t0, t1), CW) i = Ok st' ->
  exists (a_i : Z) (h0 h1 s_rand : tensor)
         (sg0 : Z) (s0' : tensor) (t0' : Z) (sg1 : Z) (s1' : tensor) (t1' : Z),
    let CW_i := zipx (zipx (dif_table_row s_rand a_i 0 ++ dif_table_row s_rand a_i 1) h0) h1 in
    getitem a i = Ok a_i /\ is_bit a_i /\
    H lam sha3_256 s0 = Ok h0 /\ H lam sha3_256 s1 = Ok h1 /\
    List.length h0 = (2 * (lam + 2))%nat /\ List.length h1 = (2 * (lam + 2))%nat /\
    Forall is_bit h0 /\ Forall is_bit h1 /\
    List.length s_rand = lam /\ Forall is_bit s_rand /\
    dif_step h0 t0 CW_i a_i = Ok (sg0, s0', t0') /\
    dif_step h1 t1 CW_i a_i = Ok (sg1, s1', t1') /\
    st' = (s0', s1', (t0', t1'), CW ++ [CW_i]).
Proof.
  intros Ba Bt0 Bt1 Hbody. unfold DIF_keygen_body in Hbody.
  destruct (H lam sha3_256 s0) as [h0|e] eqn:Eh0; [|discriminate Hbody].
  destruct (H lam sha3_256 s1) as [h1|e] eqn:Eh1; [|discriminate Hbody].
  cbn beta iota delta [bind] in Hbody.
  destruct (split h0 [1; 1; lam; 1; lam; 1]%nat) as [p0|e] eqn:Ep0; [|discriminate Hbody].
  destruct (split h1 [1; 1; lam; 1; lam; 1]%nat) as [p1|e] eqn:Ep1; [|discriminate Hbody].
  cbn beta iota delta [bind] in Hbody.
  apply split_Ok_inv in Ep0, Ep1. destruct Ep0 as [L0 ->], Ep1 as [L1 ->].
  unfold list_sum in L0, L1. cbn [fold_right] in L0, L1.
  cbn [chunks] in Hbody.
  destruct (getitem a i) as [a_i|e] eqn:Ea; [|discriminate Hbody].
  cbn beta iota delta [bind] in Hbody.
  assert (Bai : is_bit a_i).
  { unfold getitem in Ea. destruct (nth_error a i) as [z|] eqn:En; [|discriminate Ea].
    injection Ea as <-. rewrite Forall_forall in Ba. eapply Ba, nth_error_In, En. }
  destruct (H_Ok_inv _ _ Eh0) as [_ B0]. destruct (H_Ok_inv _ _ Eh1) as [_ B1].
  set (sL_0 := firstn lam (skipn 1 (skipn 1 h0))) in *.
  set (sL_1 := firstn lam (skipn 1 (skipn 1 h1))) in *.
  set (sR_0 := firstn lam (skipn 1 (skipn lam (skipn 1 (skipn 1 h0))))) in *.
  set (sR_1 := firstn lam (skipn 1 (skipn lam (skipn 1 (skipn 1 h1))))) in *.
  assert (LL0 : List.length sL_0 = lam)
    by (unfold sL_0; rewrite length_firstn, !length_skipn; lia).
  assert (LL1 : List.length sL_1 = lam)
    by (unfold sL_1; rewrite length_firstn, !length_skipn; lia).
  assert (LR0 : List.length sR_0 = lam)
    by (unfold sR_0; rewrite length_firstn, !length_skipn; lia).
  assert (LR1 : List.length sR_1 = lam)
    by (unfold sR_1; rewrite length_firstn, !length_skipn; lia).
  rewrite (xor_t_same_length sL_0 sL_1) in Hbody by lia.
  rewrite (xor_t_same_length sR_0 sR_1) in Hbody by lia.
  cbn beta iota delta [bind] in Hbody.
  destruct (add_t (mul_scalar a_i (zipx sL_0 sL_1)) (mul_scalar (1 - a_i) (zipx sR_0 sR_1)))
    as [s_rand|e] eqn:Es; [|discriminate Hbody].
  cbn beta iota delta [bind] in Hbody.
  assert (BL : Forall is_bit (zipx sL_0 sL_1)).
  { apply zipx_bits; unfold sL_0, sL_1;
      now apply Forall_firstn, Forall_skipn, Forall_skipn. }
  assert (BR : Forall is_bit (zipx sR_0 sR_1)).
  { apply zipx_bits; unfold sR_0, sR_1;
      now apply Forall_firstn, Forall_skipn, Forall_skipn, Forall_skipn, Forall_skipn. }
  assert (Hs : List.length s_rand = lam /\ Forall is_bit s_rand).
  { assert (Lx : List.length (zipx sL_0 sL_1) = List.length (zipx sR_0 sR_1))
      by (rewrite !zipx_length; lia).
    rewrite (s_rand_select a_i _ _ s_rand Bai Lx BL BR Es).
    destruct (a_i =? 1); (split; [rewrite zipx_length; lia | assumption]). }
  destruct Hs as [Ls Bs].
  rewrite (TruthTableDIF_spec s_rand a_i Bai Ls) in Hbody.
  cbn beta iota delta [bind] in Hbody.
  set (cwt := dif_table_row s_rand a_i 0 ++ dif_table_row s_rand a_i 1) in *.
  assert (Lc : List.length cwt = (2 * (lam + 2))%nat).
  { unfold cwt. rewrite length_app, !dif_table_row_length by assumption. lia. }
  rewrite (xor_t_same_length cwt h0) in Hbody by lia.
  cbn beta iota delta [bind] in Hbody.
  rewrite (xor_t_same_length (zipx cwt h0) h1) in Hbody by (rewrite zipx_length; lia).
  cbn beta iota delta [bind] in Hbody.
  set (CW_i := zipx (zipx cwt h0) h1) in *.
  assert (LCW : List.length CW_i = (2 * (lam + 2))%nat).
  { unfold CW_i. rewrite !zipx_length; rewrite ?zipx_length; lia. }
  unfold broadcast_to in Hbody at 1.
  replace (List.length CW_i =? 2 + 2 * (lam + 1))%nat with true in Hbody
    by (symmetry; apply Nat.eqb_eq; lia).
  cbn beta iota delta [bind] in Hbody.
  (* the two parties *)
  assert (Hchain : forall (h : tensor) (t : Z) (k : list tensor -> result keygen_state)
                          (st : keygen_state),
            List.length h = (2 * (lam + 2))%nat ->
            (tau <- xor_t h (mul_scalar t CW_i) ;;
             tau <- reshape2 tau (lam + 2) ;;
             row <- getrow tau a_i ;;
             q <- split row [1%nat; lam; 1%nat] ;;
             k q) = Ok st ->
            exists sg s' t',
              dif_step h t CW_i a_i = Ok (sg, s', t') /\ k [[sg]; s'; [t']] = Ok st).
  { intros h t k st Lh Hst.
    assert (Ltau : List.length (zipx h (mul_scalar t CW_i)) = (2 * (lam + 2))%nat)
      by (rewrite zipx_length; rewrite ?mul_scalar_length; lia).
    destruct (row_shape _ (row_of_length _ a_i Ltau)) as (sg & s' & t' & Hrow & Hs' & _).
    exists sg, s', t'.
    pose proof (dif_step_spec h t CW_i a_i sg s' t' Lh LCW Bai Hrow Hs') as Hd.
    split; [exact Hd|].
    unfold dif_step in Hd.
    destruct (xor_t h (mul_scalar t CW_i)) as [tau|e]; [|discriminate Hd].
    cbn beta iota delta [bind] in Hd, Hst.
    destruct (reshape2 tau (lam + 2)) as [tau2|e]; [|discriminate Hd].
    cbn beta iota delta [bind] in Hd, Hst.
    destruct (getrow tau2 a_i) as [row|e]; [|discriminate Hd].
    cbn beta iota delta [bind] in Hd, Hst.
    destruct (split row [1%nat; lam; 1%nat]) as [q|e]; [|discriminate Hd].
    cbn beta iota delta [bind] in Hd, Hst.
    destruct q as [|[|sg' [|? ?]] [|s2 [|[|t2 [|? ?]] [|? ?]]]]; try discriminate Hd.
    injection Hd as -> -> ->. exact Hst. }
  apply Hchain in Hbody; [|lia].
  destruct Hbody as (sg0 & s0' & t0' & Hd0 & Hbody).
  apply Hchain in Hbody; [|lia].
  destruct Hbody as (sg1 & s1' & t1' & Hd1 & Hbody).
  exists a_i, h0, h1, s_rand, sg0, s0', t0', sg1, s1', t1'.
  cbv zeta. fold cwt. fold CW_i.
  repeat (split; [first [assumption | reflexivity | lia]|]).
  congruence.
Qed.


Lemma dif_step_total (h : tensor) (t : Z) (CW_i : tensor) (r : Z) :
  List.length h = (2 * (lam + 2))%nat ->
  List.length CW_i = (2 * (lam + 2))%nat ->
  is_bit r ->
  exists sigma s t', dif_step h t CW_i r = Ok (sigma, s, t').
Proof.
  intros Hh Hcw Hr.
  assert (Hlen : List.length (zipx h (mul_scalar t CW_i)) = (2 * (lam + 2))%nat)
    by (rewrite zipx_length; rewrite ?mul_scalar_length; lia).
  destruct (row_shape _ (row_of_length _ r Hlen)) as (sg & s2 & t2 & Hrow & Hs2 & _).
  exists sg, s2, t2. now apply dif_step_spec.
Qed.

(** One level of [DIF.keygen] on the special path: the parties' bits stay
    different, and party 1's next seed is party 0's xored with [s_rand]. *)
Lemma DIF_keygen_level (a : tensor) (s0 s1 : tensor) (t0 t1 : Z)
    (CW : list tensor) (i : nat) (st' : keygen_state) :
  Forall is_bit a -> is_bit t0 -> is_bit t1 -> t0 + t1 = 1 ->
  DIF_keygen_body lam sha3_256 a (s0, s1, (t0, t1), CW) i = Ok st' ->
  exists (a_i : Z) (h0 h1 s_rand : tensor) (sg0 : Z) (s0' : tensor) (t0' : Z),
    let CW_i := zipx (zipx (dif_table_row s_rand a_i 0 ++ dif_table_row s_rand a_i 1) h0) h1 in
    getitem a i = Ok a_i /\ is_bit a_i /\
    H lam sha3_256 s0 = Ok h0 /\ H lam sha3_256 s1 = Ok h1 /\
    List.length h0 = (2 * (lam + 2))%nat /\ List.length h1 = (2 * (lam + 2))%nat /\
    Forall is_bit h0 /\ Forall is_bit h1 /\
    List.length s_rand = lam /\ Forall is_bit s_rand /\
    List.length CW_i = (2 * (lam + 2))%nat /\
    dif_step h0 t0 CW_i a_i = Ok (sg0, s0', t0') /\ is_bit t0' /\
    st' = (s0', zipx s_rand s0', (t0', Z.lxor 1 t0'), CW ++ [CW_i]).
Proof.
  intros Ba Bt0 Bt1 Hsum Hbody.
  destruct (DIF_keygen_body_inv a s0 s1 t0 t1 CW i st' Ba Bt0 Bt1 Hbody)
    as (a_i & h0 & h1 & s_rand & sg0 & s0' & t0' & sg1 & s1' & t1' & Hall).
  cbv zeta in Hall.
  destruct Hall as (Ea & Bai & Eh0 & Eh1 & L0 & L1 & B0 & B1 & Ls & Bs & Hd0 & Hd1 & ->).
  exists a_i, h0, h1, s_rand, sg0, s0', t0'. cbv zeta.
  pose proof (dif_level a_i h0 h1 s_rand t0 t1 a_i sg0 s0' t0'
                Bai Bai L0 L1 B0 B1 Ls Bs Bt0 Bt1 Hsum Hd0) as (Bsg0 & Bt0' & Hd1').
  rewrite Z.eqb_refl in Hd1'. cbv zeta in Hd1'. rewrite Hd1 in Hd1'.
  injection Hd1' as -> -> ->.
  repeat (split; [first [assumption | reflexivity]|]).
  split; [|repeat (split; [first [assumption | reflexivity]|]); reflexivity].
  assert (Lc : List.length (dif_table_row s_rand a_i 0 ++ dif_table_row s_rand a_i 1)
               = (2 * (lam + 2))%nat)
    by (rewrite length_app, !dif_table_row_length by assumption; lia).
  assert (Lc0 : List.length
                  (zipx (dif_table_row s_rand a_i 0 ++ dif_table_row s_rand a_i 1) h0)
                = (2 * (lam + 2))%nat)
    by (rewrite zipx_length; lia).
  rewrite zipx_length; lia.
Qed.

Lemma is_bit_flip (t : Z) : is_bit t -> is_bit (Z.lxor 1 t) /\ t + Z.lxor 1 t = 1.
Proof. intros [-> | ->]; cbv; auto. Qed.

(** [DIF.keygen] appends one correction word per level. *)
Lemma DIF_keygen_loop_prefix (a : tensor) (k : nat) :
  forall (i : nat) (s0 s1 : tensor) (t0 t1 : Z) (CW : list tensor)
         (sf0 sf1 : tensor) (tf : Z * Z) (CWf : list tensor),
  Forall is_bit a -> is_bit t0 -> is_bit t1 -> t0 + t1 = 1 ->
  for_range (seq i k) (DIF_keygen_body lam sha3_256 a) (s0, s1, (t0, t1), CW)
  = Ok (sf0, sf1, tf, CWf) ->
  exists rest, CWf = CW ++ rest /\ List.length rest = k.
Proof.
  induction k as [|k IH]; intros i s0 s1 t0 t1 CW sf0 sf1 tf CWf Ba Bt0 Bt1 Hsum Hloop.
  - cbn in Hloop. injection Hloop as <- <- <- <-. exists []. now rewrite app_nil_r.
  - cbn [seq for_range] in Hloop.
    destruct (DIF_keygen_body lam sha3_256 a (s0, s1, (t0, t1), CW) i) as [st'|e] eqn:Ebody;
      [|discriminate Hloop].
    cbn beta iota delta [bind] in Hloop.
    destruct (DIF_keygen_level a s0 s1 t0 t1 CW i st' Ba Bt0 Bt1 Hsum Ebody)
      as (a_i & h0 & h1 & s_rand & sg0 & s0' & t0' & Hall).
    cbv zeta in Hall.
    destruct Hall as (_ & _ & _ & _ & _ & _ & _ & _ & _ & _ & _ & _ & Bt0' & ->).
    destruct (is_bit_flip t0' Bt0') as [Bt1' Hsum'].
    destruct (IH _ _ _ _ _ _ _ _ _ _ Ba Bt0' Bt1' Hsum' Hloop) as (rest & -> & Hlen).
    eexists. rewrite <- app_assoc. split; [reflexivity|]. cbn [List.length app]. lia.
Qed.

Lemma getitem_skipn {A : Type} (l : list A) (i : nat) :
  (i < List.length l)%nat ->
  exists z, getitem l i = Ok z /\ skipn i l = z :: skipn (S i) l.
Proof.
  revert i. induction l as [|y l IH]; intros i Hi; [cbn in Hi; lia|].
  destruct i as [|i].
  - exists y. split; reflexivity.
  - cbn [List.length] in Hi. destruct (IH i ltac:(lia)) as (z & Hz & Hsk).
    exists z. split; [exact Hz|]. exact Hsk.
Qed.

Lemma getitem_bit (l : list Z) (i : nat) (z : Z) :
  Forall is_bit l -> getitem l i = Ok z -> is_bit z.
Proof.
  intros Hl Hz. unfold getitem in Hz.
  destruct (nth_error l i) as [y|] eqn:En; [|discriminate Hz].
  injection Hz as <-. rewrite Forall_forall in Hl. eapply Hl, nth_error_In, En.
Qed.

Lemma mod2_eq (l r q : Z) : l = r + 2 * q -> l mod 2 = r mod 2.
Proof. intros ->. rewrite Z.mul_comm. apply Z_mod_plus_full. Qed.

(** The walk of the two parties down the levels [i .. i + k - 1], against
    the walk of [keygen]: the two outputs differ, modulo 2, by the
    comparison of the remaining bits of [x] and [alpha]. *)
Lemma DIF_loop (a x : tensor) (k : nat) :
  forall (i : nat) (s0 s1 : tensor) (t0 t1 : Z) (CW : list tensor)
         (sf0 sf1 : tensor) (tf : Z * Z) (CWf : list tensor)
         (out0 out1 : list Z) (e0 e1 : tensor) (u0 u1 : Z) (o0 o1 : list Z),
  Forall is_bit a -> Forall is_bit x ->
  List.length a = (i + k)%nat -> List.length x = (i + k)%nat ->
  List.length CW = i ->
  is_bit t0 -> is_bit t1 -> t0 + t1 = 1 ->
  for_range (seq i k) (DIF_keygen_body lam sha3_256 a) (s0, s1, (t0, t1), CW)
  = Ok (sf0, sf1, tf, CWf) ->
  for_range (seq i k) (DIF_eval_body lam sha3_256 x CWf) (s0, t0, out0) = Ok (e0, u0, o0) ->
  for_range (seq i k) (DIF_eval_body lam sha3_256 x CWf) (s1, t1, out1) = Ok (e1, u1, o1) ->
  (sumZ (o0 ++ [u0]) + sumZ (o1 ++ [u1])) mod 2
  = (sumZ out0 + sumZ out1 + (if lex_le (skipn i x) (skipn i a) then 1 else 0)) mod 2.
Proof.
  induction k as [|k IH];
    intros i s0 s1 t0 t1 CW sf0 sf1 tf CWf out0 out1 e0 e1 u0 u1 o0 o1
           Ba Bx La Lx LCW Bt0 Bt1 Hsum Hkey Hev0 Hev1.
  - cbn in Hev0, Hev1. injection Hev0 as <- <- <-. injection Hev1 as <- <- <-.
    rewrite skipn_all2 by lia. cbn [lex_le].
    rewrite !sumZ_app, !sumZ_one. f_equal. lia.
  - pose proof Hkey as Hkey0. cbn [seq for_range] in Hkey, Hev0, Hev1.
    destruct (DIF_keygen_body lam sha3_256 a (s0, s1, (t0, t1), CW) i) as [st'|e] eqn:Ebody;
      [|discriminate Hkey].
    cbn beta iota delta [bind] in Hkey.
    destruct (DIF_keygen_level a s0 s1 t0 t1 CW i st' Ba Bt0 Bt1 Hsum Ebody)
      as (a_i & h0 & h1 & s_rand & sg0 & s0' & t0' & Hall).
    cbv zeta in Hall.
    destruct Hall as (Ea & Bai & Eh0 & Eh1 & L0 & L1 & B0 & B1 & Ls & Bs & LCWi
                      & Hd0 & Bt0' & ->).
    set (CW_i := zipx (zipx (dif_table_row s_rand a_i 0 ++ dif_table_row s_rand a_i 1) h0) h1)
      in *.
    destruct (is_bit_flip t0' Bt0') as [Bt1' Hsum'].
    destruct (DIF_keygen_loop_prefix a k _ _ _ _ _ _ _ _ _ _ Ba Bt0' Bt1' Hsum' Hkey)
      as (rest & HCWf & _).
    assert (ECW : getitem CWf i = Ok CW_i).
    { rewrite HCWf, <- app_assoc. unfold getitem.
      rewrite nth_error_app2 by lia. rewrite LCW, Nat.sub_diag. reflexivity. }
    destruct (getitem_skipn x i ltac:(lia)) as (x_i & Ex & Hskx).
    destruct (getitem_skipn a i ltac:(lia)) as (a_i' & Ea' & Hska).
    assert (a_i' = a_i) by congruence. subst a_i'.
    pose proof (getitem_bit x i x_i Bx Ex) as Bxi.
    rewrite Hskx, Hska. cbn [lex_le].
    destruct (dif_step_total h0 t0 CW_i x_i L0 LCWi Bxi) as (sg & s0x & t0x & Hstep0).
    pose proof (dif_level a_i h0 h1 s_rand t0 t1 x_i sg s0x t0x
                  Bai Bxi L0 L1 B0 B1 Ls Bs Bt0 Bt1 Hsum Hstep0) as (Bsg & Bt0x & Hstep1).
    fold CW_i in Hstep1.
    rewrite (DIF_eval_body_step x CWf s0 t0 out0 i h0 CW_i x_i sg s0x t0x
               Eh0 ECW Ex Hstep0) in Hev0.
    cbn beta iota delta [bind] in Hev0.
    destruct (Z.eqb_spec x_i a_i) as [Heq|Hne].
    + (* the path of x stays on the path of alpha *)
      subst x_i. rewrite Hd0 in Hstep0. injection Hstep0 as <- <- <-.
      rewrite (DIF_eval_body_step x CWf s1 t1 out1 i h1 CW_i a_i _ _ _
                 Eh1 ECW Ex Hstep1) in Hev1.
      cbn beta iota delta [bind] in Hev1.
      assert (La' : List.length a = (S i + k)%nat) by lia.
      assert (Lx' : List.length x = (S i + k)%nat) by lia.
      assert (LCW' : List.length (CW ++ [CW_i]) = S i)
        by (rewrite length_app; cbn [List.length]; lia).
      rewrite (IH (S i) _ _ _ _ _ _ _ _ _ _ _ _ _ _ _ _ _ Ba Bx La' Lx' LCW'
                 Bt0' Bt1' Hsum' Hkey Hev0 Hev1).
      rewrite !sumZ_app, !sumZ_one.
      apply (mod2_eq _ _ sg0). ring.
    + (* the path of x leaves the path of alpha *)
      rewrite (DIF_eval_body_step x CWf s1 t1 out1 i h1 CW_i x_i _ _ _
                 Eh1 ECW Ex Hstep1) in Hev1.
      cbn beta iota delta [bind] in Hev1.
      rewrite DIF_eval_loop_out in Hev0. rewrite DIF_eval_loop_out in Hev1.
      unfold eval_state in *.
      match type of Hev0 with
      | context [@for_range ?S ?l ?b ?st] =>
          destruct (@for_range S l b st) as [[[sF tF] d]|e] eqn:Eloop;
            [|discriminate Hev0]
      end.
      injection Hev0 as <- <- <-. injection Hev1 as <- <- <-.
      rewrite !sumZ_app, !sumZ_one.
      destruct Bai as [-> | ->], Bsg as [-> | ->]; cbn [Z.eqb Pos.eqb Z.lxor Pos.lxor].
      * apply (mod2_eq _ _ (sumZ d + tF)). ring.
      * apply (mod2_eq _ _ (sumZ d + tF + 1)). ring.
      * apply (mod2_eq _ _ (sumZ d + tF)). ring.
      * apply (mod2_eq _ _ (sumZ d + tF)). ring.
Qed.

Lemma broadcast_to_length (w : nat) (x y : tensor) :
  broadcast_to w x = Ok y -> List.length y = w.
Proof.
  unfold broadcast_to. destruct (List.length x =? w)%nat eqn:E.
  - intros Hy. injection Hy as <-. now apply Nat.eqb_eq.
  - destruct x as [|c [|? ?]]; try discriminate.
    intros Hy. injection Hy as <-. apply repeat_length.
Qed.

Lemma broadcast_to_same (w : nat) (x : tensor) :
  List.length x = w -> broadcast_to w x = Ok x.
Proof.
  intros Hlen. unfold broadcast_to. now rewrite Hlen, Nat.eqb_refl.
Qed.

(** The two evaluations of a key pair of [DIF.keygen] are xor shares of the
    comparison with the hidden threshold. *)
Lemma DIF_xor_shares (alpha : Z) (r0 r1 : tensor) (alpha' : Z) (s00 s01 : tensor)
    (CW : list tensor) (x v0 v1 : Z) :
  (n <= 63)%nat ->
  0 <= alpha < 2 ^ Z.of_nat n ->
  0 <= x < 2 ^ Z.of_nat n ->
  DIF_keygen lam n sha3_256 alpha r0 r1 = Ok (alpha', s00, s01, CW) ->
  DIF_eval lam n sha3_256 0 x (s00, CW) = Ok v0 ->
  DIF_eval lam n sha3_256 1 x (s01, CW) = Ok v1 ->
  alpha' = alpha /\ Z.lxor v0 v1 = (if x <=? alpha then 1 else 0).
Proof.
  intros Hn Ha Hx Hkey Hev0 Hev1.
  unfold DIF_keygen in Hkey.
  destruct (broadcast_to lam (map wrap8 r0)) as [s00'|e] eqn:E0; [|discriminate Hkey].
  destruct (broadcast_to lam (map wrap8 r1)) as [s01'|e] eqn:E1; [|discriminate Hkey].
  cbn beta iota delta [bind] in Hkey.
  destruct (for_range (seq 0 n) (DIF_keygen_body lam sha3_256 (bit_decomposition n alpha))
              (s00', s01', (0, 1), [])) as [[[[sf0 sf1] tf] CWf]|e] eqn:Eloop;
    [|discriminate Hkey].
  cbn beta iota delta [bind] in Hkey. injection Hkey as <- <- <- <-.
  split; [reflexivity|].
  apply broadcast_to_length in E0, E1.
  unfold DIF_eval in Hev0, Hev1.
  rewrite (broadcast_to_same lam s00' E0) in Hev0.
  rewrite (broadcast_to_same lam s01' E1) in Hev1.
  cbn beta iota delta [bind] in Hev0, Hev1.
  change (wrap8 0) with 0 in Hev0. change (wrap8 1) with 1 in Hev1.
  destruct (for_range (seq 0 n) (DIF_eval_body lam sha3_256 (bit_decomposition n x) CWf)
              (s00', 0, [])) as [[[e0 u0] o0]|e] eqn:Ev0; [|discriminate Hev0].
  destruct (for_range (seq 0 n) (DIF_eval_body lam sha3_256 (bit_decomposition n x) CWf)
              (s01', 1, [])) as [[[e1 u1] o1]|e] eqn:Ev1; [|discriminate Hev1].
  cbn beta iota delta [bind] in Hev0, Hev1.
  injection Hev0 as <-. injection Hev1 as <-.
  fold (sumZ (o0 ++ [u0])). fold (sumZ (o1 ++ [u1])).
  rewrite lxor_mod2.
  rewrite (DIF_loop (bit_decomposition n alpha) (bit_decomposition n x) n 0
             s00' s01' 0 1 [] sf0 sf1 tf CWf [] [] e0 e1 u0 u1 o0 o1
             (bit_decomposition_bits n alpha) (bit_decomposition_bits n x)
             (bit_decomposition_length n alpha) (bit_decomposition_length n x)
             eq_refl (or_introl eq_refl) (or_intror eq_refl) eq_refl Eloop Ev0 Ev1).
  cbn [skipn]. rewrite bit_decomposition_le by assumption.
  destruct (x <=? alpha); reflexivity.
Qed.

(** A hash is wide on the seeds when no digest has leading zero bits among
    the 2(λ+2) bits [H] reads; then [H] returns 2(λ+2) entries. *)
Definition wide_hash : Prop :=
  forall seed : tensor,
    List.length seed = lam ->
    2 ^ Z.of_nat (2 + 2 * (lam + 1) - 1)
    <= int_from_bytes_big (digest_of sha3_256 seed).

Lemma size_nat_lower (p : positive) : forall k : nat,
  2 ^ Z.of_nat k <= Z.pos p -> (k < Pos.size_nat p)%nat.
Proof.
  induction p as [p IH|p IH|]; intros k Hk; cbn [Pos.size_nat].
  - destruct k as [|k]; [lia|].
    rewrite Nat2Z.inj_succ, Z.pow_succ_r in Hk by lia.
    specialize (IH k). lia.
  - destruct k as [|k]; [lia|].
    rewrite Nat2Z.inj_succ, Z.pow_succ_r in Hk by lia.
    specialize (IH k). lia.
  - destruct k as [|k]; [lia|].
    rewrite Nat2Z.inj_succ, Z.pow_succ_r in Hk by lia.
    pose proof (Z.pow_pos_nonneg 2 (Z.of_nat k) ltac:(lia) ltac:(lia)). lia.
Qed.

Lemma H_wide (s : tensor) :
  wide_hash -> List.length s = lam ->
  exists h, H lam sha3_256 s = Ok h /\ List.length h = (2 * (lam + 2))%nat.
Proof.
  intros Hw Hlen. rewrite H_sig_bits by assumption.
  eexists. split; [reflexivity|].
  rewrite length_firstn. specialize (Hw s Hlen).
  destruct (int_from_bytes_big (digest_of sha3_256 s)) as [|p|p].
  - pose proof (Z.pow_pos_nonneg 2 (Z.of_nat (2 + 2 * (lam + 1) - 1)) ltac:(lia) ltac:(lia)).
    lia.
  - cbn [sig_bits]. rewrite pos_bits_length. cbn [List.length].
    pose proof (size_nat_lower p _ Hw). lia.
  - pose proof (Z.pow_pos_nonneg 2 (Z.of_nat (2 + 2 * (lam + 1) - 1)) ltac:(lia) ltac:(lia)).
    lia.
Qed.

(** With a wide hash [DIF.eval] returns on every input, for a key of the
    shape [DIF.keygen] produces: a seed of λ entries and n correction words
    of 2(λ+2) entries. *)
Lemma DIF_eval_loop_returns (x : tensor) (CW : list tensor) (k : nat) :
  forall (i : nat) (s : tensor) (t : Z) (out : list Z),
  wide_hash ->
  Forall is_bit x -> (i + k <= List.length x)%nat ->
  (i + k <= List.length CW)%nat ->
  Forall (fun c => List.length c = (2 * (lam + 2))%nat) CW ->
  List.length s = lam ->
  exists s' t' out',
    for_range (seq i k) (DIF_eval_body lam sha3_256 x CW) (s, t, out) = Ok (s', t', out').
Proof.
  induction k as [|k IH]; intros i s t out Hw Bx Lx LCW HCW Ls.
  - exists s, t, out. reflexivity.
  - cbn [seq for_range].
    destruct (H_wide s Hw Ls) as (h & Eh & Lh).
    destruct (getitem_skipn x i ltac:(lia)) as (x_i & Ex & _).
    destruct (getitem_skipn CW i ltac:(lia)) as (CW_i & ECW & _).
    assert (LCWi : List.length CW_i = (2 * (lam + 2))%nat).
    { unfold getitem in ECW. destruct (nth_error CW i) as [c|] eqn:En; [|discriminate ECW].
      injection ECW as <-. rewrite Forall_forall in HCW. eapply HCW, nth_error_In, En. }
    destruct (dif_step_total h t CW_i x_i Lh LCWi (getitem_bit x i x_i Bx Ex))
      as (sg & s' & t' & Hstep).
    rewrite (DIF_eval_body_step x CW s t out i h CW_i x_i sg s' t' Eh ECW Ex Hstep).
    cbn beta iota delta [bind].
    apply IH; try assumption; try lia.
    apply (dif_step_inv h t CW_i x_i sg s' t' Lh LCWi (getitem_bit x i x_i Bx Ex) Hstep).
Qed.

Lemma DIF_eval_returns (b x : Z) (s_0 : tensor) (CW : list tensor) :
  wide_hash ->
  List.length s_0 = lam -> List.length CW = n ->
  Forall (fun c => List.length c = (2 * (lam + 2))%nat) CW ->
  exists v, DIF_eval lam n sha3_256 b x (s_0, CW) = Ok v.
Proof.
  intros Hw Ls LCW HCW. unfold DIF_eval.
  rewrite (broadcast_to_same lam s_0 Ls). cbn beta iota delta [bind].
  destruct (DIF_eval_loop_returns (bit_decomposition n x) CW n 0 s_0 (wrap8 b) [] Hw
              (bit_decomposition_bits n x)
              ltac:(rewrite bit_decomposition_length; lia) ltac:(lia) HCW Ls)
    as (s' & t' & out' & ->).
  cbn beta iota delta [bind]. eexists. reflexivity.
Qed.

End DIF_correctness.

(** X1.  Partial correctness of the DIF.  For a hidden threshold alpha in
    [0, M), M = 2^n, and a key pair that [DIF.keygen] returns for it,
    whenever the evaluations of the two parties at an x in [0, M) both
    return, they are xor shares of the interval indicator: their xor is 1 if
    x <= alpha and 0 otherwise.  This holds for every hash function in place
    of SHA3-256, every λ and every n <= 63.  That they return is a
    hypothesis: [H] gives a short output on a digest with leading zero bits,
    and the evaluation then raises. *)
Theorem DIF_correct :
  forall (lam n : nat) (sha3_256 : list byte -> list byte)
         (alpha : Z) (r0 r1 : tensor) (alpha' : Z) (s00 s01 : tensor)
         (CW : list tensor) (x v0 v1 : Z),
    (n <= 63)%nat ->
    0 <= alpha < 2 ^ Z.of_nat n ->
    0 <= x < 2 ^ Z.of_nat n ->
    DIF_keygen lam n sha3_256 alpha r0 r1 = Ok (alpha', s00, s01, CW) ->
    DIF_eval lam n sha3_256 0 x (s00, CW) = Ok v0 ->
    DIF_eval lam n sha3_256 1 x (s01, CW) = Ok v1 ->
    Z.lxor v0 v1 = (if x <=? alpha then 1 else 0).
Proof.
  intros lam n sha3_256 alpha r0 r1 alpha' s00 s01 CW x v0 v1 Hn Ha Hx Hkey Hev0 Hev1.
  apply (DIF_xor_shares lam n sha3_256 alpha r0 r1 alpha' s00 s01 CW x v0 v1
           Hn Ha Hx Hkey Hev0 Hev1).
Qed.

(* ------------------------------------------------------------------ *)
(** ** The distributed point function, modulo 2^8 *)

Section DPF_correctness.

Variable lam : nat.
Variable n : nat.
Variable sha3_256 : list byte -> list byte.

(** One party's step at one level: the row [r] of [G(s) ^ (t * CW_i)],
    split into next seed and next bit. *)
Definition dpf_step (g : tensor) (t : Z) (CW_i : tensor) (r : Z)
    : result (tensor * Z) :=
  tau <- xor_t g (mul_scalar t CW_i) ;;
  tau <- reshape2 tau (lam + 1) ;;
  row <- getrow tau r ;;
  q <- split row [lam; 1%nat] ;;
  match q with
  | [s'; [t']] => Ok (s', t')
  | _ => Raise ValueError
  end.

(** The two rows of the truth table of [TruthTableDPF s a_i]. *)
Definition dpf_table_row (s : tensor) (a_i : Z) (r : Z) : tensor :=
  if r =? a_i then s ++ [1] else repeat 0 (lam + 1).

Definition dpf_row_of (tau : tensor) (r : Z) : tensor :=
  if r =? 0 then firstn (lam + 1) tau else skipn (lam + 1) tau.

Lemma G_Ok_inv (s g : tensor) :
  G lam sha3_256 s = Ok g -> List.length s = lam /\ Forall is_bit g.
Proof.
  intros Hg.
  destruct (Nat.eq_dec (List.length s) lam) as [Hlen|Hlen].
  - split; [assumption|].
    rewrite G_sig_bits in Hg by assumption.
    assert (Heq : firstn (2 * (lam + 1))
                    (sig_bits (int_from_bytes_big (digest_of sha3_256 s))) = g)
      by congruence.
    rewrite <- Heq. apply Forall_firstn, sig_bits_bits.
  - rewrite G_wrong_length in Hg by assumption. discriminate Hg.
Qed.

Lemma dpf_row_shape (row : tensor) :
  List.length row = (lam + 1)%nat ->
  exists s t,
    row = s ++ [t] /\ List.length s = lam /\
    chunks row [lam; 1%nat] = [s; [t]].
Proof.
  intros Hlen.
  pose proof (firstn_skipn lam row) as Hsplit.
  assert (Hlast : List.length (skipn lam row) = 1%nat) by (rewrite length_skipn; lia).
  destruct (skipn lam row) as [|t [|t' l]] eqn:Hsk; try discriminate Hlast.
  exists (firstn lam row), t.
  split; [now rewrite Hsplit|]. split; [rewrite length_firstn; lia|].
  cbn [chunks firstn skipn]. rewrite Hsk. reflexivity.
Qed.

Lemma dpf_chunks_row (s : tensor) (t : Z) :
  List.length s = lam -> chunks (s ++ [t]) [lam; 1%nat] = [s; [t]].
Proof.
  intros Hlen. cbn [chunks].
  rewrite firstn_app, skipn_app, Hlen, Nat.sub_diag.
  rewrite firstn_all2, skipn_all2 by lia. cbn. now rewrite app_nil_r.
Qed.

Lemma dpf_row_of_length (tau : tensor) (r : Z) :
  List.length tau = (2 * (lam + 1))%nat ->
  List.length (dpf_row_of tau r) = (lam + 1)%nat.
Proof.
  intros Hlen. unfold dpf_row_of. destruct (r =? 0).
  - rewrite length_firstn. lia.
  - rewrite length_skipn. lia.
Qed.

Lemma dpf_row_of_zipx (a b : tensor) (r : Z) :
  dpf_row_of (zipx a b) r = zipx (dpf_row_of a r) (dpf_row_of b r).
Proof.
  unfold dpf_row_of. destruct (r =? 0); [apply zipx_firstn | apply zipx_skipn].
Qed.

Lemma dpf_row_of_app (r0 r1 : tensor) (r : Z) :
  List.length r0 = (lam + 1)%nat ->
  dpf_row_of (r0 ++ r1) r = if r =? 0 then r0 else r1.
Proof.
  intros Hlen. unfold dpf_row_of. destruct (r =? 0).
  - rewrite firstn_app, firstn_all2 by lia.
    replace (lam + 1 - List.length r0)%nat with 0%nat by lia.
    cbn. apply app_nil_r.
  - rewrite skipn_app, skipn_all2 by lia.
    replace (lam + 1 - List.length r0)%nat with 0%nat by lia. reflexivity.
Qed.

Lemma dpf_row_of_bits (tau : tensor) (r : Z) :
  Forall is_bit tau -> Forall is_bit (dpf_row_of tau r).
Proof.
  intros Ht. unfold dpf_row_of. destruct (r =? 0);
    [now apply Forall_firstn | now apply Forall_skipn].
Qed.

Lemma dpf_step_spec (g : tensor) (t : Z) (CW_i : tensor) (r : Z)
    (s : tensor) (t' : Z) :
  List.length g = (2 * (lam + 1))%nat ->
  List.length CW_i = (2 * (lam + 1))%nat ->
  is_bit r ->
  dpf_row_of (zipx g (mul_scalar t CW_i)) r = s ++ [t'] ->
  List.length s = lam ->
  dpf_step g t CW_i r = Ok (s, t').
Proof.
  intros Hg Hcw Hr Hrow Hs. unfold dpf_step.
  rewrite xor_t_same_length by (rewrite mul_scalar_length; lia).
  cbn beta iota delta [bind].
  unfold reshape2.
  rewrite zipx_length by (rewrite mul_scalar_length; lia).
  rewrite Hg, Nat.eqb_refl. cbn beta iota delta [bind].
  assert (Hget : getrow (firstn (lam + 1) (zipx g (mul_scalar t CW_i)),
                         skipn (lam + 1) (zipx g (mul_scalar t CW_i))) r
                 = Ok (s ++ [t'])).
  { rewrite <- Hrow. unfold dpf_row_of. destruct Hr as [-> | ->]; reflexivity. }
  rewrite Hget. cbn beta iota delta [bind].
  rewrite split_same_length
    by (unfold list_sum; cbn [fold_right]; rewrite length_app;
        cbn [List.length]; lia).
  cbn beta iota delta [bind]. now rewrite dpf_chunks_row.
Qed.

Lemma dpf_step_total (g : tensor) (t : Z) (CW_i : tensor) (r : Z) :
  List.length g = (2 * (lam + 1))%nat ->
  List.length CW_i = (2 * (lam + 1))%nat ->
  is_bit r ->
  exists s t', dpf_step g t CW_i r = Ok (s, t').
Proof.
  intros Hg Hcw Hr.
  assert (Hlen : List.length (zipx g (mul_scalar t CW_i)) = (2 * (lam + 1))%nat)
    by (rewrite zipx_length; rewrite ?mul_scalar_length; lia).
  destruct (dpf_row_shape _ (dpf_row_of_length _ r Hlen)) as (s2 & t2 & Hrow & Hs2 & _).
  exists s2, t2. now apply dpf_step_spec.
Qed.

Lemma dpf_step_inv (g : tensor) (t : Z) (CW_i : tensor) (r : Z)
    (s : tensor) (t' : Z) :
  List.length g = (2 * (lam + 1))%nat ->
  List.length CW_i = (2 * (lam + 1))%nat ->
  is_bit r ->
  dpf_step g t CW_i r = Ok (s, t') ->
  dpf_row_of (zipx g (mul_scalar t CW_i)) r = s ++ [t'] /\ List.length s = lam.
Proof.
  intros Hg Hcw Hr Hstep.
  assert (Hlen : List.length (zipx g (mul_scalar t CW_i)) = (2 * (lam + 1))%nat)
    by (rewrite zipx_length; rewrite ?mul_scalar_length; lia).
  destruct (dpf_row_shape _ (dpf_row_of_length _ r Hlen)) as (s2 & t2 & Hrow & Hs2 & _).
  rewrite (dpf_step_spec g t CW_i r s2 t2 Hg Hcw Hr Hrow Hs2) in Hstep.
  injection Hstep as <- <-. now split.
Qed.

Lemma TruthTableDPF_spec (s : tensor) (a_i : Z) :
  is_bit a_i -> List.length s = lam ->
  TruthTableDPF lam s a_i = Ok (dpf_table_row s a_i 0 ++ dpf_table_row s a_i 1).
Proof.
  intros Ha Hs. unfold TruthTableDPF, setrow, zeros2, concat, dpf_table_row.
  assert (Hb : broadcast_to (lam + 1) (s ++ [1]) = Ok (s ++ [1])).
  { unfold broadcast_to. rewrite length_app, Hs. cbn [List.length].
    now rewrite Nat.eqb_refl. }
  destruct Ha as [-> | ->]; cbn [row_index Z.eqb orb bind fst snd];
    rewrite repeat_length, Hb; reflexivity.
Qed.

Lemma dpf_table_row_length (s : tensor) (a_i r : Z) :
  List.length s = lam -> List.length (dpf_table_row s a_i r) = (lam + 1)%nat.
Proof.
  intros Hs. unfold dpf_table_row. destruct (r =? a_i).
  - rewrite length_app, Hs. reflexivity.
  - apply repeat_length.
Qed.

Lemma dpf_table_row_bits (s : tensor) (a_i r : Z) :
  Forall is_bit s -> Forall is_bit (dpf_table_row s a_i r).
Proof.
  intros Hs. unfold dpf_table_row. destruct (r =? a_i).
  - apply Forall_app. split; [assumption|]. constructor; [now right | constructor].
  - apply Forall_forall. intros z Hz. apply repeat_spec in Hz. now left.
Qed.

(** What one level does to the two parties: on the row of [alpha] their
    bits differ and their seeds differ by [s_rand]; on the other row they
    leave with one state. *)
Lemma dpf_level (a_i : Z) (g0 g1 s_rand : tensor) (t0 t1 : Z) (r : Z)
    (s0' : tensor) (t0' : Z) :
  let CW_i := zipx (zipx (dpf_table_row s_rand a_i 0 ++ dpf_table_row s_rand a_i 1) g0) g1 in
  is_bit a_i -> is_bit r ->
  List.length g0 = (2 * (lam + 1))%nat -> List.length g1 = (2 * (lam + 1))%nat ->
  Forall is_bit g0 -> Forall is_bit g1 ->
  List.length s_rand = lam -> Forall is_bit s_rand ->
  is_bit t0 -> is_bit t1 -> t0 + t1 = 1 ->
  dpf_step g0 t0 CW_i r = Ok (s0', t0') ->
  is_bit t0' /\
  if r =? a_i
  then dpf_step g1 t1 CW_i r = Ok (zipx s_rand s0', Z.lxor 1 t0')
  else dpf_step g1 t1 CW_i r = Ok (s0', t0').
Proof.
  intros CW_i Ha Hr L0 L1 B0 B1 Ls Bs Ht0 Ht1 Hsum Hstep.
  set (cwt := dpf_table_row s_rand a_i 0 ++ dpf_table_row s_rand a_i 1) in *.
  assert (Lc : List.length cwt = (2 * (lam + 1))%nat).
  { unfold cwt. rewrite length_app, !dpf_table_row_length by assumption. lia. }
  assert (Bc : Forall is_bit cwt).
  { unfold cwt. apply Forall_app. split; now apply dpf_table_row_bits. }
  assert (Lc0 : List.length (zipx cwt g0) = (2 * (lam + 1))%nat)
    by (rewrite zipx_length; lia).
  assert (LCW : List.length CW_i = (2 * (lam + 1))%nat)
    by (unfold CW_i; rewrite zipx_length; lia).
  assert (BCW : Forall is_bit CW_i).
  { unfold CW_i. apply zipx_bits; [apply zipx_bits|]; assumption. }
  destruct (dpf_step_inv _ _ _ _ _ _ L0 LCW Hr Hstep) as [Hrow0 Hs0'].
  pose proof (dpf_row_of_bits _ r (tau_bits g0 CW_i t0 B0 BCW Ht0)) as Brow0.
  rewrite Hrow0 in Brow0.
  apply Forall_app in Brow0. destruct Brow0 as [_ Bt0'].
  inversion Bt0' as [|? ? Bt0'' _]; subst.
  split; [assumption|].
  assert (Hrow1 : dpf_row_of (zipx g1 (mul_scalar t1 CW_i)) r
                  = zipx (dpf_table_row s_rand a_i r) (s0' ++ [t0'])).
  { unfold CW_i. rewrite (tau_pair cwt g0 g1 t0 t1) by (auto; lia).
    fold CW_i. rewrite dpf_row_of_zipx, Hrow0. f_equal.
    unfold cwt. rewrite dpf_row_of_app by now apply dpf_table_row_length.
    destruct Hr as [-> | ->]; reflexivity. }
  unfold dpf_table_row in Hrow1.
  destruct (r =? a_i).
  - apply dpf_step_spec; try assumption.
    + rewrite Hrow1. rewrite zipx_app by lia. reflexivity.
    + rewrite zipx_length; lia.
  - apply dpf_step_spec; try assumption.
    rewrite Hrow1, repeat_app.
    rewrite zipx_app by (rewrite repeat_length; lia).
    rewrite zipx_zeros by assumption.
    cbn [repeat zipx map combine fst snd]. now rewrite Z.lxor_0_l.
Qed.

Lemma DPF_eval_body_step (x : tensor) (CW : list tensor) (s : tensor) (t : Z)
    (i : nat) (g CW_i : tensor) (x_i : Z) (s' : tensor) (t' : Z) :
  G lam sha3_256 s = Ok g ->
  getitem CW i = Ok CW_i ->
  getitem x i = Ok x_i ->
  dpf_step g t CW_i x_i = Ok (s', t') ->
  DPF_eval_body lam sha3_256 x CW (s, t) i = Ok (s', t').
Proof.
  intros Hg Hcw Hx Hstep. unfold DPF_eval_body. rewrite Hg, Hcw.
  cbn beta iota delta [bind]. unfold dpf_step in Hstep.
  destruct (xor_t g (mul_scalar t CW_i)) as [tau|e]; [|discriminate Hstep].
  cbn beta iota delta [bind] in Hstep |- *.
  destruct (reshape2 tau (lam + 1)) as [tau2|e]; [|discriminate Hstep].
  cbn beta iota delta [bind] in Hstep |- *. rewrite Hx.
  cbn beta iota delta [bind].
  destruct (getrow tau2 x_i) as [row|e]; [|discriminate Hstep].
  cbn beta iota delta [bind] in Hstep |- *.
  destruct (split row [lam; 1%nat]) as [q|e]; [|discriminate Hstep].
  cbn beta iota delta [bind] in Hstep |- *.
  exact Hstep.
Qed.

Lemma DPF_keygen_level (a : tensor) (s0 s1 : tensor) (t0 t1 : Z)
    (CW : list tensor) (i : nat) (st' : keygen_state) :
  Forall is_bit a -> is_bit t0 -> is_bit t1 -> t0 + t1 = 1 ->
  DPF_keygen_body lam sha3_256 a (s0, s1, (t0, t1), CW) i = Ok st' ->
  exists (a_i : Z) (g0 g1 s_rand : tensor) (s0' : tensor) (t0' : Z),
    let CW_i := zipx (zipx (dpf_table_row s_rand a_i 0 ++ dpf_table_row s_rand a_i 1) g0) g1 in
    getitem a i = Ok a_i /\ is_bit a_i /\
    G lam sha3_256 s0 = Ok g0 /\ G lam sha3_256 s1 = Ok g1 /\
    List.length g0 = (2 * (lam + 1))%nat /\ List.length g1 = (2 * (lam + 1))%nat /\
    Forall is_bit g0 /\ Forall is_bit g1 /\
    List.length s_rand = lam /\ Forall is_bit s_rand /\
    List.length CW_i = (2 * (lam + 1))%nat /\
    dpf_step g0 t0 CW_i a_i = Ok (s0', t0') /\ is_bit t0' /\
    st' = (s0', zipx s_rand s0', (t0', Z.lxor 1 t0'), CW ++ [CW_i]).
Proof.
  intros Ba Bt0 Bt1 Hsum Hbody. unfold DPF_keygen_body in Hbody.
  destruct (G lam sha3_256 s0) as [g0|e] eqn:Eg0; [|discriminate Hbody].
  destruct (G lam sha3_256 s1) as [g1|e] eqn:Eg1; [|discriminate Hbody].
  cbn beta iota delta [bind] in Hbody.
  destruct (split g0 [lam; 1; lam; 1]%nat) as [p0|e] eqn:Ep0; [|discriminate Hbody].
  destruct (split g1 [lam; 1; lam; 1]%nat) as [p1|e] eqn:Ep1; [|discriminate Hbody].
  cbn beta iota delta [bind] in Hbody.
  apply split_Ok_inv in Ep0, Ep1. destruct Ep0 as [L0 ->], Ep1 as [L1 ->].
  unfold list_sum in L0, L1. cbn [fold_right] in L0, L1.
  cbn [chunks] in Hbody.
  destruct (getitem a i) as [a_i|e] eqn:Ea; [|discriminate Hbody].
  cbn beta iota delta [bind] in Hbody.
  pose proof (getitem_bit a i a_i Ba Ea) as Bai.
  destruct (G_Ok_inv _ _ Eg0) as [_ B0]. destruct (G_Ok_inv _ _ Eg1) as [_ B1].
  set (sL_0 := firstn lam g0) in *.
  set (sL_1 := firstn lam g1) in *.
  set (sR_0 := firstn lam (skipn 1 (skipn lam g0))) in *.
  set (sR_1 := firstn lam (skipn 1 (skipn lam g1))) in *.
  assert (LL0 : List.length sL_0 = lam)
    by (unfold sL_0; rewrite length_firstn; lia).
  assert (LL1 : List.length sL_1 = lam)
    by (unfold sL_1; rewrite length_firstn; lia).
  assert (LR0 : List.length sR_0 = lam)
    by (unfold sR_0; rewrite length_firstn, !length_skipn; lia).
  assert (LR1 : List.length sR_1 = lam)
    by (unfold sR_1; rewrite length_firstn, !length_skipn; lia).
  rewrite (xor_t_same_length sL_0 sL_1) in Hbody by lia.
  rewrite (xor_t_same_length sR_0 sR_1) in Hbody by lia.
  cbn beta iota delta [bind] in Hbody.
  destruct (add_t (mul_scalar a_i (zipx sL_0 sL_1)) (mul_scalar (1 - a_i) (zipx sR_0 sR_1)))
    as [s_rand|e] eqn:Es; [|discriminate Hbody].
  cbn beta iota delta [bind] in Hbody.
  assert (BL : Forall is_bit (zipx sL_0 sL_1)).
  { apply zipx_bits; unfold sL_0, sL_1; now apply Forall_firstn. }
  assert (BR : Forall is_bit (zipx sR_0 sR_1)).
  { apply zipx_bits; unfold sR_0, sR_1;
      now apply Forall_firstn, Forall_skipn, Forall_skipn. }
  assert (Hs : List.length s_rand = lam /\ Forall is_bit s_rand).
  { assert (Lx : List.length (zipx sL_0 sL_1) = List.length (zipx sR_0 sR_1))
      by (rewrite !zipx_length; lia).
    rewrite (s_rand_select a_i _ _ s_rand Bai Lx BL BR Es).
    destruct (a_i =? 1); (split; [rewrite zipx_length; lia | assumption]). }
  destruct Hs as [Ls Bs].
  rewrite (TruthTableDPF_spec s_rand a_i Bai Ls) in Hbody.
  cbn beta iota delta [bind] in Hbody.
  set (cwt := dpf_table_row s_rand a_i 0 ++ dpf_table_row s_rand a_i 1) in *.
  assert (Lc : List.length cwt = (2 * (lam + 1))%nat).
  { unfold cwt. rewrite length_app, !dpf_table_row_length by assumption. lia. }
  rewrite (xor_t_same_length cwt g0) in Hbody by lia.
  cbn beta iota delta [bind] in Hbody.
  rewrite (xor_t_same_length (zipx cwt g0) g1) in Hbody by (rewrite zipx_length; lia).
  cbn beta iota delta [bind] in Hbody.
  set (CW_i := zipx (zipx cwt g0) g1) in *.
  assert (LCW : List.length CW_i = (2 * (lam + 1))%nat).
  { unfold CW_i. rewrite zipx_length; rewrite zipx_length; lia. }
  unfold broadcast_to in Hbody at 1.
  replace (List.length CW_i =? 2 * (lam + 1))%nat with true in Hbody
    by (symmetry; apply Nat.eqb_eq; lia).
  cbn beta iota delta [bind] in Hbody.
  assert (Hchain : forall (g : tensor) (t : Z) (k : list tensor -> result keygen_state)
                          (st : keygen_state),
            List.length g = (2 * (lam + 1))%nat ->
            (tau <- xor_t g (mul_scalar t CW_i) ;;
             tau <- reshape2 tau (lam + 1) ;;
             row <- getrow tau a_i ;;
             q <- split row [lam; 1%nat] ;;
             k q) = Ok st ->
            exists s' t', dpf_step g t CW_i a_i = Ok (s', t') /\ k [s'; [t']] = Ok st).
  { intros g t k st Lg Hst.
    assert (Ltau : List.length (zipx g (mul_scalar t CW_i)) = (2 * (lam + 1))%nat)
      by (rewrite zipx_length; rewrite ?mul_scalar_length; lia).
    destruct (dpf_row_shape _ (dpf_row_of_length _ a_i Ltau)) as (s' & t' & Hrow & Hs' & _).
    exists s', t'.
    pose proof (dpf_step_spec g t CW_i a_i s' t' Lg LCW Bai Hrow Hs') as Hd.
    split; [exact Hd|].
    unfold dpf_step in Hd.
    destruct (xor_t g (mul_scalar t CW_i)) as [tau|e]; [|discriminate Hd].
    cbn beta iota delta [bind] in Hd, Hst.
    destruct (reshape2 tau (lam + 1)) as [tau2|e]; [|discriminate Hd].
    cbn beta iota delta [bind] in Hd, Hst.
    destruct (getrow tau2 a_i) as [row|e]; [|discriminate Hd].
    cbn beta iota delta [bind] in Hd, Hst.
    destruct (split row [lam; 1%nat]) as [q|e]; [|discriminate Hd].
    cbn beta iota delta [bind] in Hd, Hst.
    destruct q as [|s2 [|[|t2 [|? ?]] [|? ?]]]; try discriminate Hd.
    injection Hd as -> ->. exact Hst. }
  apply Hchain in Hbody; [|lia].
  destruct Hbody as (s0' & t0' & Hd0 & Hbody).
  apply Hchain in Hbody; [|lia].
  destruct Hbody as (s1' & t1' & Hd1 & Hbody).
  assert (L0' : List.length g0 = (2 * (lam + 1))%nat) by lia.
  assert (L1' : List.length g1 = (2 * (lam + 1))%nat) by lia.
  pose proof (dpf_level a_i g0 g1 s_rand t0 t1 a_i s0' t0'
                Bai Bai L0' L1' B0 B1 Ls Bs Bt0 Bt1 Hsum Hd0) as (Bt0' & Hd1').
  fold cwt in Hd1'. fold CW_i in Hd1'.
  rewrite Z.eqb_refl in Hd1'.
  exists a_i, g0, g1, s_rand, s0', t0'. cbv zeta. fold cwt. fold CW_i.
  repeat (split; [first [assumption | reflexivity]|]).
  cbv beta iota in Hbody. congruence.
Qed.

(** [DPF.keygen] appends one correction word per level and keeps the two
    parties' bits different. *)
Lemma DPF_keygen_loop_prefix (a : tensor) (k : nat) :
  forall (i : nat) (s0 s1 : tensor) (t0 t1 : Z) (CW : list tensor)
         (sf0 sf1 : tensor) (tf0 tf1 : Z) (CWf : list tensor),
  Forall is_bit a -> is_bit t0 -> is_bit t1 -> t0 + t1 = 1 ->
  for_range (seq i k) (DPF_keygen_body lam sha3_256 a) (s0, s1, (t0, t1), CW)
  = Ok (sf0, sf1, (tf0, tf1), CWf) ->
  (exists rest, CWf = CW ++ rest /\ List.length rest = k) /\
  is_bit tf0 /\ is_bit tf1 /\ tf0 + tf1 = 1.
Proof.
  induction k as [|k IH]; intros i s0 s1 t0 t1 CW sf0 sf1 tf0 tf1 CWf Ba Bt0 Bt1 Hsum Hloop.
  - cbn in Hloop. injection Hloop as <- <- <- <- <-.
    split; [exists []; now rewrite app_nil_r | auto].
  - cbn [seq for_range] in Hloop.
    destruct (DPF_keygen_body lam sha3_256 a (s0, s1, (t0, t1), CW) i) as [st'|e] eqn:Ebody;
      [|discriminate Hloop].
    cbn beta iota delta [bind] in Hloop.
    destruct (DPF_keygen_level a s0 s1 t0 t1 CW i st' Ba Bt0 Bt1 Hsum Ebody)
      as (a_i & g0 & g1 & s_rand & s0' & t0' & Hall).
    cbv zeta in Hall.
    destruct Hall as (_ & _ & _ & _ & _ & _ & _ & _ & _ & _ & _ & _ & Bt0' & ->).
    destruct (is_bit_flip t0' Bt0') as [Bt1' Hsum'].
    destruct (IH _ _ _ _ _ _ _ _ _ _ _ Ba Bt0' Bt1' Hsum' Hloop)
      as ((rest & -> & Hlen) & Hbits).
    split; [|exact Hbits].
    eexists. rewrite <- app_assoc. split; [reflexivity|]. cbn [List.length app]. lia.
Qed.

(** The walk of the two parties down the levels [i .. i + k - 1], against
    the walk of [keygen]: on the path of [alpha] they end in the two final
    states of [keygen]; off it they end in one common state.  [CWx] is the
    list [eval] indexes: the correction words followed by [CW_n]. *)
Lemma DPF_loop (a x : tensor) (k : nat) :
  forall (i : nat) (s0 s1 : tensor) (t0 t1 : Z) (CW : list tensor)
         (sf0 sf1 : tensor) (tf0 tf1 : Z) (CWf : list tensor) (CW_n : tensor)
         (e0 e1 : tensor) (u0 u1 : Z),
  Forall is_bit a -> Forall is_bit x ->
  List.length a = (i + k)%nat -> List.length x = (i + k)%nat ->
  List.length CW = i ->
  is_bit t0 -> is_bit t1 -> t0 + t1 = 1 ->
  for_range (seq i k) (DPF_keygen_body lam sha3_256 a) (s0, s1, (t0, t1), CW)
  = Ok (sf0, sf1, (tf0, tf1), CWf) ->
  for_range (seq i k) (DPF_eval_body lam sha3_256 x (CWf ++ [CW_n])) (s0, t0) = Ok (e0, u0) ->
  for_range (seq i k) (DPF_eval_body lam sha3_256 x (CWf ++ [CW_n])) (s1, t1) = Ok (e1, u1) ->
  is_bit tf0 /\ is_bit tf1 /\ tf0 + tf1 = 1 /\
  if list_eq_dec Z.eq_dec (skipn i x) (skipn i a)
  then (e0, u0) = (sf0, tf0) /\ (e1, u1) = (sf1, tf1)
  else (e0, u0) = (e1, u1).
Proof.
  induction k as [|k IH];
    intros i s0 s1 t0 t1 CW sf0 sf1 tf0 tf1 CWf CW_n e0 e1 u0 u1
           Ba Bx La Lx LCW Bt0 Bt1 Hsum Hkey Hev0 Hev1.
  - cbn in Hkey, Hev0, Hev1.
    injection Hkey as <- <- <- <- <-. injection Hev0 as <- <-. injection Hev1 as <- <-.
    repeat (split; [assumption|]).
    rewrite !skipn_all2 by lia.
    destruct (list_eq_dec Z.eq_dec [] []) as [_|Hne]; [now split | now elim Hne].
  - cbn [seq for_range] in Hkey, Hev0, Hev1.
    destruct (DPF_keygen_body lam sha3_256 a (s0, s1, (t0, t1), CW) i) as [st'|e] eqn:Ebody;
      [|discriminate Hkey].
    cbn beta iota delta [bind] in Hkey.
    destruct (DPF_keygen_level a s0 s1 t0 t1 CW i st' Ba Bt0 Bt1 Hsum Ebody)
      as (a_i & g0 & g1 & s_rand & s0' & t0' & Hall).
    cbv zeta in Hall.
    destruct Hall as (Ea & Bai & Eg0 & Eg1 & L0 & L1 & B0 & B1 & Ls & Bs & LCWi
                      & Hd0 & Bt0' & ->).
    set (CW_i := zipx (zipx (dpf_table_row s_rand a_i 0 ++ dpf_table_row s_rand a_i 1) g0) g1)
      in *.
    destruct (is_bit_flip t0' Bt0') as [Bt1' Hsum'].
    destruct (DPF_keygen_loop_prefix a k _ _ _ _ _ _ _ _ _ _ _ Ba Bt0' Bt1' Hsum' Hkey)
      as ((rest & HCWf & _) & Bf0 & Bf1 & Hf).
    assert (ECW : getitem (CWf ++ [CW_n]) i = Ok CW_i).
    { rewrite HCWf, <- !app_assoc. unfold getitem.
      rewrite nth_error_app2 by lia. rewrite LCW, Nat.sub_diag. reflexivity. }
    destruct (getitem_skipn x i ltac:(lia)) as (x_i & Ex & Hskx).
    destruct (getitem_skipn a i ltac:(lia)) as (a_i' & Ea' & Hska).
    assert (a_i' = a_i) by congruence. subst a_i'.
    pose proof (getitem_bit x i x_i Bx Ex) as Bxi.
    rewrite Hskx, Hska.
    destruct (dpf_step_total g0 t0 CW_i x_i L0 LCWi Bxi) as (s0x & t0x & Hstep0).
    pose proof (dpf_level a_i g0 g1 s_rand t0 t1 x_i s0x t0x
                  Bai Bxi L0 L1 B0 B1 Ls Bs Bt0 Bt1 Hsum Hstep0) as (Bt0x & Hstep1).
    fold CW_i in Hstep1.
    rewrite (DPF_eval_body_step x _ s0 t0 i g0 CW_i x_i s0x t0x Eg0 ECW Ex Hstep0) in Hev0.
    cbn beta iota delta [bind] in Hev0.
    assert (La' : List.length a = (S i + k)%nat) by lia.
    assert (Lx' : List.length x = (S i + k)%nat) by lia.
    assert (LCW' : List.length (CW ++ [CW_i]) = S i)
      by (rewrite length_app; cbn [List.length]; lia).
    destruct (Z.eqb_spec x_i a_i) as [Heq|Hne].
    + subst x_i. rewrite Hd0 in Hstep0. injection Hstep0 as <- <-.
      rewrite (DPF_eval_body_step x _ s1 t1 i g1 CW_i a_i _ _ Eg1 ECW Ex Hstep1) in Hev1.
      cbn beta iota delta [bind] in Hev1.
      pose proof (IH (S i) _ _ _ _ _ _ _ _ _ _ _ _ _ _ _ Ba Bx La' Lx' LCW'
                    Bt0' Bt1' Hsum' Hkey Hev0 Hev1) as (_ & _ & _ & Hres).
      repeat (split; [assumption|]).
      destruct (list_eq_dec Z.eq_dec (skipn (S i) x) (skipn (S i) a)) as [Hs|Hs];
        destruct (list_eq_dec Z.eq_dec (a_i :: skipn (S i) x) (a_i :: skipn (S i) a))
          as [Hc|Hc]; try assumption.
      * elim Hc. now rewrite Hs.
      * elim Hs. now injection Hc.
    + rewrite (DPF_eval_body_step x _ s1 t1 i g1 CW_i x_i _ _ Eg1 ECW Ex Hstep1) in Hev1.
      cbn beta iota delta [bind] in Hev1.
      assert (Hsame : (e0, u0) = (e1, u1)) by congruence.
      repeat (split; [assumption|]).
      destruct (list_eq_dec Z.eq_dec (x_i :: skipn (S i) x) (a_i :: skipn (S i) a))
        as [Hc|Hc]; [|assumption].
      elim Hne. now injection Hc.
Qed.

Lemma Convert_range (bits : tensor) (c : Z) :
  Convert lam bits = Ok c -> 0 <= c < 256.
Proof.
  unfold Convert, dot.
  destruct (List.length bits =? List.length (bit_pow_lambda lam))%nat; [|discriminate].
  intros Hc. injection Hc as <-. apply dot_fold_range. lia.
Qed.

(** The leaf correction: whichever party holds the bit 1, the two uint8
    leaf values differ by 1 modulo 2^8. *)
Lemma leaf_correction (c0 c1 tf0 tf1 : Z) :
  is_bit tf0 -> is_bit tf1 -> tf0 + tf1 = 1 ->
  let CW_n := wrap8 (neg1_pow_uint8 tf1 * wrap8 (wrap8 (1 - c0) + c1)) in
  (wrap8 (c0 + wrap8 (tf0 * CW_n)) - wrap8 (c1 + wrap8 (tf1 * CW_n))) mod 256 = 1.
Proof.
  intros [-> | ->] [-> | ->] Hsum; try lia; cbv zeta; unfold neg1_pow_uint8, wrap8.
  - change (255 ^ 1 mod 256) with 255. rewrite Z.mul_0_l, Z.mul_1_l.
    Z.div_mod_to_equations. lia.
  - change (255 ^ 0 mod 256) with 1. rewrite Z.mul_0_l, !Z.mul_1_l.
    Z.div_mod_to_equations. lia.
Qed.

(** The shares of the two parties for a key pair of [DPF.keygen]: each is
    the signed form of a uint8 leaf value; the two leaf values are equal off
    the hidden point and differ by 1 modulo 2^8 at it. *)
Lemma DPF_shares (p0 p1 : party) (alpha : Z) (r0 r1 : tensor) (alpha' : Z)
    (s00 s01 : tensor) (CW : list tensor) (CW_n : tensor) (x : Z) (e0 e1 : tensor) :
  party_value p0 = 0 -> party_value p1 = 1 ->
  (n <= 63)%nat ->
  0 <= alpha < 2 ^ Z.of_nat n ->
  0 <= x < 2 ^ Z.of_nat n ->
  DPF_keygen lam n sha3_256 alpha r0 r1 = Ok (alpha', s00, s01, CW, CW_n) ->
  DPF_eval lam n sha3_256 p0 x (s00, CW, CW_n) = Ok e0 ->
  DPF_eval lam n sha3_256 p1 x (s01, CW, CW_n) = Ok e1 ->
  exists v0 v1,
    e0 = [signed_share p0 v0] /\ e1 = [signed_share p1 v1] /\
    0 <= v0 < 256 /\ 0 <= v1 < 256 /\
    (v0 - v1) mod 256 = (if x =? alpha then 1 else 0) /\
    (x <> alpha -> v0 = v1).
Proof.
  intros Hp0 Hp1 Hn Ha Hx Hkey Hev0 Hev1.
  unfold DPF_keygen in Hkey.
  destruct (broadcast_to lam (map wrap8 r0)) as [s00'|e] eqn:E0; [|discriminate Hkey].
  destruct (broadcast_to lam (map wrap8 r1)) as [s01'|e] eqn:E1; [|discriminate Hkey].
  cbn beta iota delta [bind] in Hkey.
  destruct (for_range (seq 0 n) (DPF_keygen_body lam sha3_256 (bit_decomposition n alpha))
              (s00', s01', (0, 1), [])) as [[[[sf0 sf1] [tf0 tf1]] CWf]|e] eqn:Eloop;
    [|discriminate Hkey].
  cbn beta iota delta [bind] in Hkey.
  destruct (Convert lam sf0) as [c0|e] eqn:Ec0; [|discriminate Hkey].
  destruct (Convert lam sf1) as [c1|e] eqn:Ec1; [|discriminate Hkey].
  cbn beta iota delta [bind] in Hkey.
  remember (wrap8 (neg1_pow_uint8 tf1 * wrap8 (wrap8 (1 - c0) + c1))) as cwn eqn:Hcwn.
  injection Hkey as <- <- <- <- <-.
  apply broadcast_to_length in E0, E1.
  destruct (DPF_keygen_loop_prefix (bit_decomposition n alpha) n 0 s00' s01' 0 1 []
              sf0 sf1 tf0 tf1 CWf (bit_decomposition_bits n alpha)
              (or_introl eq_refl) (or_intror eq_refl) eq_refl Eloop)
    as ((rest & HCWf & Lrest) & Bf0 & Bf1 & Hf).
  cbn [app] in HCWf. subst rest.
  unfold DPF_eval in Hev0, Hev1.
  rewrite (broadcast_to_same lam s00' E0) in Hev0.
  rewrite (broadcast_to_same lam s01' E1) in Hev1.
  cbn beta iota delta [bind] in Hev0, Hev1.
  rewrite Hp0 in Hev0. rewrite Hp1 in Hev1.
  change (wrap8 0) with 0 in Hev0. change (wrap8 1) with 1 in Hev1.
  match type of Hev0 with
  | bind ?c _ = _ => destruct c as [[u0 w0]|e] eqn:Ev0; [|discriminate Hev0]
  end.
  match type of Hev1 with
  | bind ?c _ = _ => destruct c as [[u1 w1]|e] eqn:Ev1; [|discriminate Hev1]
  end.
  cbn beta iota delta [bind] in Hev0, Hev1.
  destruct (Convert lam u0) as [d0|e] eqn:Ed0; [|discriminate Hev0].
  destruct (Convert lam u1) as [d1|e] eqn:Ed1; [|discriminate Hev1].
  cbn beta iota delta [bind] in Hev0, Hev1.
  match type of Hev0 with
  | bind ?c _ = _ => assert (Elast : c = Ok [cwn])
  end.
  { unfold getitem. rewrite nth_error_app2 by lia. rewrite Lrest, Nat.sub_diag. reflexivity. }
  rewrite Elast in Hev0, Hev1. cbn beta iota delta [bind] in Hev0, Hev1.
  cbn [mul_scalar map add_t elementwise List.length Nat.eqb combine fst snd bind]
    in Hev0, Hev1.
  injection Hev0 as <-. injection Hev1 as <-.
  exists (wrap8 (d0 + wrap8 (w0 * cwn))), (wrap8 (d1 + wrap8 (w1 * cwn))).
  split; [reflexivity|]. split; [reflexivity|].
  split; [apply wrap8_range|]. split; [apply wrap8_range|].
  pose proof (DPF_loop (bit_decomposition n alpha) (bit_decomposition n x) n 0
                s00' s01' 0 1 [] sf0 sf1 tf0 tf1 CWf [cwn] u0 u1 w0 w1
                (bit_decomposition_bits n alpha) (bit_decomposition_bits n x)
                (bit_decomposition_length n alpha) (bit_decomposition_length n x)
                eq_refl (or_introl eq_refl) (or_intror eq_refl) eq_refl Eloop Ev0 Ev1)
    as (_ & _ & _ & Hres).
  cbn [skipn] in Hres.
  destruct (list_eq_dec Z.eq_dec (bit_decomposition n x) (bit_decomposition n alpha))
    as [Hsame|Hdiff].
  - apply bit_decomposition_inj in Hsame; try assumption. subst x.
    rewrite Z.eqb_refl. destruct Hres as [Hr0 Hr1].
    injection Hr0 as -> ->. injection Hr1 as -> ->.
    assert (d0 = c0) by congruence. assert (d1 = c1) by congruence. subst d0 d1.
    split; [|intros Hne; now elim Hne].
    rewrite Hcwn. apply (leaf_correction c0 c1 tf0 tf1 Bf0 Bf1 Hf).
  - injection Hres as -> ->.
    assert (d0 = d1) by congruence. subst d1.
    assert (Hne : x <> alpha) by (intros ->; now elim Hdiff).
    apply Z.eqb_neq in Hne. rewrite Hne.
    split; [|reflexivity]. now rewrite Z.sub_diag.
Qed.

End DPF_correctness.

(** X2.  The int32 shares of the DPF.  For a hidden point alpha in [0, 2^n),
    n <= 63, and a key pair that [DPF.keygen] returns for it, whenever the
    evaluations of the two parties at an x in [0, 2^n) both return, with the
    party given as the protocol gives it (a one-entry int32 tensor), each
    is one entry, and the two add up to 0 off the hidden point and to 1 or
    to -255 at it: to the indicator modulo 2^8, not modulo 2^n. *)
Theorem DPF_shares_int32 :
  forall (lam n : nat) (sha3_256 : list byte -> list byte)
         (alpha : Z) (r0 r1 : tensor) (alpha' : Z) (s00 s01 : tensor)
         (CW : list tensor) (CW_n : tensor) (x : Z) (e0 e1 : tensor),
    (n <= 63)%nat ->
    0 <= alpha < 2 ^ Z.of_nat n ->
    0 <= x < 2 ^ Z.of_nat n ->
    DPF_keygen lam n sha3_256 alpha r0 r1 = Ok (alpha', s00, s01, CW, CW_n) ->
    DPF_eval lam n sha3_256 (IntTensor 0) x (s00, CW, CW_n) = Ok e0 ->
    DPF_eval lam n sha3_256 (IntTensor 1) x (s01, CW, CW_n) = Ok e1 ->
    exists y0 y1,
      e0 = [y0] /\ e1 = [y1] /\
      (y0 + y1) mod 2 ^ 8 = (if x =? alpha then 1 else 0) /\
      (if x =? alpha then y0 + y1 = 1 \/ y0 + y1 = -255 else y0 + y1 = 0).
Proof.
  intros lam n sha3_256 alpha r0 r1 alpha' s00 s01 CW CW_n x e0 e1 Hn Ha Hx Hkey Hev0 Hev1.
  destruct (DPF_shares lam n sha3_256 (IntTensor 0) (IntTensor 1) alpha r0 r1 alpha'
              s00 s01 CW CW_n x e0 e1 eq_refl eq_refl Hn Ha Hx Hkey Hev0 Hev1)
    as (v0 & v1 & -> & -> & R0 & R1 & Hmod & Hoff).
  exists v0, (- v1). cbn [signed_share].
  split; [f_equal; change ((-1) ^ 0) with 1; lia|].
  split; [f_equal; change ((-1) ^ 1) with (-1); lia|].
  change (2 ^ 8) with 256. replace (v0 + - v1) with (v0 - v1) by lia.
  split; [exact Hmod|].
  destruct (x =? alpha) eqn:E.
  - revert Hmod. Z.div_mod_to_equations. lia.
  - apply Z.eqb_neq in E. specialize (Hoff E). lia.
Qed.

(** X3.  The uint8 shares of the DPF.  In the same setting with the party
    given as a Python int 0 or 1, the two evaluations, whenever they
    return, are one uint8 entry each, and they add up to the indicator
    modulo 2^8. *)
Theorem DPF_shares_uint8 :
  forall (lam n : nat) (sha3_256 : list byte -> list byte)
         (alpha : Z) (r0 r1 : tensor) (alpha' : Z) (s00 s01 : tensor)
         (CW : list tensor) (CW_n : tensor) (x : Z) (e0 e1 : tensor),
    (n <= 63)%nat ->
    0 <= alpha < 2 ^ Z.of_nat n ->
    0 <= x < 2 ^ Z.of_nat n ->
    DPF_keygen lam n sha3_256 alpha r0 r1 = Ok (alpha', s00, s01, CW, CW_n) ->
    DPF_eval lam n sha3_256 (PyInt 0) x (s00, CW, CW_n) = Ok e0 ->
    DPF_eval lam n sha3_256 (PyInt 1) x (s01, CW, CW_n) = Ok e1 ->
    exists y0 y1,
      e0 = [y0] /\ e1 = [y1] /\ 0 <= y0 < 256 /\ 0 <= y1 < 256 /\
      (y0 + y1) mod 2 ^ 8 = (if x =? alpha then 1 else 0).
Proof.
  intros lam n sha3_256 alpha r0 r1 alpha' s00 s01 CW CW_n x e0 e1 Hn Ha Hx Hkey Hev0 Hev1.
  destruct (DPF_shares lam n sha3_256 (PyInt 0) (PyInt 1) alpha r0 r1 alpha'
              s00 s01 CW CW_n x e0 e1 eq_refl eq_refl Hn Ha Hx Hkey Hev0 Hev1)
    as (v0 & v1 & -> & -> & R0 & R1 & Hmod & Hoff).
  exists (wrap8 v0), (wrap8 (- v1)). cbn [signed_share].
  split; [f_equal; change ((-1) ^ 0) with 1; f_equal; lia|].
  split; [f_equal; change ((-1) ^ 1) with (-1); f_equal; lia|].
  split; [apply wrap8_range|]. split; [apply wrap8_range|].
  change (2 ^ 8) with 256. unfold wrap8.
  rewrite <- Zplus_mod. replace (v0 + - v1) with (v0 - v1) by lia. exact Hmod.
Qed.

(* ------------------------------------------------------------------ *)
(** ** The comparison protocol *)

Section Protocol.

Variable lam : nat.
Variable sha3_256 : list byte -> list byte.

Lemma plan_1_comp (x y : Z) (eqs : list primitive) (a : Z) (s_0 : tensor)
    (CW : list tensor) (comps : list primitive) (couples : list primitive) :
  plan_1 "comp" x y (mkStore eqs (CompKey a s_0 CW :: comps) couples)
  = (Ok (wrap64 (wrap64 (x - y) + a)), mkStore eqs (CompKey a s_0 CW :: comps) couples).
Proof. reflexivity. Qed.

Lemma plan_2_comp (b m : Z) (eqs : list primitive) (a : Z) (s_0 : tensor)
    (CW : list tensor) (comps : list primitive) (couples : list primitive) :
  plan_2 lam n0 sha3_256 "comp" b m (mkStore eqs (CompKey a s_0 CW :: comps) couples)
  = (DIF_eval lam n0 sha3_256 b m (s_0, CW), mkStore eqs comps couples).
Proof. reflexivity. Qed.

Lemma xor_add_convert_1_head (v : Z) (eqs comps : list primitive) (xr ad : Z)
    (couples : list primitive) :
  xor_add_convert_1 v (mkStore eqs comps (XorAddCouple xr ad :: couples))
  = (Ok (Z.lxor v xr), mkStore eqs comps (XorAddCouple xr ad :: couples)).
Proof. reflexivity. Qed.

Lemma xor_add_convert_2_head (b mu : Z) (eqs comps : list primitive) (xr ad : Z)
    (couples : list primitive) :
  xor_add_convert_2 b mu (mkStore eqs comps (XorAddCouple xr ad :: couples))
  = (Ok (wrap64 (wrap64 (ad * wrap64 (1 - wrap64 (2 * mu))) + wrap64 (mu * b))),
     mkStore eqs comps couples).
Proof. reflexivity. Qed.

(** The mask the orchestrator reconstructs. *)
Lemma mask_value_mod (x10 x11 x20 x21 a0 a1 alpha : Z) :
  (a0 + a1) mod 2 ^ 32 = alpha ->
  sum_shares [wrap64 (wrap64 (x10 - x20) + a0); wrap64 (wrap64 (x11 - x21) + a1)]
    mod 2 ^ 32
  = ((x10 + x11) - (x20 + x21) + alpha) mod 2 ^ 32.
Proof.
  intros Ha. unfold sum_shares. cbn [fold_left]. unfold wrap64.
  change (2 ^ 64) with 18446744073709551616.
  change (2 ^ 63) with 9223372036854775808.
  change (2 ^ 32) with 4294967296 in *.
  Z.div_mod_to_equations. lia.
Qed.

(** What [le] computes: the shares it returns reconstruct to the comparison
    of the masked difference with the mask, [(x - y + alpha) mod M <= alpha],
    and each party has consumed its key and its couple. *)
Lemma le_masked_comparison
    (alpha a0 a1 : Z) (r0 r1 s00 s01 : tensor) (CW : list tensor)
    (x10 x11 x20 x21 xr0 ad0 xr1 ad1 : Z)
    (eq0 eq1 c0 c1 q0 q1 : list primitive) (shares : list Z) (w' : workers) :
  0 <= alpha < 2 ^ Z.of_nat n0 ->
  (a0 + a1) mod 2 ^ Z.of_nat n0 = alpha ->
  DIF_keygen lam n0 sha3_256 alpha r0 r1 = Ok (alpha, s00, s01, CW) ->
  is_bit (Z.lxor xr0 xr1) ->
  Z.lxor xr0 xr1 = (ad0 + ad1) mod 2 ^ Z.of_nat n0 ->
  fss_le_op lam n0 sha3_256 [x10; x11] [x20; x21]
    [party_store eq0 a0 s00 CW c0 xr0 ad0 q0; party_store eq1 a1 s01 CW c1 xr1 ad1 q1]
  = (Ok shares, w') ->
  reconstruct n0 shares
  = (if ((x10 + x11) - (x20 + x21) + alpha) mod 2 ^ Z.of_nat n0 <=? alpha then 1 else 0)
  /\ w' = [mkStore eq0 c0 q0; mkStore eq1 c1 q1].
Proof.
  intros Ha Hshare Hkey Hr Hcouple Hle.
  change (2 ^ Z.of_nat n0) with (2 ^ 32) in *.
  unfold fss_le_op, fss_op, party_store in Hle.
  cbn [List.length seq for_each] in Hle.
  unfold bindO, liftO, request_run_plan in Hle.
  cbn [getitem nth_error set_nth] in Hle.
  rewrite !plan_1_comp in Hle.
  cbn [getitem nth_error set_nth] in Hle.
  change (2 ^ Z.of_nat n0) with (2 ^ 32) in Hle.
  rewrite (mask_value_mod x10 x11 x20 x21 a0 a1 alpha Hshare) in Hle.
  set (m := (x10 + x11 - (x20 + x21) + alpha) mod 2 ^ 32) in *.
  rewrite !plan_2_comp in Hle.
  change (Z.of_nat 0) with 0 in Hle. change (Z.of_nat 1) with 1 in Hle.
  destruct (DIF_eval lam n0 sha3_256 0 m (s00, CW)) as [v0|e] eqn:Ev0;
    [|discriminate Hle].
  destruct (DIF_eval lam n0 sha3_256 1 m (s01, CW)) as [v1|e] eqn:Ev1;
    [|discriminate Hle].
  change ("comp" =? "comp")%string with true in Hle.
  cbn [combine for_each] in Hle. unfold bindO in Hle.
  cbn [nth_error set_nth fst snd] in Hle.
  rewrite !xor_add_convert_1_head in Hle.
  cbn [nth_error set_nth fst snd getitem] in Hle.
  rewrite !xor_add_convert_2_head in Hle.
  cbn [nth_error set_nth fst snd getitem] in Hle.
  change (Z.of_nat 0) with 0 in Hle. change (Z.of_nat 1) with 1 in Hle.
  remember (Z.lxor (Z.lxor v0 xr0) (Z.lxor v1 xr1)) as mu eqn:Hmu.
  assert (Hsh : shares
                = [wrap64 (wrap64 (ad0 * wrap64 (1 - wrap64 (2 * mu))) + wrap64 (mu * 0));
                   wrap64 (wrap64 (ad1 * wrap64 (1 - wrap64 (2 * mu))) + wrap64 (mu * 1))])
    by congruence.
  split; [|congruence].
  assert (Hm : 0 <= m < 2 ^ Z.of_nat n0)
    by (apply Z.mod_pos_bound; reflexivity).
  assert (Hn : (n0 <= 63)%nat) by (unfold n0; lia).
  pose proof (DIF_xor_shares lam n0 sha3_256 alpha r0 r1 alpha s00 s01 CW m v0 v1
                Hn Ha Hm Hkey Ev0 Ev1) as [_ Hxor].
  rewrite Hsh. unfold reconstruct. cbn [fold_left]. rewrite Z.add_0_l.
  change (2 ^ Z.of_nat n0) with (2 ^ 32).
  rewrite (b2a_sum ad0 ad1 (Z.lxor v0 v1) (Z.lxor xr0 xr1) mu).
  - exact Hxor.
  - rewrite Hxor. destruct (m <=? alpha); [now right | now left].
  - exact Hr.
  - exact Hcouple.
  - rewrite Hmu. apply lxor_interchange.
Qed.

(** When the masked comparison is the comparison: for x, y and alpha in
    [0, M), [(x - y + alpha) mod M <= alpha] says [x <= y] exactly when the
    sum [x - y + alpha] does not leave [0, M) on the wrong side. *)
Lemma masked_comparison_le (M x y alpha : Z) :
  0 <= x < M -> 0 <= y < M -> 0 <= alpha < M ->
  ((x - y + alpha) mod M <=? alpha) = (x <=? y)
  <-> (x = y \/ (x < y /\ y - x <= alpha) \/ (y < x /\ x - y + alpha < M)).
Proof.
  intros Hx Hy Ha.
  assert (HM : 0 < M) by lia.
  destruct (Z.leb_spec x y) as [Hle|Hgt].
  - destruct (Z.eq_dec x y) as [->|Hne].
    + rewrite Z.sub_diag, Z.add_0_l, Z.mod_small by lia.
      rewrite Z.leb_refl. split; auto.
    + destruct (Z_le_gt_dec (y - x) alpha) as [Hbig|Hsmall].
      * rewrite Z.mod_small by lia.
        split; [intros _; right; left; lia|intros _; apply Z.leb_le; lia].
      * replace (x - y + alpha) with ((x - y + alpha + M) + (-1) * M) by ring.
        rewrite Z_mod_plus_full, Z.mod_small by lia.
        split; [intros Hc; apply Z.leb_le in Hc; lia | intros [Hc|[Hc|Hc]]; lia].
  - destruct (Z_lt_ge_dec (x - y + alpha) M) as [Hin|Hout].
    + rewrite Z.mod_small by lia.
      split; [intros _; right; right; lia | intros _; apply Z.leb_gt; lia].
    + replace (x - y + alpha) with ((x - y + alpha - M) + 1 * M) by ring.
      rewrite Z_mod_plus_full, Z.mod_small by lia.
      split; [intros Hc; apply Z.leb_gt in Hc; lia | intros [Hc|[Hc|Hc]]; lia].
Qed.

End Protocol.

(* ------------------------------------------------------------------ *)
(** ** The primitive store: reading, popping and the share-level plans *)

Lemma read_write_same (q : queue) (l : list primitive) (st : CryptoStore) :
  read q (write q l st) = l.
Proof. destruct q; reflexivity. Qed.

Lemma read_write_other (q q' : queue) (l : list primitive) (st : CryptoStore) :
  q' <> q -> read q' (write q l st) = read q' st.
Proof. destruct q, q'; intros Hne; try reflexivity; contradiction. Qed.

Lemma write_write (q : queue) (l l' : list primitive) (st : CryptoStore) :
  write q l' (write q l st) = write q l' st.
Proof. destruct q; reflexivity. Qed.

Lemma write_read (q : queue) (st : CryptoStore) : write q (read q st) st = st.
Proof. destruct q, st; reflexivity. Qed.

Lemma get_keys_head (type_op : string) (q : queue) (remove : bool)
    (p : primitive) (rest : list primitive) (st : CryptoStore) :
  In (type_op, q) queue_types -> read q st = p :: rest ->
  get_keys type_op remove st = (Ok p, if remove then write q rest st else st).
Proof.
  intros Hin Hq. unfold get_keys.
  rewrite (primitive_stack_of_queue_types _ _ Hin), Hq. destruct remove; reflexivity.
Qed.

(** X4.  In pop mode on a non-empty queue [get_keys] returns the head of the
    queue its operation type names and removes exactly that entry: the
    queue keeps its tail and the two other queues are untouched. *)
Theorem get_keys_pop_head :
  forall (type_op : string) (q : queue) (p : primitive) (rest : list primitive)
         (st : CryptoStore),
    In (type_op, q) queue_types ->
    read q st = p :: rest ->
    exists st',
      get_keys type_op true st = (Ok p, st') /\
      read q st' = rest /\
      forall q', q' <> q -> read q' st' = read q' st.
Proof.
  intros type_op q p rest st Hin Hq. exists (write q rest st).
  split; [apply (get_keys_head type_op q true p rest st Hin Hq)|].
  split; [apply read_write_same|].
  intros q' Hne. apply read_write_other, Hne.
Qed.

(** X5.  What read mode returns is what the next pop returns: a call with
    [remove=False] that returns a primitive leaves the store as it was, and
    the call with [remove=True] that follows returns the same primitive. *)
Theorem get_keys_read_then_pop :
  forall (type_op : string) (p : primitive) (st st' : CryptoStore),
    get_keys type_op false st = (Ok p, st') ->
    st' = st /\ exists st'', get_keys type_op true st' = (Ok p, st'').
Proof.
  intros type_op p st st' Hread. unfold get_keys in *.
  destruct (primitive_stack_of type_op) as [q|]; [|discriminate Hread].
  destruct (read q st) as [|p0 rest] eqn:Hq; [discriminate Hread|].
  injection Hread as -> ->. split; [reflexivity|].
  rewrite Hq. eexists. reflexivity.
Qed.

(** X6.  The queues are first in, first out: [k] pops on a queue of at least
    [k] primitives return its first [k] entries in order and leave the
    rest, the other queues untouched. *)
Theorem get_keys_fifo :
  forall (type_op : string) (q : queue) (k : nat) (st : CryptoStore),
    In (type_op, q) queue_types ->
    (k <= List.length (read q st))%nat ->
    get_keys_times type_op k st
    = (Ok (firstn k (read q st)), write q (skipn k (read q st)) st).
Proof.
  intros type_op q k st Hin. revert st.
  induction k as [|k IH]; intros st Hk.
  - cbn [get_keys_times firstn skipn]. unfold ret. now rewrite write_read.
  - destruct (read q st) as [|p rest] eqn:Hq; [cbn in Hk; lia|].
    cbn [get_keys_times]. unfold bindS.
    rewrite (get_keys_head type_op q true p rest st Hin Hq).
    specialize (IH (write q rest st)). rewrite read_write_same in IH.
    rewrite IH by (cbn [List.length] in Hk; lia).
    unfold ret. cbn [firstn skipn]. now rewrite write_write.
Qed.

(** X7.  One pop past the end: popping [k + 1] times from a queue of [k]
    primitives raises the out-of-primitives error, and the store it leaves
    has that queue empty: the [k] primitives are consumed. *)
Theorem get_keys_past_the_end :
  forall (type_op : string) (q : queue) (st : CryptoStore),
    In (type_op, q) queue_types ->
    get_keys_times type_op (S (List.length (read q st))) st
    = (Raise (EmptyCryptoPrimitiveStoreError (write q [] st) ("fss_" ++ type_op)),
       write q [] st).
Proof.
  intros type_op q st Hin.
  remember (read q st) as l eqn:Hl. revert st Hl.
  induction l as [|p rest IH]; intros st Hl.
  - cbn [List.length get_keys_times]. unfold bindS.
    unfold get_keys. rewrite (primitive_stack_of_queue_types _ _ Hin), <- Hl.
    rewrite Hl, write_read. reflexivity.
  - cbn [List.length]. change (get_keys_times type_op (S (S (List.length rest))) st)
      with (bindS (get_keys type_op true) (fun p =>
            bindS (get_keys_times type_op (S (List.length rest))) (fun ps => ret (p :: ps))) st).
    unfold bindS at 1.
    rewrite (get_keys_head type_op q true p rest st Hin (eq_sym Hl)).
    unfold bindS at 1.
    rewrite (IH (write q rest st)) by (now rewrite read_write_same).
    now rewrite write_write.
Qed.

(** X8.  An operation type that is none of "eq", "comp" and "xor_add" is a
    missing key of the dictionary of queues: [get_keys] raises KeyError and
    the store is untouched. *)
Theorem get_keys_unknown_type :
  forall (type_op : string) (remove : bool) (st : CryptoStore),
    type_op <> "eq"%string -> type_op <> "comp"%string ->
    type_op <> "xor_add"%string ->
    get_keys type_op remove st = (Raise KeyError, st).
Proof.
  intros type_op remove st H1 H2 H3. unfold get_keys, primitive_stack_of.
  apply String.eqb_neq in H1, H2, H3. now rewrite H1, H2, H3.
Qed.

(** X9.  Round 1 opens the masked difference.  With a primitive at the head
    of each party's queue, [mask_builder] returns on both parties without
    touching the stores, and the sum of the two masks modulo 2^n, n <= 64,
    is the difference of the shared values plus the sum of the first
    entries of the two primitives, modulo 2^n: the int64 wrap-around of the
    shares' arithmetic does not show. *)
Theorem mask_builder_opens_masked_difference :
  forall (type_op : string) (q : queue) (n : nat)
         (p0 p1 : primitive) (rest0 rest1 : list primitive) (st0 st1 : CryptoStore)
         (x10 x20 x11 x21 : Z),
    In (type_op, q) queue_types ->
    (n <= 64)%nat ->
    read q st0 = p0 :: rest0 ->
    read q st1 = p1 :: rest1 ->
    exists m0 m1,
      mask_builder x10 x20 type_op st0 = (Ok m0, st0) /\
      mask_builder x11 x21 type_op st1 = (Ok m1, st1) /\
      sum_shares [m0; m1] mod 2 ^ Z.of_nat n
      = ((x10 + x11) - (x20 + x21) + (first_entry p0 + first_entry p1))
          mod 2 ^ Z.of_nat n.
Proof.
  intros type_op q n p0 p1 rest0 rest1 st0 st1 x10 x20 x11 x21 Hin Hn H0 H1.
  unfold mask_builder, bindS, ret.
  rewrite (get_keys_head type_op q false p0 rest0 st0 Hin H0).
  rewrite (get_keys_head type_op q false p1 rest1 st1 Hin H1).
  do 2 eexists. split; [reflexivity|]. split; [reflexivity|].
  unfold sum_shares. cbn [fold_left]. rewrite Z.add_0_l.
  assert (Hj : 0 <= Z.of_nat n <= 64) by lia.
  set (M := 2 ^ Z.of_nat n).
  assert (Hw : forall z, wrap64 z mod M = z mod M)
    by (intros z; apply wrap64_mod_pow2, Hj).
  assert (HL : forall a b, (wrap64 a + b) mod M = (a + b) mod M)
    by (intros a b; now rewrite <- Zplus_mod_idemp_l, Hw, Zplus_mod_idemp_l).
  assert (HR : forall a b, (a + wrap64 b) mod M = (a + b) mod M)
    by (intros a b; now rewrite <- Zplus_mod_idemp_r, Hw, Zplus_mod_idemp_r).
  rewrite Hw, HL, HL, HR.
  replace (wrap64 (x10 - x20) + first_entry p0 + (wrap64 (x11 - x21) + first_entry p1))
    with (wrap64 (x10 - x20) + (first_entry p0 + (wrap64 (x11 - x21) + first_entry p1)))
    by ring.
  rewrite HL.
  replace (x10 - x20 + (first_entry p0 + (wrap64 (x11 - x21) + first_entry p1)))
    with (wrap64 (x11 - x21) + (x10 - x20 + first_entry p0 + first_entry p1)) by ring.
  rewrite HL. f_equal. ring.
Qed.

(** X10.  The evaluation plans consume their key whatever the evaluation
    does: with a primitive at the head of the queue, the store after
    [eq_eval_plan], respectively [comp_eval_plan], is the store with that
    queue popped, whether [DPF.eval] or [DIF.eval] returns or raises. *)
Theorem eval_plan_consumes_key :
  forall (lam n : nat) (sha3_256 : list byte -> list byte)
         (type_op : string) (q : queue) (b x_masked : Z)
         (p : primitive) (rest : list primitive) (st : CryptoStore),
    In (type_op, q) op_types ->
    read q st = p :: rest ->
    snd (plan_2 lam n sha3_256 type_op b x_masked st) = write q rest st.
Proof.
  intros lam n sha3_256 type_op q b x_masked p rest st Hin Hq.
  destruct Hin as [Hin|[Hin|[]]]; injection Hin as <- <-;
    unfold plan_2; cbn [String.eqb Ascii.eqb Bool.eqb];
    [unfold eq_eval_plan | unfold comp_eval_plan]; unfold bindS, get_keys;
    cbn [primitive_stack_of String.eqb Ascii.eqb Bool.eqb]; rewrite Hq;
    destruct p; reflexivity.
Qed.

(* ------------------------------------------------------------------ *)
(** ** The PRG expanders, the encoding of the seed, [Convert] and
       [bit_decomposition] *)

(** X11.  A seed whose length is not λ fails the assertion of [G] and of
    [H]. *)
Theorem G_H_reject_wrong_seed_length :
  forall (lam : nat) (sha3_256 : list byte -> list byte) (seed : tensor),
    List.length seed <> lam ->
    G lam sha3_256 seed = Raise AssertionError /\
    H lam sha3_256 seed = Raise AssertionError.
Proof.
  intros lam sha3_256 seed Hlen.
  split; [apply G_wrong_length | apply H_wrong_length]; exact Hlen.
Qed.

Lemma pos_bits_head (p : positive) : forall acc,
  exists l, pos_bits p acc = 1 :: l.
Proof.
  induction p as [p IH|p IH|]; intros acc; cbn [pos_bits].
  - apply IH.
  - apply IH.
  - eexists. reflexivity.
Qed.

Lemma sig_bits_head (v : Z) :
  0 < v -> exists l, sig_bits v = 1 :: l.
Proof.
  intros Hv. destruct v as [|p|p]; try lia. apply pos_bits_head.
Qed.

(** X12.  The first entry of the output of [G] and of [H] is 1, not a bit
    of the digest's choosing: on a seed of λ entries whose digest is not
    the zero string, both return a tensor of bits that starts with 1
    ([bin] writes no leading zero). *)
Theorem G_H_output_starts_with_1 :
  forall (lam : nat) (sha3_256 : list byte -> list byte) (seed : tensor),
    List.length seed = lam ->
    int_from_bytes_big (digest_of sha3_256 seed) <> 0 ->
    exists g h,
      G lam sha3_256 seed = Ok (1 :: g) /\ Forall is_bit g /\
      H lam sha3_256 seed = Ok (1 :: h) /\ Forall is_bit h.
Proof.
  intros lam sha3_256 seed Hlen Hnz.
  pose proof (int_from_bytes_big_nonneg (digest_of sha3_256 seed)) as Hge.
  destruct (sig_bits_head (int_from_bytes_big (digest_of sha3_256 seed)) ltac:(lia))
    as (l & Hl).
  pose proof (sig_bits_bits (int_from_bytes_big (digest_of sha3_256 seed))) as Hb.
  rewrite Hl in Hb. pose proof (Forall_inv_tail Hb) as Hbl.
  exists (firstn (2 * lam + 1) l), (firstn (2 * lam + 3) l).
  rewrite (G_sig_bits lam sha3_256 seed Hlen), (H_sig_bits lam sha3_256 seed Hlen), Hl.
  replace (2 * (lam + 1))%nat with (S (2 * lam + 1)) by lia.
  replace (2 + S (2 * lam + 1))%nat with (S (2 * lam + 3)) by lia.
  cbn [firstn].
  repeat split; try reflexivity; apply Forall_firstn; exact Hbl.
Qed.

Lemma sig_bits_width (v : Z) (k : nat) :
  0 <= v -> (1 < k)%nat ->
  (k <= List.length (sig_bits v))%nat <-> 2 ^ Z.of_nat (k - 1) <= v.
Proof.
  intros Hv Hk. destruct v as [|p|p]; try lia.
  - cbn [sig_bits List.length]. split.
    + intros Hle. lia.
    + intros Hle. pose proof (Z.pow_pos_nonneg 2 (Z.of_nat (k - 1)) ltac:(lia) ltac:(lia)).
      lia.
  - cbn [sig_bits]. rewrite pos_bits_length. cbn [List.length]. split.
    + intros Hle.
      destruct (Z_lt_le_dec (Z.pos p) (2 ^ Z.of_nat (k - 1))) as [Hlt|Hge]; [|exact Hge].
      pose proof (size_nat_bound p (k - 1) Hlt). lia.
    + intros Hle. pose proof (size_nat_lower p (k - 1) Hle). lia.
Qed.

(** X13.  When the expanders return the full width.  On a seed of λ entries
    [G] returns 2(λ+1) entries exactly when the digest, read as a big-endian
    integer, is at least 2^(2(λ+1)-1), and [H] returns 2(λ+2) entries
    exactly when it is at least 2^(2(λ+2)-1); below that the output is
    shorter. *)
Theorem G_H_full_width_iff :
  forall (lam : nat) (sha3_256 : list byte -> list byte) (seed : tensor),
    List.length seed = lam ->
    exists g h,
      G lam sha3_256 seed = Ok g /\
      H lam sha3_256 seed = Ok h /\
      (List.length g <= 2 * (lam + 1))%nat /\
      (List.length h <= 2 * (lam + 2))%nat /\
      (List.length g = (2 * (lam + 1))%nat
       <-> 2 ^ Z.of_nat (2 * (lam + 1) - 1) <= int_from_bytes_big (digest_of sha3_256 seed)) /\
      (List.length h = (2 * (lam + 2))%nat
       <-> 2 ^ Z.of_nat (2 * (lam + 2) - 1) <= int_from_bytes_big (digest_of sha3_256 seed)).
Proof.
  intros lam sha3_256 seed Hlen.
  pose proof (int_from_bytes_big_nonneg (digest_of sha3_256 seed)) as Hge.
  do 2 eexists.
  split; [apply (G_sig_bits lam sha3_256 seed Hlen)|].
  split; [apply (H_sig_bits lam sha3_256 seed Hlen)|].
  rewrite !length_firstn.
  pose proof (sig_bits_width _ (2 * (lam + 1)) Hge ltac:(lia)) as HG.
  pose proof (sig_bits_width _ (2 * (lam + 2)) Hge ltac:(lia)) as HH.
  repeat split; lia.
Qed.

Lemma encode_app (s1 s2 : string) : encode (s1 ++ s2) = encode s1 ++ encode s2.
Proof.
  unfold encode, list_byte_of_string.
  now rewrite list_ascii_of_string_app, map_app.
Qed.

Lemma bit_digit (z : Z) :
  is_bit z ->
  seed_of_bytes (encode (NilZero.string_of_int (Z.to_int z))) = [z] /\
  List.length (encode (NilZero.string_of_int (Z.to_int z))) = 1%nat.
Proof. intros [-> | ->]; split; reflexivity. Qed.

Lemma seed_of_bytes_app (a b : list byte) :
  seed_of_bytes (a ++ b) = seed_of_bytes a ++ seed_of_bytes b.
Proof. apply flat_map_app. Qed.

Lemma concat_digits (l : list Z) :
  Forall is_bit l ->
  seed_of_bytes
    (encode (String.concat ", " (map (fun z => NilZero.string_of_int (Z.to_int z)) l)))
  = l /\
  List.length
    (encode (String.concat ", " (map (fun z => NilZero.string_of_int (Z.to_int z)) l)))
  = (3 * List.length l - 2)%nat.
Proof.
  induction 1 as [|z l Hz Hl IH]; [split; reflexivity|].
  destruct (bit_digit z Hz) as [Hd Hn].
  destruct l as [|z' l'].
  - cbn [map String.concat List.length]. split; [exact Hd | rewrite Hn; reflexivity].
  - destruct IH as [IH1 IH2].
    change (String.concat ", " (map (fun z => NilZero.string_of_int (Z.to_int z)) (z :: z' :: l')))
      with (NilZero.string_of_int (Z.to_int z) ++ ", "
            ++ String.concat ", " (map (fun z => NilZero.string_of_int (Z.to_int z)) (z' :: l')))%string.
    rewrite !encode_app, !seed_of_bytes_app, !length_app, Hd, Hn, IH1, IH2.
    split; [reflexivity|]. cbn [List.length encode list_byte_of_string]. cbn. lia.
Qed.

(** X14.  The byte form of a seed is canonical.  From
    [str(seed.tolist()).encode()], the bytes [G] and [H] hash, the entries
    of a seed of bits are read back as they were, so two different seeds
    are never hashed as the same bytes; the byte form of a seed of k >= 1
    bits is 3k bytes long. *)
Theorem seed_encoding_round_trip :
  forall seed : tensor,
    Forall is_bit seed ->
    seed_of_bytes (encode (str_list seed)) = seed /\
    (seed <> [] -> List.length (encode (str_list seed)) = (3 * List.length seed)%nat).
Proof.
  intros seed Hb. destruct (concat_digits seed Hb) as [H1 H2].
  unfold str_list. rewrite !encode_app, !seed_of_bytes_app, !length_app, H1, H2.
  change (seed_of_bytes (encode "[")) with (@nil Z).
  change (seed_of_bytes (encode "]")) with (@nil Z).
  rewrite app_nil_r. split; [reflexivity|].
  intros Hne. destruct seed as [|z l]; [contradiction|].
  cbn [List.length encode list_byte_of_string list_ascii_of_string map]. lia.
Qed.

Lemma bit_pow_lambda_length (lam : nat) : List.length (bit_pow_lambda lam) = lam.
Proof. unfold bit_pow_lambda. now rewrite length_map, length_rev, length_seq. Qed.

(** X15.  [Convert] on a tensor whose length is not λ: the dot product with
    the λ weights raises a RuntimeError. *)
Theorem Convert_rejects_wrong_length :
  forall (lam : nat) (bits : tensor),
    List.length bits <> lam -> Convert lam bits = Raise RuntimeError.
Proof.
  intros lam bits Hlen. unfold Convert, dot. rewrite bit_pow_lambda_length.
  apply Nat.eqb_neq in Hlen. now rewrite Hlen.
Qed.

Lemma Convert_msb_value (lam : nat) (bits : tensor) :
  List.length bits = lam -> Convert lam bits = Ok (msb_value bits mod 256).
Proof.
  intros Hlen. unfold Convert, dot.
  rewrite bit_pow_lambda_length, Hlen, Nat.eqb_refl. f_equal.
  pose proof (dot_bit_pow_lambda bits 0) as Hd. rewrite Hlen in Hd.
  change (msb_value bits) with (msb_value_from bits 0).
  rewrite <- (Z.add_0_l (msb_value_from bits 0)), <- Hd.
  symmetry. apply Z.mod_small, dot_fold_range. lia.
Qed.

Lemma msb_value_app (a b : list Z) :
  msb_value (a ++ b) = msb_value a * 2 ^ Z.of_nat (List.length b) + msb_value b.
Proof.
  unfold msb_value. rewrite fold_left_app.
  apply (msb_value_from_shift b).
Qed.

(** X16.  [Convert] reads the last eight entries only: two tensors of λ
    entries that agree on their last eight entries (on all of them when
    λ < 8) convert to the same value, whatever their first λ - 8 entries. *)
Theorem Convert_reads_last_8_entries :
  forall (lam : nat) (bits bits' : tensor),
    List.length bits = lam -> List.length bits' = lam ->
    skipn (lam - 8) bits = skipn (lam - 8) bits' ->
    Convert lam bits = Convert lam bits'.
Proof.
  intros lam bits bits' Hlen Hlen' Hlast.
  rewrite (Convert_msb_value lam bits Hlen), (Convert_msb_value lam bits' Hlen').
  f_equal.
  rewrite <- (firstn_skipn (lam - 8) bits), <- (firstn_skipn (lam - 8) bits').
  rewrite !msb_value_app, <- Hlast.
  destruct (Nat.le_gt_cases 8 lam) as [Hge|Hlt].
  - assert (Hl8 : List.length (skipn (lam - 8) bits) = 8%nat)
      by (rewrite length_skipn; lia).
    rewrite Hl8. change (2 ^ Z.of_nat 8) with 256.
    rewrite !(Z.add_comm (_ * 256)), !Z_mod_plus_full. reflexivity.
  - replace (lam - 8)%nat with 0%nat by lia. reflexivity.
Qed.

(** X17.  [bit_decomposition] and the base-2 reading are inverse on
    [0, 2^n), n <= 63: the decomposition of x has n entries, each 0 or 1,
    most significant first, and they spell x. *)
Theorem bit_decomposition_round_trip :
  forall (n : nat) (x : Z),
    (n <= 63)%nat -> 0 <= x < 2 ^ Z.of_nat n ->
    List.length (bit_decomposition n x) = n /\
    Forall is_bit (bit_decomposition n x) /\
    msb_value (bit_decomposition n x) = x.
Proof.
  intros n x Hn Hx.
  split; [apply bit_decomposition_length|].
  split; [apply bit_decomposition_bits|].
  rewrite (msb_value_bit_decomposition n x Hn). apply Z.mod_small, Hx.
Qed.

Lemma bit_decomposition_mod (n : nat) (x : Z) :
  (n <= 63)%nat -> bit_decomposition n (x mod 2 ^ Z.of_nat n) = bit_decomposition n x.
Proof.
  intros Hn. rewrite !(bit_decomposition_testbit n _ Hn).
  apply map_ext_in. intros k Hk. apply in_rev, in_seq in Hk.
  rewrite Z.mod_pow2_bits_low by lia. reflexivity.
Qed.

(** X18.  [bit_decomposition] reads the low n bits only: for n <= 63 the
    decomposition of an int64 x, negative values included, is the
    decomposition of x mod 2^n, so [DPF.eval] and [DIF.eval] cannot tell x
    from x + 2^n. *)
Theorem bit_decomposition_reads_low_bits :
  forall (n : nat) (x : Z),
    (n <= 63)%nat -> - 2 ^ 63 <= x < 2 ^ 63 ->
    bit_decomposition n (x mod 2 ^ Z.of_nat n) = bit_decomposition n x.
Proof.
  intros n x Hn _. apply bit_decomposition_mod, Hn.
Qed.

(* ------------------------------------------------------------------ *)
(** ** The truth tables *)

Lemma row_index_out_of_range (r : Z) :
  r < -2 \/ 1 < r -> row_index r = Raise IndexError.
Proof.
  intros Hr. unfold row_index.
  replace (r =? 0) with false by lia. replace (r =? -2) with false by lia.
  replace (r =? 1) with false by lia. replace (r =? -1) with false by lia.
  reflexivity.
Qed.

(** X19.  The layout of [TruthTableDPF].  For a seed [s] of λ entries the
    table of 2(λ+1) entries has [s] followed by 1 in the row of the path bit
    and zeros in the other row; a path bit outside -2 .. 1 is an IndexError. *)
Theorem TruthTableDPF_layout :
  forall (lam : nat) (s : tensor),
    List.length s = lam ->
    TruthTableDPF lam s 0 = Ok ((s ++ [1]) ++ repeat 0 (lam + 1)) /\
    TruthTableDPF lam s 1 = Ok (repeat 0 (lam + 1) ++ (s ++ [1])) /\
    forall a_i, a_i < -2 \/ 1 < a_i -> TruthTableDPF lam s a_i = Raise IndexError.
Proof.
  intros lam s Hlen.
  assert (Hb : broadcast_to (lam + 1) (s ++ [1]) = Ok (s ++ [1])).
  { apply broadcast_to_same. rewrite length_app, Hlen. reflexivity. }
  unfold TruthTableDPF, setrow, zeros2, concat, flatten.
  cbn [fst snd row_index Z.eqb orb bind]. rewrite repeat_length, Hb.
  cbn [bind fst snd].
  split; [reflexivity|]. split; [reflexivity|].
  intros a_i Ha. rewrite (row_index_out_of_range a_i Ha). reflexivity.
Qed.

(** X20.  The layout of [TruthTableDIF].  Each of the two rows of λ+2
    entries starts with a leaf bit.  In the row of the path bit the leaf is
    0 and [s] and 1 follow; the other row has zeros after its leaf, which is
    the path bit itself: 1 where leaving the path means being below the
    threshold, 0 where it means being above.  A path bit other than 0 and 1
    is an IndexError, in the leaf table or in the next one. *)
Theorem TruthTableDIF_layout :
  forall (lam : nat) (s : tensor),
    List.length s = lam ->
    TruthTableDIF lam s 0 = Ok ((0 :: s ++ [1]) ++ (0 :: repeat 0 (lam + 1))) /\
    TruthTableDIF lam s 1 = Ok ((1 :: repeat 0 (lam + 1)) ++ (0 :: s ++ [1])) /\
    forall a_i, a_i <> 0 -> a_i <> 1 -> TruthTableDIF lam s a_i = Raise IndexError.
Proof.
  intros lam s Hlen.
  assert (Hb : broadcast_to (lam + 1) (s ++ [1]) = Ok (s ++ [1])).
  { apply broadcast_to_same. rewrite length_app, Hlen. reflexivity. }
  unfold TruthTableDIF, setrow, zeros2, concat, flatten, concat_axis1.
  split; [|split].
  - cbn [fst snd row_index Z.eqb orb bind Z.sub Z.opp Z.add Z.pos_sub
         broadcast_to List.length Nat.eqb repeat].
    rewrite repeat_length, Hb. reflexivity.
  - cbn [fst snd row_index Z.eqb orb bind Z.sub Z.opp Z.add Z.pos_sub Pos.eqb
         broadcast_to List.length Nat.eqb repeat].
    rewrite repeat_length, Hb. reflexivity.
  - intros a_i H0 H1.
    assert (Hc : (a_i < 0 \/ 3 < a_i) \/ a_i = 2 \/ a_i = 3) by lia.
    destruct Hc as [Hc|[-> | ->]].
    + rewrite (row_index_out_of_range (1 - a_i)) by lia. reflexivity.
    + reflexivity.
    + reflexivity.
Qed.

(* ------------------------------------------------------------------ *)
(** ** The protocols [eq] and [le] between two parties *)

Section Runs.

Variable lam : nat.
Variable sha3_256 : list byte -> list byte.

Lemma plan_1_eq (x y : Z) (a : Z) (s_0 : tensor) (CW : list tensor) (CW_n : tensor)
    (eqs comps couples : list primitive) :
  plan_1 "eq" x y (mkStore (EqKey a s_0 CW CW_n :: eqs) comps couples)
  = (Ok (wrap64 (wrap64 (x - y) + a)), mkStore (EqKey a s_0 CW CW_n :: eqs) comps couples).
Proof. reflexivity. Qed.

Lemma plan_2_eq (b m : Z) (a : Z) (s_0 : tensor) (CW : list tensor) (CW_n : tensor)
    (eqs comps couples : list primitive) :
  plan_2 lam n0 sha3_256 "eq" b m (mkStore (EqKey a s_0 CW CW_n :: eqs) comps couples)
  = ((result_share <- DPF_eval lam n0 sha3_256 (IntTensor b) m (s_0, CW, CW_n) ;;
      match result_share with
      | [y] => Ok y
      | _ => Raise RuntimeError
      end),
     mkStore eqs comps couples).
Proof. reflexivity. Qed.

(** The run of [le] on two parties whose stores hold a comparison key at
    the head of [fss_comp], up to the end of round 2. *)
Lemma le_rounds_1_2 (x10 x11 x20 x21 a0 a1 : Z) (s00 s01 : tensor)
    (CW0 CW1 : list tensor) (eq0 eq1 c0 c1 q0 q1 : list primitive) (v0 v1 : Z) :
  let m := mask_value x10 x11 x20 x21 a0 a1 in
  DIF_eval lam n0 sha3_256 0 m (s00, CW0) = Ok v0 ->
  DIF_eval lam n0 sha3_256 1 m (s01, CW1) = Ok v1 ->
  fss_le_op lam n0 sha3_256 [x10; x11] [x20; x21]
    [mkStore eq0 (CompKey a0 s00 CW0 :: c0) q0; mkStore eq1 (CompKey a1 s01 CW1 :: c1) q1]
  = round_3 [v0; v1] [0%nat; 1%nat] [mkStore eq0 c0 q0; mkStore eq1 c1 q1].
Proof.
  intros m Ev0 Ev1. unfold mask_value in m.
  match goal with |- ?L = _ => remember L as R eqn:HR end.
  unfold fss_le_op, fss_op in HR.
  cbn [List.length seq for_each] in HR.
  unfold bindO, liftO, request_run_plan in HR.
  cbn [getitem nth_error set_nth] in HR.
  rewrite !plan_1_comp in HR.
  cbn [getitem nth_error set_nth] in HR.
  fold m in HR.
  rewrite (plan_2_comp lam sha3_256 (Z.of_nat 0) m eq0 a0 s00 CW0 c0 q0) in HR.
  change (Z.of_nat 0) with 0 in HR. rewrite Ev0 in HR. cbn [nth_error set_nth] in HR.
  rewrite (plan_2_comp lam sha3_256 (Z.of_nat 1) m eq1 a1 s01 CW1 c1 q1) in HR.
  change (Z.of_nat 1) with 1 in HR. rewrite Ev1 in HR.
  change ("comp" =? "comp")%string with true in HR. cbn iota beta in HR.
  rewrite HR. reflexivity.
Qed.

(** Round 3 between two parties that hold a couple each. *)
Lemma round_3_couples (v0 v1 xr0 ad0 xr1 ad1 : Z)
    (eq0 eq1 c0 c1 q0 q1 : list primitive) :
  let mu := Z.lxor (Z.lxor v0 xr0) (Z.lxor v1 xr1) in
  round_3 [v0; v1] [0%nat; 1%nat]
    [mkStore eq0 c0 (XorAddCouple xr0 ad0 :: q0); mkStore eq1 c1 (XorAddCouple xr1 ad1 :: q1)]
  = (Ok [wrap64 (wrap64 (ad0 * wrap64 (1 - wrap64 (2 * mu))) + wrap64 (mu * 0));
         wrap64 (wrap64 (ad1 * wrap64 (1 - wrap64 (2 * mu))) + wrap64 (mu * 1))],
     [mkStore eq0 c0 q0; mkStore eq1 c1 q1]).
Proof.
  intros mu.
  match goal with |- ?L = _ => remember L as R eqn:HR end.
  unfold round_3 in HR.
  cbn [combine for_each List.length seq] in HR.
  unfold bindO, liftO, request_run_plan in HR.
  cbn [nth_error set_nth fst snd] in HR.
  rewrite !xor_add_convert_1_head in HR.
  cbn [nth_error set_nth fst snd getitem] in HR.
  rewrite !xor_add_convert_2_head in HR.
  cbn [nth_error set_nth fst snd getitem] in HR.
  change (Z.of_nat 0) with 0 in HR. change (Z.of_nat 1) with 1 in HR.
  fold mu in HR. rewrite HR. reflexivity.
Qed.

Lemma mask_value_shared (x10 x11 x20 x21 a0 a1 alpha : Z) :
  (a0 + a1) mod 2 ^ Z.of_nat n0 = alpha ->
  mask_value x10 x11 x20 x21 a0 a1
  = ((x10 + x11) - (x20 + x21) + alpha) mod 2 ^ Z.of_nat n0.
Proof.
  intros Hshare. unfold mask_value. change (2 ^ Z.of_nat n0) with (2 ^ 32) in *.
  apply mask_value_mod, Hshare.
Qed.

(** X21.  What [le] computes.  Two parties hold at the heads of their
    queues the two comparison keys [DIF.keygen] returned for alpha, with
    additive shares of alpha modulo M = 2^32, and a couple whose xor shares
    hide the bit its additive shares add up to.  If the two evaluations at
    the masked value m = (x - y + alpha) mod M return, [le] returns two
    shares that add up modulo M to 1 if m <= alpha and to 0 otherwise, and
    each party has lost exactly its comparison key and its couple. *)
Theorem le_computes_masked_comparison :
  forall (alpha a0 a1 : Z) (r0 r1 s00 s01 : tensor) (CW : list tensor)
         (x10 x11 x20 x21 xr0 ad0 xr1 ad1 : Z)
         (eq0 eq1 c0 c1 q0 q1 : list primitive) (v0 v1 : Z),
    let m := ((x10 + x11) - (x20 + x21) + alpha) mod 2 ^ Z.of_nat n0 in
    0 <= alpha < 2 ^ Z.of_nat n0 ->
    (a0 + a1) mod 2 ^ Z.of_nat n0 = alpha ->
    DIF_keygen lam n0 sha3_256 alpha r0 r1 = Ok (alpha, s00, s01, CW) ->
    is_bit (Z.lxor xr0 xr1) ->
    Z.lxor xr0 xr1 = (ad0 + ad1) mod 2 ^ Z.of_nat n0 ->
    DIF_eval lam n0 sha3_256 0 m (s00, CW) = Ok v0 ->
    DIF_eval lam n0 sha3_256 1 m (s01, CW) = Ok v1 ->
    exists o0 o1,
      fss_le_op lam n0 sha3_256 [x10; x11] [x20; x21]
        [party_store eq0 a0 s00 CW c0 xr0 ad0 q0; party_store eq1 a1 s01 CW c1 xr1 ad1 q1]
      = (Ok [o0; o1], [mkStore eq0 c0 q0; mkStore eq1 c1 q1]) /\
      (o0 + o1) mod 2 ^ Z.of_nat n0 = (if m <=? alpha then 1 else 0).
Proof.
  intros alpha a0 a1 r0 r1 s00 s01 CW x10 x11 x20 x21 xr0 ad0 xr1 ad1
         eq0 eq1 c0 c1 q0 q1 v0 v1 m Ha Hshare Hkey Hr Hcouple Ev0 Ev1.
  pose proof (mask_value_shared x10 x11 x20 x21 a0 a1 alpha Hshare) as Hm.
  fold m in Hm. unfold party_store.
  rewrite (le_rounds_1_2 x10 x11 x20 x21 a0 a1 s00 s01 CW CW eq0 eq1 c0 c1 _ _ v0 v1)
    by (rewrite Hm; assumption).
  rewrite round_3_couples. do 2 eexists. split; [reflexivity|].
  assert (Hmr : 0 <= m < 2 ^ Z.of_nat n0) by (apply Z.mod_pos_bound; reflexivity).
  assert (Hn : (n0 <= 63)%nat) by (unfold n0; lia).
  pose proof (DIF_xor_shares lam n0 sha3_256 alpha r0 r1 alpha s00 s01 CW m v0 v1
                Hn Ha Hmr Hkey Ev0 Ev1) as [_ Hxor].
  change (2 ^ Z.of_nat n0) with (2 ^ 32) in *.
  rewrite (b2a_sum ad0 ad1 (Z.lxor v0 v1) (Z.lxor xr0 xr1)
             (Z.lxor (Z.lxor v0 xr0) (Z.lxor v1 xr1))).
  - exact Hxor.
  - rewrite Hxor. destruct (m <=? alpha); [now right | now left].
  - exact Hr.
  - exact Hcouple.
  - apply lxor_interchange.
Qed.

Lemma masked_value_plain (X Y alpha M : Z) :
  0 < M ->
  (X - Y + alpha) mod M = (X mod M - Y mod M + alpha) mod M.
Proof.
  intros HM.
  rewrite <- (Zplus_mod_idemp_l (X - Y)), Zminus_mod, Zplus_mod_idemp_l. reflexivity.
Qed.

(** X22.  When [le] is right.  Two parties hold the comparison keys
    [DIF.keygen] returned for alpha, shares of alpha modulo M = 2^32 and a
    couple that hides a bit, and the evaluations at the masked value return.
    With x and y the shared values in [0, M), the shares [le] returns add
    up to 1 if x <= y and to 0 otherwise exactly when x = y, or x < y and
    y - x <= alpha, or y < x and x - y + alpha < M: the comparison is wrong
    as soon as the masked difference wraps around M on the wrong side. *)
Theorem le_right_iff_no_wrap :
  forall (alpha a0 a1 : Z) (r0 r1 s00 s01 : tensor) (CW : list tensor)
         (x10 x11 x20 x21 xr0 ad0 xr1 ad1 : Z)
         (eq0 eq1 c0 c1 q0 q1 : list primitive) (v0 v1 : Z),
    let M := 2 ^ Z.of_nat n0 in
    let x := (x10 + x11) mod M in
    let y := (x20 + x21) mod M in
    0 <= alpha < M ->
    (a0 + a1) mod M = alpha ->
    DIF_keygen lam n0 sha3_256 alpha r0 r1 = Ok (alpha, s00, s01, CW) ->
    is_bit (Z.lxor xr0 xr1) ->
    Z.lxor xr0 xr1 = (ad0 + ad1) mod M ->
    DIF_eval lam n0 sha3_256 0 ((x - y + alpha) mod M) (s00, CW) = Ok v0 ->
    DIF_eval lam n0 sha3_256 1 ((x - y + alpha) mod M) (s01, CW) = Ok v1 ->
    exists o0 o1,
      fss_le_op lam n0 sha3_256 [x10; x11] [x20; x21]
        [party_store eq0 a0 s00 CW c0 xr0 ad0 q0; party_store eq1 a1 s01 CW c1 xr1 ad1 q1]
      = (Ok [o0; o1], [mkStore eq0 c0 q0; mkStore eq1 c1 q1]) /\
      ((o0 + o1) mod M = (if x <=? y then 1 else 0)
       <-> (x = y \/ (x < y /\ y - x <= alpha) \/ (y < x /\ x - y + alpha < M))).
Proof.
  intros alpha a0 a1 r0 r1 s00 s01 CW x10 x11 x20 x21 xr0 ad0 xr1 ad1
         eq0 eq1 c0 c1 q0 q1 v0 v1 M x y Ha Hshare Hkey Hr Hcouple Ev0 Ev1.
  assert (HM : 0 < M) by reflexivity.
  assert (Hmx : ((x10 + x11) - (x20 + x21) + alpha) mod M = (x - y + alpha) mod M)
    by (apply masked_value_plain, HM).
  pose proof (mask_value_shared x10 x11 x20 x21 a0 a1 alpha Hshare) as Hm.
  fold M in Hm. rewrite Hmx in Hm. unfold party_store.
  rewrite (le_rounds_1_2 x10 x11 x20 x21 a0 a1 s00 s01 CW CW eq0 eq1 c0 c1 _ _ v0 v1)
    by (rewrite Hm; assumption).
  rewrite round_3_couples. do 2 eexists. split; [reflexivity|].
  assert (Hmr : 0 <= (x - y + alpha) mod M < 2 ^ Z.of_nat n0)
    by (apply Z.mod_pos_bound; reflexivity).
  assert (Hn : (n0 <= 63)%nat) by (unfold n0; lia).
  pose proof (DIF_xor_shares lam n0 sha3_256 alpha r0 r1 alpha s00 s01 CW _ v0 v1
                Hn Ha Hmr Hkey Ev0 Ev1) as [_ Hxor].
  assert (Hsum : forall b : bool, is_bit (if b then 1 else 0))
    by (intros [|]; [now right | now left]).
  unfold M at 1. change (2 ^ Z.of_nat n0) with (2 ^ 32).
  rewrite (b2a_sum ad0 ad1 (Z.lxor v0 v1) (Z.lxor xr0 xr1)
             (Z.lxor (Z.lxor v0 xr0) (Z.lxor v1 xr1)));
    [| rewrite Hxor; apply Hsum | exact Hr | exact Hcouple | apply lxor_interchange].
  rewrite Hxor.
  assert (Hx : 0 <= x < M) by (apply Z.mod_pos_bound, HM).
  assert (Hy : 0 <= y < M) by (apply Z.mod_pos_bound, HM).
  rewrite <- (masked_comparison_le M x y alpha Hx Hy Ha).
  destruct ((x - y + alpha) mod M <=? alpha), (x <=? y); split; congruence.
Qed.

(** X23.  [le] is not atomic.  When the two parties hold the comparison
    keys [DIF.keygen] returned but no couple, and the two evaluations
    return, [le] raises the out-of-primitives error for the queue of couples
    in round 3, after round 2 has consumed the comparison key of both
    parties. *)
Theorem le_without_couples :
  forall (alpha : Z) (r0 r1 s00 s01 : tensor) (CW : list tensor)
         (x10 x11 x20 x21 a0 a1 : Z) (eq0 eq1 c0 c1 : list primitive) (v0 v1 : Z),
    let m := mask_value x10 x11 x20 x21 a0 a1 in
    DIF_keygen lam n0 sha3_256 alpha r0 r1 = Ok (alpha, s00, s01, CW) ->
    DIF_eval lam n0 sha3_256 0 m (s00, CW) = Ok v0 ->
    DIF_eval lam n0 sha3_256 1 m (s01, CW) = Ok v1 ->
    fss_le_op lam n0 sha3_256 [x10; x11] [x20; x21]
      [mkStore eq0 (CompKey a0 s00 CW :: c0) []; mkStore eq1 (CompKey a1 s01 CW :: c1) []]
    = (Raise (EmptyCryptoPrimitiveStoreError (mkStore eq0 c0 []) "fss_xor_add"),
       [mkStore eq0 c0 []; mkStore eq1 c1 []]).
Proof.
  intros alpha r0 r1 s00 s01 CW x10 x11 x20 x21 a0 a1 eq0 eq1 c0 c1 v0 v1 m _ Ev0 Ev1.
  rewrite (le_rounds_1_2 x10 x11 x20 x21 a0 a1 s00 s01 CW CW eq0 eq1 c0 c1 [] [] v0 v1
             Ev0 Ev1).
  reflexivity.
Qed.

(** X24.  [le] needs two locations.  On a tensor shared with a single
    location, whose store holds a comparison key [DIF.keygen] returned and
    a couple, and when the evaluation returns, round 3 raises IndexError at
    [shares[1]]: the comparison key is consumed, the couple is not. *)
Theorem le_single_location :
  forall (alpha : Z) (r0 r1 s00 s01 : tensor) (CW : list tensor)
         (x1 x2 a0 xr ad : Z) (eqs comps couples : list primitive) (v0 : Z),
    let m := sum_shares [wrap64 (wrap64 (x1 - x2) + a0)] mod 2 ^ Z.of_nat n0 in
    DIF_keygen lam n0 sha3_256 alpha r0 r1 = Ok (alpha, s00, s01, CW) ->
    DIF_eval lam n0 sha3_256 0 m (s00, CW) = Ok v0 ->
    fss_le_op lam n0 sha3_256 [x1] [x2] [party_store eqs a0 s00 CW comps xr ad couples]
    = (Raise IndexError, [mkStore eqs comps (XorAddCouple xr ad :: couples)]).
Proof.
  intros alpha r0 r1 s00 s01 CW x1 x2 a0 xr ad eqs comps couples v0 m _ Ev0.
  match goal with |- ?L = _ => remember L as R eqn:HR end.
  unfold fss_le_op, fss_op, party_store in HR.
  cbn [List.length seq for_each] in HR.
  unfold bindO, liftO, request_run_plan in HR.
  cbn [getitem nth_error set_nth] in HR.
  rewrite !plan_1_comp in HR.
  cbn [getitem nth_error set_nth] in HR. fold m in HR.
  rewrite (plan_2_comp lam sha3_256 (Z.of_nat 0) m eqs a0 s00 CW comps _) in HR.
  change (Z.of_nat 0) with 0 in HR. rewrite Ev0 in HR.
  change ("comp" =? "comp")%string with true in HR. cbn iota beta in HR.
  cbn [combine for_each List.length seq] in HR. unfold bindO in HR.
  cbn [nth_error set_nth fst snd] in HR.
  rewrite xor_add_convert_1_head in HR.
  cbn [nth_error set_nth fst snd getitem] in HR.
  rewrite HR. reflexivity.
Qed.

Lemma masked_value_is_alpha (X Y alpha M : Z) :
  0 < M -> 0 <= alpha < M ->
  ((X - Y + alpha) mod M =? alpha) = (X mod M =? Y mod M).
Proof.
  intros HM Ha. rewrite (masked_value_plain X Y alpha M HM).
  pose proof (Z.mod_pos_bound X M HM) as Hx.
  pose proof (Z.mod_pos_bound Y M HM) as Hy.
  destruct (Z.eqb_spec (X mod M) (Y mod M)) as [E|E].
  - rewrite E, Z.sub_diag, Z.add_0_l, Z.mod_small by lia. apply Z.eqb_refl.
  - apply Z.eqb_neq. intros Hc.
    destruct (Z_lt_ge_dec (X mod M - Y mod M + alpha) 0) as [Hneg|Hpos].
    + replace (X mod M - Y mod M + alpha)
        with ((X mod M - Y mod M + alpha + M) + (-1) * M) in Hc by ring.
      rewrite Z_mod_plus_full, Z.mod_small in Hc by lia. lia.
    + destruct (Z_lt_ge_dec (X mod M - Y mod M + alpha) M) as [Hin|Hout].
      * rewrite Z.mod_small in Hc by lia. lia.
      * replace (X mod M - Y mod M + alpha)
          with ((X mod M - Y mod M + alpha - M) + 1 * M) in Hc by ring.
        rewrite Z_mod_plus_full, Z.mod_small in Hc by lia. lia.
Qed.

(** The run of [eq] on two parties whose stores hold an equality key at the
    head of [fss_eq]. *)
Lemma eq_run (x10 x11 x20 x21 a0 a1 : Z) (s00 s01 : tensor)
    (CW0 CW1 : list tensor) (CWn0 CWn1 : tensor)
    (eq0 eq1 c0 c1 q0 q1 : list primitive) (y0 y1 : Z) :
  let m := mask_value x10 x11 x20 x21 a0 a1 in
  DPF_eval lam n0 sha3_256 (IntTensor 0) m (s00, CW0, CWn0) = Ok [y0] ->
  DPF_eval lam n0 sha3_256 (IntTensor 1) m (s01, CW1, CWn1) = Ok [y1] ->
  fss_eq_op lam n0 sha3_256 [x10; x11] [x20; x21]
    [mkStore (EqKey a0 s00 CW0 CWn0 :: eq0) c0 q0;
     mkStore (EqKey a1 s01 CW1 CWn1 :: eq1) c1 q1]
  = (Ok [y0; y1], [mkStore eq0 c0 q0; mkStore eq1 c1 q1]).
Proof.
  intros m Ev0 Ev1. unfold mask_value in m.
  match goal with |- ?L = _ => remember L as R eqn:HR end.
  unfold fss_eq_op, fss_op in HR.
  cbn [List.length seq for_each] in HR.
  unfold bindO, liftO, request_run_plan in HR.
  cbn [getitem nth_error set_nth] in HR.
  rewrite !plan_1_eq in HR.
  cbn [getitem nth_error set_nth] in HR.
  fold m in HR.
  rewrite (plan_2_eq (Z.of_nat 0) m a0 s00 CW0 CWn0 eq0 c0 q0) in HR.
  change (Z.of_nat 0) with 0 in HR. rewrite Ev0 in HR.
  cbn [bind nth_error set_nth] in HR.
  rewrite (plan_2_eq (Z.of_nat 1) m a1 s01 CW1 CWn1 eq1 c1 q1) in HR.
  change (Z.of_nat 1) with 1 in HR. rewrite Ev1 in HR.
  cbn [bind] in HR.
  change ("eq" =? "comp")%string with false in HR. cbn beta iota in HR.
  rewrite HR. reflexivity.
Qed.

(** X25.  What [eq] computes.  Two parties hold at the heads of their queues
    the two equality keys [DPF.keygen] returned for alpha, with additive
    shares of alpha modulo M = 2^32.  If the two evaluations at the masked
    value return, [eq] returns two shares and each party has lost exactly
    its equality key.  For different shared values the two shares add up to
    0; for equal ones to 1 or to -255: the sum is the equality indicator
    modulo 2^8, not modulo M. *)
Theorem eq_shares_mod_256 :
  forall (alpha a0 a1 : Z) (r0 r1 s00 s01 : tensor) (CW : list tensor) (CW_n : tensor)
         (x10 x11 x20 x21 : Z) (eq0 eq1 c0 c1 q0 q1 : list primitive) (e0 e1 : tensor),
    let m := ((x10 + x11) - (x20 + x21) + alpha) mod 2 ^ Z.of_nat n0 in
    0 <= alpha < 2 ^ Z.of_nat n0 ->
    (a0 + a1) mod 2 ^ Z.of_nat n0 = alpha ->
    DPF_keygen lam n0 sha3_256 alpha r0 r1 = Ok (alpha, s00, s01, CW, CW_n) ->
    DPF_eval lam n0 sha3_256 (IntTensor 0) m (s00, CW, CW_n) = Ok e0 ->
    DPF_eval lam n0 sha3_256 (IntTensor 1) m (s01, CW, CW_n) = Ok e1 ->
    exists y0 y1,
      fss_eq_op lam n0 sha3_256 [x10; x11] [x20; x21]
        [mkStore (EqKey a0 s00 CW CW_n :: eq0) c0 q0;
         mkStore (EqKey a1 s01 CW CW_n :: eq1) c1 q1]
      = (Ok [y0; y1], [mkStore eq0 c0 q0; mkStore eq1 c1 q1]) /\
      (y0 + y1) mod 2 ^ 8
      = (if (x10 + x11) mod 2 ^ Z.of_nat n0 =? (x20 + x21) mod 2 ^ Z.of_nat n0
         then 1 else 0) /\
      (if (x10 + x11) mod 2 ^ Z.of_nat n0 =? (x20 + x21) mod 2 ^ Z.of_nat n0
       then y0 + y1 = 1 \/ y0 + y1 = -255
       else y0 + y1 = 0).
Proof.
  intros alpha a0 a1 r0 r1 s00 s01 CW CW_n x10 x11 x20 x21 eq0 eq1 c0 c1 q0 q1 e0 e1
         m Ha Hshare Hkey Ev0 Ev1.
  pose proof (mask_value_shared x10 x11 x20 x21 a0 a1 alpha Hshare) as Hm.
  fold m in Hm.
  assert (Hmr : 0 <= m < 2 ^ Z.of_nat n0) by (apply Z.mod_pos_bound; reflexivity).
  assert (Hn : (n0 <= 63)%nat) by (unfold n0; lia).
  destruct (DPF_shares lam n0 sha3_256 (IntTensor 0) (IntTensor 1) alpha r0 r1 alpha
              s00 s01 CW CW_n m e0 e1 eq_refl eq_refl Hn Ha Hmr Hkey Ev0 Ev1)
    as (v0 & v1 & E0 & E1 & R0 & R1 & Hmod & Hoff).
  cbn [signed_share] in E0, E1.
  change ((-1) ^ 0) with 1 in E0. change ((-1) ^ 1) with (-1) in E1.
  replace (1 * v0) with v0 in E0 by lia. replace (-1 * v1) with (- v1) in E1 by lia.
  exists v0, (- v1).
  split.
  - apply eq_run; rewrite Hm; [rewrite <- E0 | rewrite <- E1]; assumption.
  - assert (HM : 0 < 2 ^ Z.of_nat n0) by reflexivity.
    rewrite <- (masked_value_is_alpha (x10 + x11) (x20 + x21) alpha _ HM Ha).
    fold m. replace (v0 + - v1) with (v0 - v1) by lia.
    split; [exact Hmod|].
    destruct (m =? alpha) eqn:E.
    + revert Hmod. Z.div_mod_to_equations. lia.
    + apply Z.eqb_neq in E. specialize (Hoff E). lia.
Qed.

End Runs.

(* ------------------------------------------------------------------ *)
(** ** The shape of the keys *)

Section Keys.

Variable lam : nat.
Variable sha3_256 : list byte -> list byte.

Lemma DIF_keygen_loop_words (a : tensor) (k : nat) :
  forall (i : nat) (s0 s1 : tensor) (t0 t1 : Z) (CW : list tensor)
         (sf0 sf1 : tensor) (tf : Z * Z) (CWf : list tensor),
  Forall is_bit a -> is_bit t0 -> is_bit t1 -> t0 + t1 = 1 ->
  Forall (word_of (2 * (lam + 2))) CW ->
  for_range (seq i k) (DIF_keygen_body lam sha3_256 a) (s0, s1, (t0, t1), CW)
  = Ok (sf0, sf1, tf, CWf) ->
  Forall (word_of (2 * (lam + 2))) CWf /\ List.length CWf = (List.length CW + k)%nat.
Proof.
  induction k as [|k IH]; intros i s0 s1 t0 t1 CW sf0 sf1 tf CWf Ba Bt0 Bt1 Hsum HCW Hloop.
  - cbn in Hloop. injection Hloop as <- <- <- <-. split; [assumption|lia].
  - cbn [seq for_range] in Hloop.
    destruct (DIF_keygen_body lam sha3_256 a (s0, s1, (t0, t1), CW) i) as [st'|e] eqn:Ebody;
      [|discriminate Hloop].
    cbn beta iota delta [bind] in Hloop.
    destruct (DIF_keygen_level lam sha3_256 a s0 s1 t0 t1 CW i st' Ba Bt0 Bt1 Hsum Ebody)
      as (a_i & h0 & h1 & s_rand & sg0 & s0' & t0' & Hall).
    cbv zeta in Hall.
    destruct Hall as (_ & Ba_i & _ & _ & _ & _ & Bh0 & Bh1 & Ls & Bs & LCW & _ & Bt0' & ->).
    destruct (is_bit_flip t0' Bt0') as [Bt1' Hsum'].
    assert (Hword : word_of (2 * (lam + 2))
                      (zipx (zipx (dif_table_row lam s_rand a_i 0
                                   ++ dif_table_row lam s_rand a_i 1) h0) h1)).
    { split; [exact LCW|].
      apply zipx_bits; [apply zipx_bits|]; try assumption.
      apply Forall_app. split; apply dif_table_row_bits; assumption. }
    destruct (IH _ _ _ _ _ _ _ _ _ _ Ba Bt0' Bt1' Hsum'
                (proj2 (Forall_app _ _ _) (conj HCW (Forall_cons _ Hword (Forall_nil _))))
                Hloop) as [HF HL].
    split; [exact HF|]. rewrite HL, length_app. cbn [List.length]. lia.
Qed.

(** X26.  The shape of a comparison key.  What [DIF.keygen] returns for
    alpha is alpha, two seeds of λ entries and n correction words, each of
    2(λ+2) entries that are 0 or 1. *)
Theorem DIF_keygen_key_shape :
  forall (n : nat) (alpha : Z) (r0 r1 : tensor) (alpha' : Z) (s00 s01 : tensor)
         (CW : list tensor),
    DIF_keygen lam n sha3_256 alpha r0 r1 = Ok (alpha', s00, s01, CW) ->
    alpha' = alpha /\
    List.length s00 = lam /\ List.length s01 = lam /\
    List.length CW = n /\
    Forall (word_of (2 * (lam + 2))) CW.
Proof.
  intros n alpha r0 r1 alpha' s00 s01 CW Hkey. unfold DIF_keygen in Hkey.
  destruct (broadcast_to lam (map wrap8 r0)) as [s0|e] eqn:E0; [|discriminate Hkey].
  destruct (broadcast_to lam (map wrap8 r1)) as [s1|e] eqn:E1; [|discriminate Hkey].
  cbn beta iota delta [bind] in Hkey.
  match type of Hkey with bind ?c _ = _ => destruct c as [[[[sf0 sf1] tf] CWf]|e] eqn:Eloop end;
    [|discriminate Hkey].
  cbn beta iota delta [bind] in Hkey. injection Hkey as <- <- <- <-.
  destruct (DIF_keygen_loop_words (bit_decomposition n alpha) n 0 s0 s1 0 1 [] sf0 sf1 tf CWf
              (bit_decomposition_bits n alpha) (or_introl eq_refl) (or_intror eq_refl)
              eq_refl (Forall_nil _) Eloop) as [HF HL].
  split; [reflexivity|].
  split; [apply (broadcast_to_length lam _ _ E0)|].
  split; [apply (broadcast_to_length lam _ _ E1)|].
  split; [exact HL | exact HF].
Qed.

Lemma DPF_keygen_loop_words (a : tensor) (k : nat) :
  forall (i : nat) (s0 s1 : tensor) (t0 t1 : Z) (CW : list tensor)
         (sf0 sf1 : tensor) (tf : Z * Z) (CWf : list tensor),
  Forall is_bit a -> is_bit t0 -> is_bit t1 -> t0 + t1 = 1 ->
  Forall (word_of (2 * (lam + 1))) CW ->
  for_range (seq i k) (DPF_keygen_body lam sha3_256 a) (s0, s1, (t0, t1), CW)
  = Ok (sf0, sf1, tf, CWf) ->
  Forall (word_of (2 * (lam + 1))) CWf /\ List.length CWf = (List.length CW + k)%nat.
Proof.
  induction k as [|k IH]; intros i s0 s1 t0 t1 CW sf0 sf1 tf CWf Ba Bt0 Bt1 Hsum HCW Hloop.
  - cbn in Hloop. injection Hloop as <- <- <- <-. split; [assumption|lia].
  - cbn [seq for_range] in Hloop.
    destruct (DPF_keygen_body lam sha3_256 a (s0, s1, (t0, t1), CW) i) as [st'|e] eqn:Ebody;
      [|discriminate Hloop].
    cbn beta iota delta [bind] in Hloop.
    destruct (DPF_keygen_level lam sha3_256 a s0 s1 t0 t1 CW i st' Ba Bt0 Bt1 Hsum Ebody)
      as (a_i & g0 & g1 & s_rand & s0' & t0' & Hall).
    cbv zeta in Hall.
    destruct Hall as (_ & Ba_i & _ & _ & _ & _ & Bg0 & Bg1 & Ls & Bs & LCW & _ & Bt0' & ->).
    destruct (is_bit_flip t0' Bt0') as [Bt1' Hsum'].
    assert (Hword : word_of (2 * (lam + 1))
                      (zipx (zipx (dpf_table_row lam s_rand a_i 0
                                   ++ dpf_table_row lam s_rand a_i 1) g0) g1)).
    { split; [exact LCW|].
      apply zipx_bits; [apply zipx_bits|]; try assumption.
      apply Forall_app. split; apply dpf_table_row_bits; assumption. }
    destruct (IH _ _ _ _ _ _ _ _ _ _ Ba Bt0' Bt1' Hsum'
                (proj2 (Forall_app _ _ _) (conj HCW (Forall_cons _ Hword (Forall_nil _))))
                Hloop) as [HF HL].
    split; [exact HF|]. rewrite HL, length_app. cbn [List.length]. lia.
Qed.

(** X27.  The shape of an equality key.  What [DPF.keygen] returns for
    alpha is alpha, two seeds of λ entries, n correction words, each of
    2(λ+1) entries that are 0 or 1, and a leaf correction of one uint8
    entry. *)
Theorem DPF_keygen_key_shape :
  forall (n : nat) (alpha : Z) (r0 r1 : tensor) (alpha' : Z) (s00 s01 : tensor)
         (CW : list tensor) (CW_n : tensor),
    DPF_keygen lam n sha3_256 alpha r0 r1 = Ok (alpha', s00, s01, CW, CW_n) ->
    alpha' = alpha /\
    List.length s00 = lam /\ List.length s01 = lam /\
    List.length CW = n /\
    Forall (word_of (2 * (lam + 1))) CW /\
    exists c, CW_n = [c] /\ 0 <= c < 256.
Proof.
  intros n alpha r0 r1 alpha' s00 s01 CW CW_n Hkey. unfold DPF_keygen in Hkey.
  destruct (broadcast_to lam (map wrap8 r0)) as [s0|e] eqn:E0; [|discriminate Hkey].
  destruct (broadcast_to lam (map wrap8 r1)) as [s1|e] eqn:E1; [|discriminate Hkey].
  cbn beta iota delta [bind] in Hkey.
  match type of Hkey with bind ?c _ = _ =>
    destruct c as [[[[sf0 sf1] [tf0 tf1]] CWf]|e] eqn:Eloop end; [|discriminate Hkey].
  cbn beta iota delta [bind] in Hkey.
  destruct (Convert lam sf0) as [c0|e]; [|discriminate Hkey].
  destruct (Convert lam sf1) as [c1|e]; [|discriminate Hkey].
  cbn beta iota delta [bind] in Hkey.
  remember (wrap8 (neg1_pow_uint8 tf1 * wrap8 (wrap8 (1 - c0) + c1))) as cwn eqn:Hcwn.
  injection Hkey as <- <- <- <- <-.
  destruct (DPF_keygen_loop_words (bit_decomposition n alpha) n 0 s0 s1 0 1 [] sf0 sf1
              (tf0, tf1) CWf
              (bit_decomposition_bits n alpha) (or_introl eq_refl) (or_intror eq_refl)
              eq_refl (Forall_nil _) Eloop) as [HF HL].
  split; [reflexivity|].
  split; [apply (broadcast_to_length lam _ _ E0)|].
  split; [apply (broadcast_to_length lam _ _ E1)|].
  split; [exact HL|]. split; [exact HF|].
  exists cwn. split; [reflexivity|]. rewrite Hcwn. apply wrap8_range.
Qed.

End Keys.

(* ------------------------------------------------------------------ *)
(** ** A failure in round 1 *)

Lemma plan_1_outcome (type_op : string) (q : queue) (x y : Z) (st : CryptoStore) :
  In (type_op, q) op_types ->
  plan_1 type_op x y st
  = match read q st with
    | p :: _ => (Ok (wrap64 (wrap64 (x - y) + first_entry p)), st)
    | [] => (Raise (EmptyCryptoPrimitiveStoreError st ("fss_" ++ type_op)), st)
    end.
Proof.
  intros [Hin|[Hin|[]]]; injection Hin as <- <-;
    unfold plan_1, mask_builder, bindS, ret, get_keys;
    cbn [String.eqb Ascii.eqb Bool.eqb primitive_stack_of read];
    [destruct (fss_eq st) | destruct (fss_comp st)]; reflexivity.
Qed.

Lemma round_1_failure (type_op : string) (q : queue) (x1 x2 : list Z) (w : workers)
    (i : nat) (locations : list nat) :
  In (type_op, q) op_types ->
  (forall j, In j locations ->
             (j < List.length x1)%nat /\ (j < List.length x2)%nat /\ (j < List.length w)%nat) ->
  In i locations ->
  (exists st, nth_error w i = Some st /\ read q st = []) ->
  exists st,
    for_each locations (fun location =>
      bindO (liftO (getitem x1 location)) (fun a1 =>
      bindO (liftO (getitem x2 location)) (fun a2 =>
      request_run_plan (plan_1 type_op a1 a2) location))) w
    = (Raise (EmptyCryptoPrimitiveStoreError st ("fss_" ++ type_op)), w) /\
    In st w /\ read q st = [].
Proof.
  intros Hop. induction locations as [|j locations IH]; intros Hin Hi Hempty; [contradiction|].
  destruct (Hin j (or_introl eq_refl)) as (L1 & L2 & Lw).
  destruct (nth_error x1 j) as [a1|] eqn:E1; [|apply nth_error_None in E1; lia].
  destruct (nth_error x2 j) as [a2|] eqn:E2; [|apply nth_error_None in E2; lia].
  destruct (nth_error w j) as [st|] eqn:Ew; [|apply nth_error_None in Ew; lia].
  cbn [for_each]. unfold bindO at 1. unfold bindO at 1. unfold liftO at 1, getitem at 1.
  rewrite E1. unfold bindO at 1. unfold liftO at 1, getitem at 1. rewrite E2.
  unfold request_run_plan at 1. rewrite Ew, (plan_1_outcome type_op q a1 a2 st Hop).
  destruct (read q st) as [|p rest] eqn:Eq.
  - exists st. rewrite (set_nth_same w j st Ew).
    split; [reflexivity|]. split; [eapply nth_error_In, Ew | exact Eq].
  - rewrite (set_nth_same w j st Ew).
    assert (Hi' : In i locations).
    { destruct Hi as [<-|Hi]; [|exact Hi].
      destruct Hempty as (st' & Ew' & Eq'). rewrite Ew in Ew'. injection Ew' as <-.
      rewrite Eq in Eq'. discriminate Eq'. }
    destruct (IH (fun j' Hj' => Hin j' (or_intror Hj')) Hi' Hempty) as (st' & Hrun & Hst').
    exists st'. unfold bindO at 1. rewrite Hrun. split; [reflexivity | exact Hst'].
Qed.

(** X28.  A failure in round 1 consumes nothing.  When the stores of the
    locations hold the shares of both operands and the queue of the
    operation ("eq" or "comp") is empty at one of them, [fss_op] raises the
    out-of-primitives error of the first such worker and every store is as
    it was: the mask plans of the workers before it only read their keys. *)
Theorem fss_op_round_1_failure :
  forall (lam n : nat) (sha3_256 : list byte -> list byte)
         (type_op : string) (q : queue) (x1 x2 : list Z) (w : workers) (i : nat),
    In (type_op, q) op_types ->
    List.length x2 = List.length x1 ->
    List.length w = List.length x1 ->
    (exists st, nth_error w i = Some st /\ read q st = []) ->
    exists st,
      fss_op lam n sha3_256 x1 x2 type_op w
      = (Raise (EmptyCryptoPrimitiveStoreError st ("fss_" ++ type_op)), w) /\
      In st w /\ read q st = [].
Proof.
  intros lam n sha3_256 type_op q x1 x2 w i Hop L2 Lw Hempty.
  assert (Hi : In i (seq 0 (List.length x1))).
  { destruct Hempty as (st & Ew & _). apply in_seq.
    pose proof (proj1 (nth_error_Some w i) ltac:(now rewrite Ew)). lia. }
  destruct (round_1_failure type_op q x1 x2 w i (seq 0 (List.length x1)) Hop
              ltac:(intros j Hj; apply in_seq in Hj; lia) Hi Hempty)
    as (st & Hrun & Hst).
  exists st. unfold fss_op. cbv zeta. unfold bindO at 1. rewrite Hrun.
  split; [reflexivity | exact Hst].
Qed.
(* ------------------------------------------------------------------ *)
(** ** Evaluations with the hash of the source, λ = 110 and n = 32 *)

(** C1.  The keys [DPF.keygen] draws for the hidden point 81 from the seeds
    0...0 and 1...1.  With the party given as [fss_op] gives it, a one-entry
    int32 tensor, the evaluations at x = 81 are 0 and -255 and add up to
    2^32 - 255 modulo M = 2^32, not to 1.  With the party given as a Python
    int, the evaluations at x = 0 are 228 and 28 and add up to 256, not to
    0.  The leaf correction and the last step of [eval] are uint8. *)
Theorem DPF_shares_at_hidden_point_81 :
  dpf_run 81 81 (IntTensor 0) (IntTensor 1) = Ok (81, [0], [-255], [4294967041]) /\
  dpf_run 81 0 (PyInt 0) (PyInt 1) = Ok (81, [228], [28], [256]).
Proof. split; vm_compute; reflexivity. Qed.

(** The same keys in the cases where the sum is right: the int32 party away
    from the hidden point, and the Python int party at it. *)
Lemma DPF_shares_81_right_cases :
  dpf_run 81 0 (IntTensor 0) (IntTensor 1) = Ok (81, [228], [-228], [0]) /\
  dpf_run 81 81 (PyInt 0) (PyInt 1) = Ok (81, [0], [1], [1]).
Proof. split; vm_compute; reflexivity. Qed.

(** With the hidden point 5 the Python int parties return 163 and 94 at
    x = 5: the sum is 257. *)
Lemma DPF_shares_at_hidden_point_5 :
  dpf_run 5 5 (PyInt 0) (PyInt 1) = Ok (5, [163], [94], [257]).
Proof. vm_compute. reflexivity. Qed.

(** C2.  The keys [DIF.keygen] returns for the threshold 5 from the rows
    1, 0, ..., 0 and 1, ..., 1 (32 correction words), evaluated at
    x = 1971438730: both parties raise a RuntimeError instead of returning
    xor shares of 0.  At level 31 both hold a seed whose digest starts with
    35 zero bits; [H] returns 221 entries for it instead of 224 and the xor
    with the correction word fails. *)
Theorem DIF_eval_raises_on_short_digest :
  dif_run 5 (1 :: repeat 0 109) (repeat 1 lam0) 1971438730
  = Ok (5, 32%nat, Raise RuntimeError, Raise RuntimeError).
Proof. vm_compute. reflexivity. Qed.

(** The seed that the two parties share at level 31 of that evaluation, and
    what the expanders return for it: [H] 221 entries and [G] 221 entries,
    fewer than the 2(λ+2) = 224 and 2(λ+1) = 222 their callers split. *)
Lemma expanders_short_on_short_seed :
  level_seed 5 (1 :: repeat 0 109) (repeat 1 lam0) 1 1971438730 31 = short_seed /\
  List.length short_seed = lam0 /\
  firstn 5 (digest_of Keccak.sha3_256 short_seed)
  = [x00; x00; x00; x00; x1d] /\
  (h <- H lam0 Keccak.sha3_256 short_seed ;; Ok (List.length h)) = Ok 221%nat /\
  (g <- G lam0 Keccak.sha3_256 short_seed ;; Ok (List.length g)) = Ok 221%nat.
Proof.
  split; [vm_compute; reflexivity|]. split; [vm_compute; reflexivity|].
  split; [vm_compute; reflexivity|]. split; vm_compute; reflexivity.
Qed.

(** At other inputs the same keys evaluate: at x = 3 the shares are xor
    shares of 1, at x = 7 of 0. *)
Lemma dif_run_returns_elsewhere :
  (r <- dif_run 5 (1 :: repeat 0 109) (repeat 1 lam0) 3 ;;
   let '(_, _, e0, e1) := r in v0 <- e0 ;; v1 <- e1 ;; Ok (Z.lxor v0 v1)) = Ok 1 /\
  (r <- dif_run 5 (1 :: repeat 0 109) (repeat 1 lam0) 7 ;;
   let '(_, _, e0, e1) := r in v0 <- e0 ;; v1 <- e1 ;; Ok (Z.lxor v0 v1)) = Ok 0.
Proof. split; vm_compute; reflexivity. Qed.

(** C3.  [le] on x = 0, shared as 0 + 0, and y = 2^30, shared as 2^30 + 0,
    with alpha = 5: the masked value is 2^32 - 2^30 + 5, above alpha, the
    shares returned are 7 and -7, and they reconstruct to 0 although
    0 <= 2^30. *)
Theorem le_of_0_and_2pow30 :
  le_run [0; 0] [2 ^ 30; 0] = Ok (5, [7; -7], 0).
Proof. vm_compute. reflexivity. Qed.

(** The same keys on x = 1, shared as 7 + (2^32 - 6), and y = 2, shared as
    3 + (2^32 - 1): the distance is below alpha and the answer is right. *)
Lemma le_of_1_and_2 :
  le_run [7; 4294967290] [3; 4294967295] = Ok (5, [-7; 8], 1).
Proof. vm_compute. reflexivity. Qed.

(** With alpha = 0 the comparison of 0 and 1 is already wrong: the masked
    value is 2^32 - 1. *)
Lemma le_of_0_and_1 :
  (k <- DIF_keygen lam0 n0 Keccak.sha3_256 0 (repeat 0 lam0) (repeat 1 lam0) ;;
   let '(alpha, s00, s01, CW) := k in
   let w := [comp_store 0 s00 CW 0 0; comp_store 0 s01 CW 0 0] in
   shares <- fst (Fss.le lam0 n0 Keccak.sha3_256 [0; 0] [1; 0] w) ;;
   Ok (alpha, shares, reconstruct n0 shares))
  = Ok (0, [0; 0], 0).
Proof. vm_compute. reflexivity. Qed.

(** C6.  On the seed 0, 1, 0, ..., 0 the digest starts with the bits
    0, 0, 1, 1, and [G] returns the 222 bits that follow the two leading
    zeros, not the leading 222 bits of the digest: [bin] drops leading
    zeros. *)
Theorem G_skips_leading_zero_bits :
  let seed := 0 :: 1 :: repeat 0 108 in
  let digest := digest_of Keccak.sha3_256 seed in
  List.length seed = lam0 /\
  firstn 4 (digest_bits digest) = [0; 0; 1; 1] /\
  G lam0 Keccak.sha3_256 seed = Ok (firstn 222 (skipn 2 (digest_bits digest))) /\
  G lam0 Keccak.sha3_256 seed <> Ok (firstn (2 * (lam0 + 1)) (digest_bits digest)).
Proof.
  cbv zeta. split; [reflexivity|]. split; [vm_compute; reflexivity|].
  split; [vm_compute; reflexivity|].
  intros Heq.
  assert (Hhd : (g <- G lam0 Keccak.sha3_256 (0 :: 1 :: repeat 0 108) ;; Ok (hd 0 g))
                = Ok 0).
  { rewrite Heq. vm_compute. reflexivity. }
  vm_compute in Hhd. discriminate Hhd.
Qed.

(** When the digest is smaller than 2^(k-1) the output has fewer than k
    entries. *)
Lemma G_short_output (lam : nat) (sha3_256 : list byte -> list byte) (seed : tensor) :
  List.length seed = lam ->
  int_from_bytes_big (digest_of sha3_256 seed) < 2 ^ Z.of_nat (2 * (lam + 1) - 1) ->
  (0 < lam)%nat ->
  exists g, G lam sha3_256 seed = Ok g /\ (List.length g < 2 * (lam + 1))%nat.
Proof.
  intros Hlen Hsmall Hlam. rewrite (G_sig_bits _ _ _ Hlen).
  eexists. split; [reflexivity|].
  rewrite length_firstn.
  destruct (int_from_bytes_big (digest_of sha3_256 seed)) as [|p|p];
    cbn [sig_bits List.length]; try lia.
  rewrite pos_bits_length. cbn [List.length].
  pose proof (size_nat_bound p _ Hsmall). lia.
Qed.

(** C7, the claim refuted.  With λ = 128 the requested widths are 258 and
    260 bits; on the seed 0...0 both expanders return, with 249 entries. *)
Lemma G_H_wide_request_returns :
  exists g h,
    G 128 Keccak.sha3_256 (repeat 0 128) = Ok g /\
    H 128 Keccak.sha3_256 (repeat 0 128) = Ok h /\
    List.length g = 249%nat /\ List.length h = 249%nat /\
    (256 < 2 * (128 + 1))%nat /\ (256 < 2 * (128 + 2))%nat.
Proof.
  eexists. eexists.
  split; [vm_compute; reflexivity|].
  split; [vm_compute; reflexivity|].
  repeat split; try reflexivity; lia.
Qed.

(** C5, the claim refuted.  The 110 bits that spell 2^8 convert to 0, not
    to 2^8 modulo 2^32. *)
Lemma Convert_is_not_value_mod_2n :
  ~ (forall bits : tensor,
       List.length bits = lam0 -> Forall is_bit bits ->
       Convert lam0 bits = Ok (msb_value bits mod 2 ^ Z.of_nat n0)).
Proof.
  intros Hclaim.
  specialize (Hclaim (repeat 0 101 ++ [1] ++ repeat 0 8) eq_refl).
  assert (Hbits : Forall is_bit (repeat 0 101 ++ [1] ++ repeat 0 8))
    by (apply forallb_bits; reflexivity).
  specialize (Hclaim Hbits). vm_compute in Hclaim. discriminate Hclaim.
Qed.

(** C4, the claim refuted.  The couple with the xor shares 2 and 0 and the
    additive shares 2 and 0 satisfies xor_0 ^ xor_1 = add_0 + add_1 mod M,
    but what it hides is not a bit.  For the bit 0 shared as 0 ^ 0 the
    masked value is 2, the outputs of round 3 are -6 and 2, and they add up
    to 2^32 - 4 modulo M = 2^32, not to 0. *)
Lemma xor_add_convert_needs_hidden_bit :
  let st0 := mkStore [] [] [XorAddCouple 2 2] in
  let st1 := mkStore [] [] [XorAddCouple 0 0] in
  is_bit 0 /\ Z.lxor 0 0 = 0 /\
  Z.lxor 2 0 = (2 + 0) mod 2 ^ Z.of_nat n0 /\
  xor_add_convert_1 0 st0 = (Ok 2, st0) /\
  xor_add_convert_1 0 st1 = (Ok 0, st1) /\
  xor_add_convert_2 0 (Z.lxor 2 0) st0 = (Ok (-6), mkStore [] [] []) /\
  xor_add_convert_2 1 (Z.lxor 2 0) st1 = (Ok 2, mkStore [] [] []) /\
  (-6 + 2) mod 2 ^ Z.of_nat n0 = 4294967292 /\
  (-6 + 2) mod 2 ^ Z.of_nat n0 <> 0.
Proof.
  cbv zeta. split; [left; reflexivity|].
  repeat (split; [reflexivity|]). vm_compute. discriminate.
Qed.

(* ------------------------------------------------------------------ *)
(** ** Instances of the theorems *)

Lemma DIF_correct_witness :
  (n0 <= 63)%nat /\
  0 <= 5 < 2 ^ Z.of_nat n0 /\
  0 <= 3 < 2 ^ Z.of_nat n0 /\
  DIF_keygen lam0 n0 Keccak.sha3_256 5 (repeat 0 lam0) (repeat 1 lam0)
  = Ok (5, repeat 0 lam0, repeat 1 lam0, dif_CW_5) /\
  DIF_eval lam0 n0 Keccak.sha3_256 0 3 (repeat 0 lam0, dif_CW_5) = Ok 0 /\
  DIF_eval lam0 n0 Keccak.sha3_256 1 3 (repeat 1 lam0, dif_CW_5) = Ok 1 /\
  Z.lxor 0 1 = (if 3 <=? 5 then 1 else 0).
Proof.
  assert (Hn : (n0 <= 63)%nat) by (unfold n0; lia).
  assert (Ha : 0 <= 5 < 2 ^ Z.of_nat n0) by (change (2 ^ Z.of_nat n0) with 4294967296; lia).
  assert (Hx : 0 <= 3 < 2 ^ Z.of_nat n0) by (change (2 ^ Z.of_nat n0) with 4294967296; lia).
  assert (Hkey : DIF_keygen lam0 n0 Keccak.sha3_256 5 (repeat 0 lam0) (repeat 1 lam0)
                 = Ok (5, repeat 0 lam0, repeat 1 lam0, dif_CW_5))
    by (vm_compute; reflexivity).
  assert (Hev0 : DIF_eval lam0 n0 Keccak.sha3_256 0 3 (repeat 0 lam0, dif_CW_5) = Ok 0)
    by (vm_compute; reflexivity).
  assert (Hev1 : DIF_eval lam0 n0 Keccak.sha3_256 1 3 (repeat 1 lam0, dif_CW_5) = Ok 1)
    by (vm_compute; reflexivity).
  repeat (split; [assumption|]).
  exact (DIF_correct lam0 n0 Keccak.sha3_256 5 (repeat 0 lam0) (repeat 1 lam0)
           5 (repeat 0 lam0) (repeat 1 lam0) dif_CW_5 3 0 1 Hn Ha Hx Hkey Hev0 Hev1).
Defined.

Lemma G_is_prefix_of_H_witness :
  List.length (repeat 0 110) = lam0 /\
  exists g h,
    G lam0 Keccak.sha3_256 (repeat 0 110) = Ok g /\
    H lam0 Keccak.sha3_256 (repeat 0 110) = Ok h /\
    g = firstn (2 * (lam0 + 1)) h.
Proof.
  split; [reflexivity|].
  apply (G_is_prefix_of_H lam0 Keccak.sha3_256 (repeat 0 110)). reflexivity.
Defined.

Lemma G_H_have_no_width_guard_witness :
  List.length (repeat 0 128) = 128%nat /\
  List.length (digest_of Keccak.sha3_256 (repeat 0 128)) = 32%nat /\
  exists g h,
    G 128 Keccak.sha3_256 (repeat 0 128) = Ok g /\
    H 128 Keccak.sha3_256 (repeat 0 128) = Ok h /\
    (List.length g <= 256)%nat /\ (List.length h <= 256)%nat.
Proof.
  split; [reflexivity|]. split; [vm_compute; reflexivity|].
  apply (G_H_have_no_width_guard 128 Keccak.sha3_256 (repeat 0 128)).
  - reflexivity.
  - vm_compute; reflexivity.
Defined.

Lemma Convert_is_value_mod_256_witness :
  List.length (repeat 1 110) = lam0 /\
  Convert lam0 (repeat 1 110) = Ok (msb_value (repeat 1 110) mod 2 ^ 8).
Proof.
  split; [reflexivity|].
  apply (Convert_is_value_mod_256 lam0 (repeat 1 110)). reflexivity.
Defined.

Lemma get_keys_empty_queue_witness :
  let st := mkStore [] [CompKey 0 [] []] [] in
  In ("xor_add"%string, Q_xor_add_couple) queue_types /\
  read Q_xor_add_couple st = [] /\
  get_keys "xor_add" true st
  = (Raise (EmptyCryptoPrimitiveStoreError st "fss_xor_add"), st).
Proof.
  cbv zeta. split; [right; right; left; reflexivity|]. split; [reflexivity|].
  apply (get_keys_empty_queue "xor_add" Q_xor_add_couple true
           (mkStore [] [CompKey 0 [] []] [])).
  - right; right; left; reflexivity.
  - reflexivity.
Defined.

Lemma xor_add_convert_sound_witness :
  let st0 := mkStore [] [] [XorAddCouple 1 (-7)] in
  let st1 := mkStore [] [] [XorAddCouple 0 8] in
  xor_add_couple st0 = [XorAddCouple 1 (-7)] /\
  xor_add_couple st1 = [XorAddCouple 0 8] /\
  is_bit 1 /\ Z.lxor 1 0 = 1 /\ is_bit (Z.lxor 1 0) /\
  Z.lxor 1 0 = (-7 + 8) mod 2 ^ Z.of_nat n0 /\
  exists m0 m1 o0 o1 st0' st1',
    xor_add_convert_1 1 st0 = (Ok m0, st0) /\
    xor_add_convert_1 0 st1 = (Ok m1, st1) /\
    xor_add_convert_2 0 (Z.lxor m0 m1) st0 = (Ok o0, st0') /\
    xor_add_convert_2 1 (Z.lxor m0 m1) st1 = (Ok o1, st1') /\
    xor_add_couple st0' = [] /\ xor_add_couple st1' = [] /\
    (o0 + o1) mod 2 ^ Z.of_nat n0 = 1.
Proof.
  cbv zeta.
  split; [reflexivity|]. split; [reflexivity|]. split; [right; reflexivity|].
  split; [reflexivity|]. split; [right; reflexivity|]. split; [reflexivity|].
  apply (xor_add_convert_sound
           (mkStore [] [] [XorAddCouple 1 (-7)]) (mkStore [] [] [XorAddCouple 0 8])
           [] [] 1 (-7) 0 8 1 0 1).
  - reflexivity.
  - reflexivity.
  - right; reflexivity.
  - reflexivity.
  - right; reflexivity.
  - reflexivity.
Defined.

(* ------------------------------------------------------------------ *)
(** ** Instances of the further theorems *)

Lemma DPF_shares_int32_witness :
  DPF_keygen lam0 n0 Keccak.sha3_256 81 (repeat 0 lam0) (repeat 1 lam0)
  = Ok (81, repeat 0 lam0, repeat 1 lam0, dpf_CW_81, [173]) /\
  DPF_eval lam0 n0 Keccak.sha3_256 (IntTensor 0) 81 (repeat 0 lam0, dpf_CW_81, [173]) = Ok [0] /\
  DPF_eval lam0 n0 Keccak.sha3_256 (IntTensor 1) 81 (repeat 1 lam0, dpf_CW_81, [173])
  = Ok [-255] /\
  exists y0 y1,
    [0] = [y0] /\ [-255] = [y1] /\
    (y0 + y1) mod 2 ^ 8 = (if 81 =? 81 then 1 else 0) /\
    (if 81 =? 81 then y0 + y1 = 1 \/ y0 + y1 = -255 else y0 + y1 = 0).
Proof.
  assert (Hn : (n0 <= 63)%nat) by (unfold n0; lia).
  assert (Ha : 0 <= 81 < 2 ^ Z.of_nat n0) by (change (2 ^ Z.of_nat n0) with 4294967296; lia).
  assert (Hkey : DPF_keygen lam0 n0 Keccak.sha3_256 81 (repeat 0 lam0) (repeat 1 lam0)
                 = Ok (81, repeat 0 lam0, repeat 1 lam0, dpf_CW_81, [173]))
    by (vm_compute; reflexivity).
  assert (Hev0 : DPF_eval lam0 n0 Keccak.sha3_256 (IntTensor 0) 81
                   (repeat 0 lam0, dpf_CW_81, [173]) = Ok [0])
    by (vm_compute; reflexivity).
  assert (Hev1 : DPF_eval lam0 n0 Keccak.sha3_256 (IntTensor 1) 81
                   (repeat 1 lam0, dpf_CW_81, [173]) = Ok [-255])
    by (vm_compute; reflexivity).
  repeat (split; [assumption|]).
  exact (DPF_shares_int32 lam0 n0 Keccak.sha3_256 81 (repeat 0 lam0) (repeat 1 lam0)
           81 (repeat 0 lam0) (repeat 1 lam0) dpf_CW_81 [173] 81 [0] [-255]
           Hn Ha Ha Hkey Hev0 Hev1).
Defined.

Lemma DPF_shares_uint8_witness :
  DPF_eval lam0 n0 Keccak.sha3_256 (PyInt 0) 0 (repeat 0 lam0, dpf_CW_81, [173]) = Ok [228] /\
  DPF_eval lam0 n0 Keccak.sha3_256 (PyInt 1) 0 (repeat 1 lam0, dpf_CW_81, [173]) = Ok [28] /\
  exists y0 y1,
    [228] = [y0] /\ [28] = [y1] /\ 0 <= y0 < 256 /\ 0 <= y1 < 256 /\
    (y0 + y1) mod 2 ^ 8 = (if 0 =? 81 then 1 else 0).
Proof.
  assert (Hn : (n0 <= 63)%nat) by (unfold n0; lia).
  assert (Ha : 0 <= 81 < 2 ^ Z.of_nat n0) by (change (2 ^ Z.of_nat n0) with 4294967296; lia).
  assert (Hx : 0 <= 0 < 2 ^ Z.of_nat n0) by (change (2 ^ Z.of_nat n0) with 4294967296; lia).
  assert (Hkey : DPF_keygen lam0 n0 Keccak.sha3_256 81 (repeat 0 lam0) (repeat 1 lam0)
                 = Ok (81, repeat 0 lam0, repeat 1 lam0, dpf_CW_81, [173]))
    by (vm_compute; reflexivity).
  assert (Hev0 : DPF_eval lam0 n0 Keccak.sha3_256 (PyInt 0) 0
                   (repeat 0 lam0, dpf_CW_81, [173]) = Ok [228])
    by (vm_compute; reflexivity).
  assert (Hev1 : DPF_eval lam0 n0 Keccak.sha3_256 (PyInt 1) 0
                   (repeat 1 lam0, dpf_CW_81, [173]) = Ok [28])
    by (vm_compute; reflexivity).
  repeat (split; [assumption|]).
  exact (DPF_shares_uint8 lam0 n0 Keccak.sha3_256 81 (repeat 0 lam0) (repeat 1 lam0)
           81 (repeat 0 lam0) (repeat 1 lam0) dpf_CW_81 [173] 0 [228] [28]
           Hn Ha Hx Hkey Hev0 Hev1).
Defined.

Lemma get_keys_pop_head_witness :
  let st := mkStore [EqKey 7 [] [] []] [CompKey 1 [] []; CompKey 2 [] []] [] in
  exists st',
    get_keys "comp" true st = (Ok (CompKey 1 [] []), st') /\
    read Q_fss_comp st' = [CompKey 2 [] []] /\
    forall q', q' <> Q_fss_comp -> read q' st' = read q' st.
Proof.
  cbv zeta.
  apply (get_keys_pop_head "comp" Q_fss_comp (CompKey 1 [] []) [CompKey 2 [] []]
           (mkStore [EqKey 7 [] [] []] [CompKey 1 [] []; CompKey 2 [] []] [])).
  - right; left; reflexivity.
  - reflexivity.
Defined.

Lemma get_keys_read_then_pop_witness :
  let st := mkStore [] [] [XorAddCouple 1 (-7)] in
  get_keys "xor_add" false st = (Ok (XorAddCouple 1 (-7)), st) /\
  (st = st /\ exists st'', get_keys "xor_add" true st = (Ok (XorAddCouple 1 (-7)), st'')).
Proof.
  cbv zeta. split; [reflexivity|].
  apply (get_keys_read_then_pop "xor_add" (XorAddCouple 1 (-7))
           (mkStore [] [] [XorAddCouple 1 (-7)]) (mkStore [] [] [XorAddCouple 1 (-7)])).
  reflexivity.
Defined.

Lemma get_keys_fifo_witness :
  let st := mkStore [] [CompKey 1 [] []; CompKey 2 [] []; CompKey 3 [] []] [] in
  get_keys_times "comp" 2 st
  = (Ok (firstn 2 (read Q_fss_comp st)), write Q_fss_comp (skipn 2 (read Q_fss_comp st)) st).
Proof.
  cbv zeta.
  apply (get_keys_fifo "comp" Q_fss_comp 2
           (mkStore [] [CompKey 1 [] []; CompKey 2 [] []; CompKey 3 [] []] [])).
  - right; left; reflexivity.
  - cbn. lia.
Defined.

Lemma get_keys_past_the_end_witness :
  let st := mkStore [EqKey 1 [] [] []; EqKey 2 [] [] []] [] [] in
  get_keys_times "eq" (S (List.length (read Q_fss_eq st))) st
  = (Raise (EmptyCryptoPrimitiveStoreError (write Q_fss_eq [] st) ("fss_" ++ "eq")),
     write Q_fss_eq [] st).
Proof.
  cbv zeta.
  apply (get_keys_past_the_end "eq" Q_fss_eq
           (mkStore [EqKey 1 [] [] []; EqKey 2 [] [] []] [] [])).
  left; reflexivity.
Defined.

Lemma get_keys_unknown_type_witness :
  let st := mkStore [] [CompKey 1 [] []] [] in
  get_keys "mul" true st = (Raise KeyError, st).
Proof.
  cbv zeta.
  apply (get_keys_unknown_type "mul" true (mkStore [] [CompKey 1 [] []] []));
    discriminate.
Defined.

Lemma mask_builder_opens_masked_difference_witness :
  let st0 := mkStore [] [CompKey 2 [] []] [] in
  let st1 := mkStore [] [CompKey 3 [] []] [] in
  exists m0 m1,
    mask_builder 7 3 "comp" st0 = (Ok m0, st0) /\
    mask_builder 4294967290 4294967295 "comp" st1 = (Ok m1, st1) /\
    sum_shares [m0; m1] mod 2 ^ Z.of_nat 32
    = ((7 + 4294967290) - (3 + 4294967295)
       + (first_entry (CompKey 2 [] []) + first_entry (CompKey 3 [] []))) mod 2 ^ Z.of_nat 32.
Proof.
  cbv zeta.
  apply (mask_builder_opens_masked_difference "comp" Q_fss_comp 32
           (CompKey 2 [] []) (CompKey 3 [] []) [] []
           (mkStore [] [CompKey 2 [] []] []) (mkStore [] [CompKey 3 [] []] [])
           7 3 4294967290 4294967295).
  - right; left; reflexivity.
  - lia.
  - reflexivity.
  - reflexivity.
Defined.

Lemma eval_plan_consumes_key_witness :
  let st := mkStore [] [CompKey 5 (repeat 0 lam0) dif_CW_5; CompKey 6 [] []] [] in
  snd (plan_2 lam0 n0 Keccak.sha3_256 "comp" 0 4 st)
  = write Q_fss_comp [CompKey 6 [] []] st.
Proof.
  cbv zeta.
  apply (eval_plan_consumes_key lam0 n0 Keccak.sha3_256 "comp" Q_fss_comp 0 4
           (CompKey 5 (repeat 0 lam0) dif_CW_5) [CompKey 6 [] []]
           (mkStore [] [CompKey 5 (repeat 0 lam0) dif_CW_5; CompKey 6 [] []] [])).
  - right; left; reflexivity.
  - reflexivity.
Defined.

Lemma G_H_reject_wrong_seed_length_witness :
  G lam0 Keccak.sha3_256 [0; 1] = Raise AssertionError /\
  H lam0 Keccak.sha3_256 [0; 1] = Raise AssertionError.
Proof.
  apply (G_H_reject_wrong_seed_length lam0 Keccak.sha3_256 [0; 1]).
  cbn. unfold lam0. lia.
Defined.

Lemma G_H_output_starts_with_1_witness :
  exists g h,
    G lam0 Keccak.sha3_256 (repeat 0 lam0) = Ok (1 :: g) /\ Forall is_bit g /\
    H lam0 Keccak.sha3_256 (repeat 0 lam0) = Ok (1 :: h) /\ Forall is_bit h.
Proof.
  apply (G_H_output_starts_with_1 lam0 Keccak.sha3_256 (repeat 0 lam0)).
  - reflexivity.
  - intros Hz. vm_compute in Hz. discriminate Hz.
Defined.

Lemma G_H_full_width_iff_witness :
  exists g h,
    G lam0 Keccak.sha3_256 short_seed = Ok g /\
    H lam0 Keccak.sha3_256 short_seed = Ok h /\
    (List.length g <= 2 * (lam0 + 1))%nat /\
    (List.length h <= 2 * (lam0 + 2))%nat /\
    (List.length g = (2 * (lam0 + 1))%nat
     <-> 2 ^ Z.of_nat (2 * (lam0 + 1) - 1)
         <= int_from_bytes_big (digest_of Keccak.sha3_256 short_seed)) /\
    (List.length h = (2 * (lam0 + 2))%nat
     <-> 2 ^ Z.of_nat (2 * (lam0 + 2) - 1)
         <= int_from_bytes_big (digest_of Keccak.sha3_256 short_seed)).
Proof.
  apply (G_H_full_width_iff lam0 Keccak.sha3_256 short_seed). reflexivity.
Defined.

Lemma seed_encoding_round_trip_witness :
  seed_of_bytes (encode (str_list [0; 1; 1])) = [0; 1; 1] /\
  ([0; 1; 1] <> [] -> List.length (encode (str_list [0; 1; 1])) = (3 * List.length [0; 1; 1])%nat).
Proof.
  apply (seed_encoding_round_trip [0; 1; 1]).
  apply forallb_bits. reflexivity.
Defined.

Lemma Convert_rejects_wrong_length_witness :
  Convert lam0 [1; 0; 1] = Raise RuntimeError.
Proof.
  apply (Convert_rejects_wrong_length lam0 [1; 0; 1]). cbn. unfold lam0. lia.
Defined.

Lemma Convert_reads_last_8_entries_witness :
  Convert lam0 (repeat 0 102 ++ [1; 0; 1; 0; 1; 1; 0; 1])
  = Convert lam0 (repeat 1 102 ++ [1; 0; 1; 0; 1; 1; 0; 1]).
Proof.
  apply (Convert_reads_last_8_entries lam0); reflexivity.
Defined.

Lemma bit_decomposition_round_trip_witness :
  List.length (bit_decomposition n0 5) = n0 /\
  Forall is_bit (bit_decomposition n0 5) /\
  msb_value (bit_decomposition n0 5) = 5.
Proof.
  apply (bit_decomposition_round_trip n0 5).
  - unfold n0. lia.
  - change (2 ^ Z.of_nat n0) with 4294967296. lia.
Defined.

Lemma bit_decomposition_reads_low_bits_witness :
  bit_decomposition n0 (-1 mod 2 ^ Z.of_nat n0) = bit_decomposition n0 (-1).
Proof.
  apply (bit_decomposition_reads_low_bits n0 (-1)).
  - unfold n0. lia.
  - lia.
Defined.

Lemma TruthTableDPF_layout_witness :
  TruthTableDPF 3 [1; 0; 1] 0 = Ok (([1; 0; 1] ++ [1]) ++ repeat 0 (3 + 1)) /\
  TruthTableDPF 3 [1; 0; 1] 1 = Ok (repeat 0 (3 + 1) ++ ([1; 0; 1] ++ [1])) /\
  forall a_i, a_i < -2 \/ 1 < a_i -> TruthTableDPF 3 [1; 0; 1] a_i = Raise IndexError.
Proof.
  apply (TruthTableDPF_layout 3 [1; 0; 1]). reflexivity.
Defined.

Lemma TruthTableDIF_layout_witness :
  TruthTableDIF 3 [1; 0; 1] 0 = Ok ((0 :: [1; 0; 1] ++ [1]) ++ (0 :: repeat 0 (3 + 1))) /\
  TruthTableDIF 3 [1; 0; 1] 1 = Ok ((1 :: repeat 0 (3 + 1)) ++ (0 :: [1; 0; 1] ++ [1])) /\
  forall a_i, a_i <> 0 -> a_i <> 1 -> TruthTableDIF 3 [1; 0; 1] a_i = Raise IndexError.
Proof.
  apply (TruthTableDIF_layout 3 [1; 0; 1]). reflexivity.
Defined.

Lemma le_computes_masked_comparison_witness :
  exists o0 o1,
    fss_le_op lam0 n0 Keccak.sha3_256 [0; 0] [2 ^ 30; 0]
      [party_store [] 2 (repeat 0 lam0) dif_CW_5 [] 1 (-7) [];
       party_store [] 3 (repeat 1 lam0) dif_CW_5 [] 0 8 []]
    = (Ok [o0; o1], [mkStore [] [] []; mkStore [] [] []]) /\
    (o0 + o1) mod 2 ^ Z.of_nat n0
    = (if ((0 + 0) - (2 ^ 30 + 0) + 5) mod 2 ^ Z.of_nat n0 <=? 5 then 1 else 0).
Proof.
  assert (Ha : 0 <= 5 < 2 ^ Z.of_nat n0) by (change (2 ^ Z.of_nat n0) with 4294967296; lia).
  assert (Hshare : (2 + 3) mod 2 ^ Z.of_nat n0 = 5) by reflexivity.
  assert (Hkey : DIF_keygen lam0 n0 Keccak.sha3_256 5 (repeat 0 lam0) (repeat 1 lam0)
                 = Ok (5, repeat 0 lam0, repeat 1 lam0, dif_CW_5))
    by (vm_compute; reflexivity).
  assert (Hr : is_bit (Z.lxor 1 0)) by (right; reflexivity).
  assert (Hcouple : Z.lxor 1 0 = (-7 + 8) mod 2 ^ Z.of_nat n0) by reflexivity.
  assert (Hev0 : DIF_eval lam0 n0 Keccak.sha3_256 0
                   (((0 + 0) - (2 ^ 30 + 0) + 5) mod 2 ^ Z.of_nat n0)
                   (repeat 0 lam0, dif_CW_5) = Ok 1)
    by (vm_compute; reflexivity).
  assert (Hev1 : DIF_eval lam0 n0 Keccak.sha3_256 1
                   (((0 + 0) - (2 ^ 30 + 0) + 5) mod 2 ^ Z.of_nat n0)
                   (repeat 1 lam0, dif_CW_5) = Ok 1)
    by (vm_compute; reflexivity).
  exact (le_computes_masked_comparison lam0 Keccak.sha3_256 5 2 3
           (repeat 0 lam0) (repeat 1 lam0) (repeat 0 lam0) (repeat 1 lam0) dif_CW_5
           0 0 (2 ^ 30) 0 1 (-7) 0 8 [] [] [] [] [] [] 1 1
           Ha Hshare Hkey Hr Hcouple Hev0 Hev1).
Defined.

Lemma le_right_iff_no_wrap_witness :
  exists o0 o1,
    fss_le_op lam0 n0 Keccak.sha3_256 [1; 0] [2; 0]
      [party_store [] 2 (repeat 0 lam0) dif_CW_5 [] 1 (-7) [];
       party_store [] 3 (repeat 1 lam0) dif_CW_5 [] 0 8 []]
    = (Ok [o0; o1], [mkStore [] [] []; mkStore [] [] []]) /\
    ((o0 + o1) mod 2 ^ Z.of_nat n0
     = (if (1 + 0) mod 2 ^ Z.of_nat n0 <=? (2 + 0) mod 2 ^ Z.of_nat n0 then 1 else 0)
     <-> ((1 + 0) mod 2 ^ Z.of_nat n0 = (2 + 0) mod 2 ^ Z.of_nat n0 \/
          ((1 + 0) mod 2 ^ Z.of_nat n0 < (2 + 0) mod 2 ^ Z.of_nat n0 /\
           (2 + 0) mod 2 ^ Z.of_nat n0 - (1 + 0) mod 2 ^ Z.of_nat n0 <= 5) \/
          ((2 + 0) mod 2 ^ Z.of_nat n0 < (1 + 0) mod 2 ^ Z.of_nat n0 /\
           (1 + 0) mod 2 ^ Z.of_nat n0 - (2 + 0) mod 2 ^ Z.of_nat n0 + 5
           < 2 ^ Z.of_nat n0))).
Proof.
  assert (Ha : 0 <= 5 < 2 ^ Z.of_nat n0) by (change (2 ^ Z.of_nat n0) with 4294967296; lia).
  assert (Hshare : (2 + 3) mod 2 ^ Z.of_nat n0 = 5) by reflexivity.
  assert (Hkey : DIF_keygen lam0 n0 Keccak.sha3_256 5 (repeat 0 lam0) (repeat 1 lam0)
                 = Ok (5, repeat 0 lam0, repeat 1 lam0, dif_CW_5))
    by (vm_compute; reflexivity).
  assert (Hr : is_bit (Z.lxor 1 0)) by (right; reflexivity).
  assert (Hcouple : Z.lxor 1 0 = (-7 + 8) mod 2 ^ Z.of_nat n0) by reflexivity.
  assert (Hev0 : DIF_eval lam0 n0 Keccak.sha3_256 0
                   (((1 + 0) mod 2 ^ Z.of_nat n0 - (2 + 0) mod 2 ^ Z.of_nat n0 + 5)
                      mod 2 ^ Z.of_nat n0)
                   (repeat 0 lam0, dif_CW_5) = Ok 0)
    by (vm_compute; reflexivity).
  assert (Hev1 : DIF_eval lam0 n0 Keccak.sha3_256 1
                   (((1 + 0) mod 2 ^ Z.of_nat n0 - (2 + 0) mod 2 ^ Z.of_nat n0 + 5)
                      mod 2 ^ Z.of_nat n0)
                   (repeat 1 lam0, dif_CW_5) = Ok 1)
    by (vm_compute; reflexivity).
  exact (le_right_iff_no_wrap lam0 Keccak.sha3_256 5 2 3
           (repeat 0 lam0) (repeat 1 lam0) (repeat 0 lam0) (repeat 1 lam0) dif_CW_5
           1 0 2 0 1 (-7) 0 8 [] [] [] [] [] [] 0 1
           Ha Hshare Hkey Hr Hcouple Hev0 Hev1).
Defined.

Lemma le_without_couples_witness :
  fss_le_op lam0 n0 Keccak.sha3_256 [1; 0] [2; 0]
    [mkStore [] [CompKey 2 (repeat 0 lam0) dif_CW_5] [];
     mkStore [] [CompKey 3 (repeat 1 lam0) dif_CW_5] []]
  = (Raise (EmptyCryptoPrimitiveStoreError (mkStore [] [] []) "fss_xor_add"),
     [mkStore [] [] []; mkStore [] [] []]).
Proof.
  assert (Hkey : DIF_keygen lam0 n0 Keccak.sha3_256 5 (repeat 0 lam0) (repeat 1 lam0)
                 = Ok (5, repeat 0 lam0, repeat 1 lam0, dif_CW_5))
    by (vm_compute; reflexivity).
  assert (Hev0 : DIF_eval lam0 n0 Keccak.sha3_256 0 (mask_value 1 0 2 0 2 3)
                   (repeat 0 lam0, dif_CW_5) = Ok 0)
    by (vm_compute; reflexivity).
  assert (Hev1 : DIF_eval lam0 n0 Keccak.sha3_256 1 (mask_value 1 0 2 0 2 3)
                   (repeat 1 lam0, dif_CW_5) = Ok 1)
    by (vm_compute; reflexivity).
  exact (le_without_couples lam0 Keccak.sha3_256 5
           (repeat 0 lam0) (repeat 1 lam0) (repeat 0 lam0) (repeat 1 lam0) dif_CW_5
           1 0 2 0 2 3 [] [] [] [] 0 1 Hkey Hev0 Hev1).
Defined.

Lemma le_single_location_witness :
  fss_le_op lam0 n0 Keccak.sha3_256 [1] [2]
    [party_store [] 5 (repeat 0 lam0) dif_CW_5 [] 1 (-7) []]
  = (Raise IndexError, [mkStore [] [] [XorAddCouple 1 (-7)]]).
Proof.
  assert (Hkey : DIF_keygen lam0 n0 Keccak.sha3_256 5 (repeat 0 lam0) (repeat 1 lam0)
                 = Ok (5, repeat 0 lam0, repeat 1 lam0, dif_CW_5))
    by (vm_compute; reflexivity).
  assert (Hev0 : DIF_eval lam0 n0 Keccak.sha3_256 0
                   (sum_shares [wrap64 (wrap64 (1 - 2) + 5)] mod 2 ^ Z.of_nat n0)
                   (repeat 0 lam0, dif_CW_5) = Ok 0)
    by (vm_compute; reflexivity).
  exact (le_single_location lam0 Keccak.sha3_256 5
           (repeat 0 lam0) (repeat 1 lam0) (repeat 0 lam0) (repeat 1 lam0) dif_CW_5
           1 2 5 1 (-7) [] [] [] 0 Hkey Hev0).
Defined.

Lemma eq_shares_mod_256_witness :
  exists y0 y1,
    fss_eq_op lam0 n0 Keccak.sha3_256 [3; 4] [7; 0]
      [mkStore [EqKey 80 (repeat 0 lam0) dpf_CW_81 [173]] [] [];
       mkStore [EqKey 1 (repeat 1 lam0) dpf_CW_81 [173]] [] []]
    = (Ok [y0; y1], [mkStore [] [] []; mkStore [] [] []]) /\
    (y0 + y1) mod 2 ^ 8
    = (if (3 + 4) mod 2 ^ Z.of_nat n0 =? (7 + 0) mod 2 ^ Z.of_nat n0 then 1 else 0) /\
    (if (3 + 4) mod 2 ^ Z.of_nat n0 =? (7 + 0) mod 2 ^ Z.of_nat n0
     then y0 + y1 = 1 \/ y0 + y1 = -255
     else y0 + y1 = 0).
Proof.
  assert (Ha : 0 <= 81 < 2 ^ Z.of_nat n0) by (change (2 ^ Z.of_nat n0) with 4294967296; lia).
  assert (Hshare : (80 + 1) mod 2 ^ Z.of_nat n0 = 81) by reflexivity.
  assert (Hkey : DPF_keygen lam0 n0 Keccak.sha3_256 81 (repeat 0 lam0) (repeat 1 lam0)
                 = Ok (81, repeat 0 lam0, repeat 1 lam0, dpf_CW_81, [173]))
    by (vm_compute; reflexivity).
  assert (Hev0 : DPF_eval lam0 n0 Keccak.sha3_256 (IntTensor 0)
                   (((3 + 4) - (7 + 0) + 81) mod 2 ^ Z.of_nat n0)
                   (repeat 0 lam0, dpf_CW_81, [173]) = Ok [0])
    by (vm_compute; reflexivity).
  assert (Hev1 : DPF_eval lam0 n0 Keccak.sha3_256 (IntTensor 1)
                   (((3 + 4) - (7 + 0) + 81) mod 2 ^ Z.of_nat n0)
                   (repeat 1 lam0, dpf_CW_81, [173]) = Ok [-255])
    by (vm_compute; reflexivity).
  exact (eq_shares_mod_256 lam0 Keccak.sha3_256 81 80 1
           (repeat 0 lam0) (repeat 1 lam0) (repeat 0 lam0) (repeat 1 lam0) dpf_CW_81 [173]
           3 4 7 0 [] [] [] [] [] [] [0] [-255]
           Ha Hshare Hkey Hev0 Hev1).
Defined.

Lemma DIF_keygen_key_shape_witness :
  5 = 5 /\
  List.length (repeat 0 lam0) = lam0 /\ List.length (repeat 1 lam0) = lam0 /\
  List.length dif_CW_5 = n0 /\
  Forall (word_of (2 * (lam0 + 2))) dif_CW_5.
Proof.
  apply (DIF_keygen_key_shape lam0 Keccak.sha3_256 n0 5 (repeat 0 lam0) (repeat 1 lam0)
           5 (repeat 0 lam0) (repeat 1 lam0) dif_CW_5).
  vm_compute. reflexivity.
Defined.

Lemma DPF_keygen_key_shape_witness :
  81 = 81 /\
  List.length (repeat 0 lam0) = lam0 /\ List.length (repeat 1 lam0) = lam0 /\
  List.length dpf_CW_81 = n0 /\
  Forall (word_of (2 * (lam0 + 1))) dpf_CW_81 /\
  exists c, [173] = [c] /\ 0 <= c < 256.
Proof.
  apply (DPF_keygen_key_shape lam0 Keccak.sha3_256 n0 81 (repeat 0 lam0) (repeat 1 lam0)
           81 (repeat 0 lam0) (repeat 1 lam0) dpf_CW_81 [173]).
  vm_compute. reflexivity.
Defined.

Lemma fss_op_round_1_failure_witness :
  let w := [mkStore [] [CompKey 0 [] []] []; mkStore [EqKey 1 [] [] []] [] []] in
  exists st,
    fss_op lam0 n0 Keccak.sha3_256 [0; 0] [1; 0] "comp" w
    = (Raise (EmptyCryptoPrimitiveStoreError st ("fss_" ++ "comp")), w) /\
    In st w /\ read Q_fss_comp st = [].
Proof.
  cbv zeta.
  apply (fss_op_round_1_failure lam0 n0 Keccak.sha3_256 "comp" Q_fss_comp [0; 0] [1; 0]
           [mkStore [] [CompKey 0 [] []] []; mkStore [EqKey 1 [] [] []] [] []] 1).
  - right; left; reflexivity.
  - reflexivity.
  - reflexivity.
  - eexists. split; reflexivity.
Defined.
